(** * Tile-based flood-fill search of [gff.generate.floodmaps]

    A shallow embedding of the grid builder, the frontier seeder, the
    search loop, the cross-tile blending and the class post-processing of
    [src/gff/generate/floodmaps.py], with the properties the design
    document states about them. The last modules embed the check of the
    input rasters and the end of [progressively_grow_floodmaps], the
    16-bit encoding of [src/scripts/dl-era5-land.py] and its decoding in
    [src/scripts/calc-norm-param.py].

    Conventions of the embedding:
    - Python integers are [Z]; floor division [//] is [Z.div].
    - numpy floating-point values are exact rationals [Q] (compared with
      [==]); rounding of IEEE doubles is outside the model.
    - a numpy array is its shape together with its element function;
      only the elements inside the shape are meaningful.
    - a Python exception is the [Raise] branch of [result]. *)

From Stdlib Require Import ZArith QArith Qabs Qround Qminmax Lqa Lia List Bool.
From stdpp Require Import base gmap list.

Local Open Scope Z_scope.

(** ** Exceptions *)

Inductive exn : Set :=
| IndexError
| ValueError
| ZeroDivisionError
| TransformNotInvertibleError
| TypeError.

Inductive result (A : Type) : Type :=
| Ok (a : A)
| Raise (e : exn).

Arguments Ok {A} a.
Arguments Raise {A} e.

#[global] Instance result_ret : MRet result := @Ok.

#[global] Instance result_bind : MBind result :=
  λ A B f m, match m with Ok a => f a | Raise e => Raise e end.

Lemma bind_Ok {A B} (f : A → result B) (a : A) : (Ok a ≫= f) = f a.
Proof. reflexivity. Qed.

(** ** Rational comparisons as booleans *)

Definition Qltb (a b : Q) : bool := negb (Qle_bool b a).

Lemma Qltb_lt (a b : Q) : Qltb a b = true ↔ (a < b)%Q.
Proof.
  unfold Qltb. rewrite negb_true_iff, <- not_true_iff_false, Qle_bool_iff.
  split; [apply Qnot_le_lt | apply Qlt_not_le].
Qed.

Lemma Qltb_ge (a b : Q) : Qltb a b = false ↔ (b <= a)%Q.
Proof.
  unfold Qltb. rewrite negb_false_iff, Qle_bool_iff. reflexivity.
Qed.

(** An integer lies left of a half-integer knot exactly when it is below
    the next integer. *)
Lemma Zle_half_knot (y m : Z) :
  (inject_Z y <= inject_Z m - (1 # 2))%Q ↔ y < m.
Proof.
  unfold Qle, Qminus, Qplus, Qopp, inject_Z; simpl. lia.
Qed.

(** ** numpy arrays, slices and broadcasting *)

Module Numpy.

(** A two-dimensional array of shape [(rows2, cols2)]. *)
Record ndarray2 : Type := Arr2 {
  rows2 : Z;
  cols2 : Z;
  at2 : Z → Z → Q
}.

(** A three-dimensional array of shape [(chans, rows, cols)]. *)
Record ndarray3 : Type := Arr3 {
  chans : Z;
  rows : Z;
  cols : Z;
  at3 : Z → Z → Z → Q
}.

Definition shape3 (a : ndarray3) : Z * Z * Z := (chans a, rows a, cols a).

(** [slice(start, stop)], [None] standing for an omitted bound. *)
Definition slice : Type := option Z * option Z.

(** One bound of a slice resolved against an axis of length [n], as
    [slice.indices] does for step 1. *)
Definition clamp_bound (n v : Z) : Z :=
  if v <? 0 then Z.max 0 (v + n) else Z.min v n.

Definition slice_bounds (n : Z) (s : slice) : Z * Z :=
  (match s.1 with None => 0 | Some v => clamp_bound n v end,
   match s.2 with None => n | Some v => clamp_bound n v end).

Definition slice_start (n : Z) (s : slice) : Z := (slice_bounds n s).1.

Definition slice_len (n : Z) (s : slice) : Z :=
  Z.max 0 ((slice_bounds n s).2 - (slice_bounds n s).1).

(** Does index [i] of the axis belong to the slice? *)
Definition in_slice (n : Z) (s : slice) (i : Z) : bool :=
  (slice_start n s <=? i) && (i <? slice_start n s + slice_len n s).

(** [a[ys, xs]] *)
Definition getitem2 (a : ndarray2) (sl : slice * slice) : ndarray2 :=
  {| rows2 := slice_len (rows2 a) sl.1;
     cols2 := slice_len (cols2 a) sl.2;
     at2 := λ i j, at2 a (slice_start (rows2 a) sl.1 + i)
                         (slice_start (cols2 a) sl.2 + j) |}.

(** [a[:, ys, xs]] *)
Definition getitem3 (a : ndarray3) (sl : slice * slice) : ndarray3 :=
  {| chans := chans a;
     rows := slice_len (rows a) sl.1;
     cols := slice_len (cols a) sl.2;
     at3 := λ k i j, at3 a k (slice_start (rows a) sl.1 + i)
                           (slice_start (cols a) sl.2 + j) |}.

(** Length of an axis after broadcasting two operands. *)
Definition broadcast_dim (a b : Z) : result Z :=
  if a =? b then Ok a
  else if a =? 1 then Ok b
  else if b =? 1 then Ok a
  else Raise ValueError.

(** Index into an axis of length [d] that may have been stretched. *)
Definition bidx (d i : Z) : Z := if d =? 1 then 0 else i.

(** [a * b] for [a] of three and [b] of two dimensions. *)
Definition mul32 (a : ndarray3) (b : ndarray2) : result ndarray3 :=
  r ← broadcast_dim (rows a) (rows2 b);
  c ← broadcast_dim (cols a) (cols2 b);
  Ok {| chans := chans a; rows := r; cols := c;
        at3 := λ k i j,
          (at3 a k (bidx (rows a) i) (bidx (cols a) j)
           * at2 b (bidx (rows2 b) i) (bidx (cols2 b) j))%Q |}.

(** Can an axis of length [d] be stretched to length [target]? *)
Definition broadcasts_to (d target : Z) : bool := (d =? target) || (d =? 1).

(** [out[:, ys, xs] += b] *)
Definition iadd_slice (out : ndarray3) (sl : slice * slice) (b : ndarray3)
  : result ndarray3 :=
  if broadcasts_to (chans b) (chans out)
     && broadcasts_to (rows b) (slice_len (rows out) sl.1)
     && broadcasts_to (cols b) (slice_len (cols out) sl.2)
  then
    Ok {| chans := chans out; rows := rows out; cols := cols out;
          at3 := λ k y x,
            if in_slice (rows out) sl.1 y && in_slice (cols out) sl.2 x
            then (at3 out k y x
                  + at3 b (bidx (chans b) k)
                          (bidx (rows b) (y - slice_start (rows out) sl.1))
                          (bidx (cols b) (x - slice_start (cols out) sl.2)))%Q
            else at3 out k y x |}
  else Raise ValueError.

(** [np.zeros_like(a)] *)
Definition zeros_like (a : ndarray3) : ndarray3 :=
  {| chans := chans a; rows := rows a; cols := cols a;
     at3 := λ _ _ _, 0%Q |}.

Definition full_slice : slice * slice := ((None, None), (None, None)).

End Numpy.

(** ** Cross-tile blending *)

Module Blend.
Import Numpy.

(** The knots of one axis of length [n]: [(0, n // 2 - 0.5, n - 1)]. *)
Definition axis_knots (n : Z) : Q * Q * Q :=
  (0%Q, (inject_Z (n / 2) - (1 # 2))%Q, inject_Z (n - 1)).

(** [spaces] of [_weight_matrices]: the knots of the y and of the x axis. *)
Definition spaces (h w : Z) : (Q * Q * Q) * (Q * Q * Q) :=
  (axis_knots h, axis_knots w).

(** [RegularGridInterpolator] wants every axis strictly ascending. *)
Definition strictly_ascending (g : Q * Q * Q) : bool :=
  let '(k0, k1, k2) := g in Qltb k0 k1 && Qltb k1 k2.

(** The interval of the axis a coordinate falls in (the index of its left
    knot, as [searchsorted(grid, t) - 1] clipped to [0, 1]) and the
    normalised distance to that knot. *)
Definition find_indices (g : Q * Q * Q) (t : Q) : Z * Q :=
  let '(k0, k1, k2) := g in
  if Qle_bool t k1 then (0, ((t - k0) / (k1 - k0))%Q)
  else (1, ((t - k1) / (k2 - k1))%Q).

Definition lores_at (lores : list (list Q)) (i j : Z) : Q :=
  nth (Z.to_nat j) (nth (Z.to_nat i) lores []) 0%Q.

(** [interp(lores)] evaluated at pixel [(y, x)]: multilinear
    interpolation of the 3x3 control values over [spaces]. *)
Definition interp (sp : (Q * Q * Q) * (Q * Q * Q)) (lores : list (list Q))
           (y x : Z) : Q :=
  let '(i, ty) := find_indices sp.1 (inject_Z y) in
  let '(j, tx) := find_indices sp.2 (inject_Z x) in
  ((1 - ty) * (1 - tx) * lores_at lores i j
   + (1 - ty) * tx * lores_at lores i (j + 1)
   + ty * (1 - tx) * lores_at lores (i + 1) j
   + ty * tx * lores_at lores (i + 1) (j + 1))%Q.

(** The control grids of [_weight_matrices], laid out as in the source:
    entry [(r, c)] is the grid of the weight matrix applied towards
    position [(r, c)] of the 3x3 neighbourhood. *)
Definition control_grids : list (list (list (list Q))) :=
  [ [ [[1; 0; 0]; [0; 0; 0]; [0; 0; 0]];
      [[0; 1; 0]; [0; 0; 0]; [0; 0; 0]];
      [[0; 0; 1]; [0; 0; 0]; [0; 0; 0]] ];
    [ [[0; 0; 0]; [1; 0; 0]; [0; 0; 0]];
      [[0; 0; 0]; [0; 1; 0]; [0; 0; 0]];
      [[0; 0; 0]; [0; 0; 1]; [0; 0; 0]] ];
    [ [[0; 0; 0]; [0; 0; 0]; [1; 0; 0]];
      [[0; 0; 0]; [0; 0; 0]; [0; 1; 0]];
      [[0; 0; 0]; [0; 0; 0]; [0; 0; 1]] ] ]%Q.

Definition control_grid (r c : Z) : list (list Q) :=
  nth (Z.to_nat c) (nth (Z.to_nat r) control_grids []) [].

(** [_weight_matrices(h, w)]; the result is indexed as [result r c]. *)
Definition _weight_matrices (h w : Z) : result (Z → Z → ndarray2) :=
  if strictly_ascending (axis_knots h) && strictly_ascending (axis_knots w)
  then Ok (λ r c, {| rows2 := h; cols2 := w;
                     at2 := interp (spaces h w) (control_grid r c) |})
  else Raise ValueError.

(** The dictionary [adjacent] of [get_adjacent_logits]. *)
Record adjacent : Type := Adjacent {
  adj_tl : option ndarray3;
  adj_up : option ndarray3;
  adj_tr : option ndarray3;
  adj_le : option ndarray3;
  adj_ri : option ndarray3;
  adj_bl : option ndarray3;
  adj_do : option ndarray3;
  adj_br : option ndarray3
}.

(** The keys of [slices]. *)
Inductive key : Set := TL | UP | TR | LE | RI | BL | DO | BR.

Definition slices (h w : Z) (d : key) : slice * slice :=
  let h2 := h / 2 in
  let w2 := w / 2 in
  match d with
  | TL => ((Some 0, Some h2), (Some 0, Some w2))
  | UP => ((Some 0, Some h2), (None, None))
  | TR => ((Some 0, Some h2), (Some w2, None))
  | LE => ((None, None), (Some 0, Some w2))
  | RI => ((None, None), (Some w2, None))
  | BL => ((Some h2, None), (Some 0, Some w2))
  | DO => ((Some h2, None), (None, None))
  | BR => ((Some h2, None), (Some w2, None))
  end.

(** The inner function [f]: [None] is its scalar result [0]. *)
Definition f (tile : option ndarray3) (slc islc : slice * slice)
           (weight : ndarray2) : result (option ndarray3) :=
  match tile with
  | None => Ok None
  | Some t => p ← mul32 (getitem3 t islc) (getitem2 weight slc); Ok (Some p)
  end.

(** [out[:, *slc] += v] for a result [v] of [f]. *)
Definition iadd (out : ndarray3) (slc : slice * slice) (v : option ndarray3)
  : result ndarray3 :=
  match v with
  | None => Ok out
  | Some b => iadd_slice out slc b
  end.

(** One line [out[:, *slices[k]] += f(adjacent[k], slices[k], slices[k'], weights[r, c])]. *)
Definition accumulate (out : ndarray3) (tile : option ndarray3)
           (slc islc : slice * slice) (weight : ndarray2) : result ndarray3 :=
  v ← f tile slc islc weight; iadd out slc v.

Definition average_logits_towards_edges (logits : ndarray3) (adj : adjacent)
  : result ndarray3 :=
  let h := rows logits in
  let w := cols logits in
  weights ← _weight_matrices h w;
  let sl := slices h w in
  let out := zeros_like logits in
  out ← accumulate out (adj_tl adj) (sl TL) (sl BR) (weights 0 0);
  out ← accumulate out (adj_up adj) (sl UP) (sl DO) (weights 0 1);
  out ← accumulate out (adj_tr adj) (sl TR) (sl BL) (weights 0 2);
  out ← accumulate out (adj_le adj) (sl LE) (sl RI) (weights 1 0);
  own ← mul32 logits (weights 1 1);
  out ← iadd_slice out full_slice own;
  out ← accumulate out (adj_ri adj) (sl RI) (sl LE) (weights 1 2);
  out ← accumulate out (adj_bl adj) (sl BL) (sl TR) (weights 2 0);
  out ← accumulate out (adj_do adj) (sl DO) (sl UP) (weights 2 1);
  out ← accumulate out (adj_br adj) (sl BR) (sl TL) (weights 2 2);
  Ok out.

(** *** What each pixel of the result is made of *)

Definition neighbour (adj : adjacent) (d : key) : option ndarray3 :=
  match d with
  | TL => adj_tl adj | UP => adj_up adj | TR => adj_tr adj
  | LE => adj_le adj | RI => adj_ri adj
  | BL => adj_bl adj | DO => adj_do adj | BR => adj_br adj
  end.

(** The slice of the neighbour that is read for key [d]. *)
Definition opposite (d : key) : key :=
  match d with
  | TL => BR | UP => DO | TR => BL | LE => RI
  | RI => LE | BL => TR | DO => UP | BR => TL
  end.

(** The position of the weight matrix used for key [d]. *)
Definition position (d : key) : Z * Z :=
  match d with
  | TL => (0, 0) | UP => (0, 1) | TR => (0, 2)
  | LE => (1, 0) | RI => (1, 2)
  | BL => (2, 0) | DO => (2, 1) | BR => (2, 2)
  end.

(** Element [(y, x)] of [weights[r, c]]. *)
Definition weight (h w r c y x : Z) : Q :=
  interp (spaces h w) (control_grid r c) y x.

Definition own_weight (h w y x : Z) : Q := weight h w 1 1 y x.

Definition in_slices (h w : Z) (d : key) (y x : Z) : bool :=
  in_slice h (slices h w d).1 y && in_slice w (slices h w d).2 x.

(** The weight with which neighbour [d] enters pixel [(y, x)]: its weight
    matrix inside its slice, nothing outside. *)
Definition applied_weight (h w : Z) (d : key) (y x : Z) : Q :=
  if in_slices h w d y x
  then weight h w (position d).1 (position d).2 y x
  else 0%Q.

(** The element of neighbour [t] that lies over pixel [(y, x)]. *)
Definition mirrored (h w : Z) (t : ndarray3) (d : key) (k y x : Z) : Q :=
  at3 t k
    (slice_start h (slices h w (opposite d)).1 + (y - slice_start h (slices h w d).1))
    (slice_start w (slices h w (opposite d)).2 + (x - slice_start w (slices h w d).2)).

Definition contribution (h w : Z) (adj : adjacent) (d : key) (k y x : Z) : Q :=
  match neighbour adj d with
  | Some t => (applied_weight h w d y x * mirrored h w t d k y x)%Q
  | None => 0%Q
  end.

Definition all_keys : list key := [TL; UP; TR; LE; RI; BL; DO; BR].

Definition Qsum (l : list Q) : Q := fold_right Qplus 0%Q l.

(** Own logits times own weight plus every present neighbour's mirrored
    logits times that neighbour's weight. *)
Definition blended_value (logits : ndarray3) (adj : adjacent) (k y x : Z) : Q :=
  let h := rows logits in
  let w := cols logits in
  (own_weight h w y x * at3 logits k y x
   + Qsum (map (λ d, contribution h w adj d k y x) all_keys))%Q.

(** The one-dimensional weight of knot [r] at coordinate [y]. *)
Definition hat (n r y : Z) : Q :=
  let '(i, t) := find_indices (axis_knots n) (inject_Z y) in
  if r =? i then (1 - t)%Q else if r =? i + 1 then t else 0%Q.

(** *** Properties of the weights and of the blend *)

Lemma strictly_ascending_knots (n : Z) : 2 ≤ n → strictly_ascending (axis_knots n) = true.
Proof.
  intros Hn. unfold strictly_ascending, axis_knots.
  assert (1 ≤ n / 2) by (apply Z.div_le_lower_bound; lia).
  assert (n / 2 ≤ n - 1) by (apply Z.div_le_upper_bound; lia).
  apply andb_true_iff; split; apply Qltb_lt.
  - unfold Qlt, Qminus, Qplus, Qopp, inject_Z; simpl. lia.
  - unfold Qlt, Qminus, Qplus, Qopp, inject_Z; simpl. lia.
Qed.


Lemma weight_hat (h w r c y x : Z) :
  0 ≤ r ≤ 2 → 0 ≤ c ≤ 2 →
  (weight h w r c y x == hat h r y * hat w c x)%Q.
Proof.
  intros Hr Hc. unfold weight, interp, hat, spaces; simpl fst; simpl snd.
  destruct (find_indices (axis_knots h) _) as [i ty] eqn:Ei.
  destruct (find_indices (axis_knots w) _) as [j tx] eqn:Ej.
  assert (Hi : i = 0 ∨ i = 1).
  { unfold find_indices, axis_knots in Ei. destruct (Qle_bool _ _); inversion Ei; auto. }
  assert (Hj : j = 0 ∨ j = 1).
  { unfold find_indices, axis_knots in Ej. destruct (Qle_bool _ _); inversion Ej; auto. }
  clear Ei Ej.
  assert (Hr' : r = 0 ∨ r = 1 ∨ r = 2) by lia.
  assert (Hc' : c = 0 ∨ c = 1 ∨ c = 2) by lia.
  destruct Hi, Hj, Hr' as [|[|]], Hc' as [|[|]]; subst; unfold lores_at, control_grid; simpl. all: ring.
Qed.

Lemma bidx_range (d i : Z) : 0 ≤ i < d → bidx d i = i.
Proof.
  intros H. unfold bidx. destruct (d =? 1) eqn:E; [|reflexivity].
  apply Z.eqb_eq in E. lia.
Qed.

Lemma broadcast_dim_same (a : Z) : broadcast_dim a a = Ok a.
Proof. unfold broadcast_dim. now rewrite Z.eqb_refl. Qed.

Lemma broadcasts_to_same (a : Z) : broadcasts_to a a = true.
Proof. unfold broadcasts_to. now rewrite Z.eqb_refl. Qed.

Lemma in_slice_range (n : Z) (s : slice) (i : Z) :
  in_slice n s i = true → 0 ≤ i - slice_start n s < slice_len n s.
Proof.
  unfold in_slice. rewrite andb_true_iff, Z.leb_le, Z.ltb_lt. lia.
Qed.

Lemma accumulate_spec (out : ndarray3) (tile : option ndarray3)
      (slc islc : slice * slice) (wt : ndarray2) :
  rows2 wt = rows out → cols2 wt = cols out →
  (∀ t, tile = Some t →
        chans t = chans out ∧ rows t = rows out ∧ cols t = cols out
        ∧ slice_len (rows out) islc.1 = slice_len (rows out) slc.1
        ∧ slice_len (cols out) islc.2 = slice_len (cols out) slc.2) →
  ∃ out', accumulate out tile slc islc wt = Ok out'
    ∧ chans out' = chans out ∧ rows out' = rows out ∧ cols out' = cols out
    ∧ ∀ k y x, 0 ≤ k < chans out →
        (at3 out' k y x ==
         at3 out k y x +
         match tile with
         | Some t =>
             if in_slice (rows out) slc.1 y && in_slice (cols out) slc.2 x
             then at2 wt y x *
                  at3 t k
                    (slice_start (rows out) islc.1 + (y - slice_start (rows out) slc.1))
                    (slice_start (cols out) islc.2 + (x - slice_start (cols out) slc.2))
             else 0
         | None => 0
         end)%Q.
Proof.
  intros Hr Hc Ht. unfold accumulate, f.
  destruct tile as [t|]; simpl.
  - destruct (Ht t eq_refl) as (Hk & Hrt & Hct & Hly & Hlx).
    unfold mul32; simpl. rewrite Hrt, Hct, Hr, Hc, Hly, Hlx.
    rewrite !broadcast_dim_same; simpl.
    unfold iadd_slice; simpl. rewrite Hk, !broadcasts_to_same; simpl.
    eexists; split; [reflexivity|]. simpl. repeat split; try reflexivity.
    intros k y x Hkr.
    destruct (in_slice (rows out) slc.1 y) eqn:Ey; simpl; [|ring].
    destruct (in_slice (cols out) slc.2 x) eqn:Ex; simpl; [|ring].
    apply in_slice_range in Ey, Ex.
    rewrite (bidx_range _ k) by lia.
    rewrite !(bidx_range _ (y - _)) by lia.
    rewrite !(bidx_range _ (x - _)) by lia.
    replace (slice_start (rows out) slc.1 + (y - slice_start (rows out) slc.1)) with y by lia.
    replace (slice_start (cols out) slc.2 + (x - slice_start (cols out) slc.2)) with x by lia.
    ring.
  - exists out. repeat split; try reflexivity. intros; ring.
Qed.

Lemma clamp_bound_range (n v : Z) : 0 ≤ v ≤ n → clamp_bound n v = v.
Proof.
  intros H. unfold clamp_bound. destruct (v <? 0) eqn:E.
  - apply Z.ltb_lt in E. lia.
  - lia.
Qed.

Lemma even_half (n : Z) : Z.even n = true → n = 2 * (n / 2).
Proof.
  intros H. apply Z.even_spec in H. destruct H as [m ->].
  rewrite (Z.mul_comm 2 m), Z.div_mul by lia. lia.
Qed.

Lemma half_bounds (n : Z) : 0 ≤ n → 0 ≤ n / 2 ≤ n.
Proof.
  intros H. split.
  - apply Z.div_pos; lia.
  - apply Z.div_le_upper_bound; lia.
Qed.

(** Start and length of the row and column ranges of every key. *)
Lemma slices_rows (h w : Z) (d : key) :
  0 ≤ h →
  (slice_start h (slices h w d).1, slice_len h (slices h w d).1) =
  match d with
  | TL | UP | TR => (0, h / 2)
  | LE | RI => (0, h)
  | BL | DO | BR => (h / 2, h - h / 2)
  end.
Proof.
  intros Hh. pose proof (half_bounds h Hh).
  destruct d; unfold slice_start, slice_len, slice_bounds, slices; simpl;
    rewrite ?clamp_bound_range by lia; f_equal; lia.
Qed.

Lemma slices_cols (h w : Z) (d : key) :
  0 ≤ w →
  (slice_start w (slices h w d).2, slice_len w (slices h w d).2) =
  match d with
  | TL | LE | BL => (0, w / 2)
  | UP | DO => (0, w)
  | TR | RI | BR => (w / 2, w - w / 2)
  end.
Proof.
  intros Hw. pose proof (half_bounds w Hw).
  destruct d; unfold slice_start, slice_len, slice_bounds, slices; simpl;
    rewrite ?clamp_bound_range by lia; f_equal; lia.
Qed.

Lemma slices_opposite_len (h w : Z) (d : key) :
  0 ≤ h → 0 ≤ w → Z.even h = true → Z.even w = true →
  slice_len h (slices h w (opposite d)).1 = slice_len h (slices h w d).1
  ∧ slice_len w (slices h w (opposite d)).2 = slice_len w (slices h w d).2.
Proof.
  intros Hh Hw Eh Ew.
  pose proof (f_equal snd (slices_rows h w d Hh)) as R1.
  pose proof (f_equal snd (slices_rows h w (opposite d) Hh)) as R2.
  pose proof (f_equal snd (slices_cols h w d Hw)) as C1.
  pose proof (f_equal snd (slices_cols h w (opposite d) Hw)) as C2.
  simpl in R1, R2, C1, C2. rewrite R1, R2, C1, C2.
  apply even_half in Eh, Ew.
  destruct d; simpl; lia.
Qed.

Lemma weight_matrices_ok (h w : Z) :
  2 ≤ h → 2 ≤ w →
  _weight_matrices h w =
  Ok (λ r c, {| rows2 := h; cols2 := w; at2 := weight h w r c |}).
Proof.
  intros Hh Hw. unfold _weight_matrices.
  now rewrite !strictly_ascending_knots by lia.
Qed.

(** One accumulated term is the contribution of its neighbour. *)
Lemma term_contribution (h w : Z) (adj : adjacent) (d : key) (k y x : Z) :
  (match neighbour adj d with
   | Some t =>
       if in_slice h (slices h w d).1 y && in_slice w (slices h w d).2 x
       then weight h w (position d).1 (position d).2 y x *
            at3 t k
              (slice_start h (slices h w (opposite d)).1 + (y - slice_start h (slices h w d).1))
              (slice_start w (slices h w (opposite d)).2 + (x - slice_start w (slices h w d).2))
       else 0
   | None => 0
   end == contribution h w adj d k y x)%Q.
Proof.
  unfold contribution, applied_weight, in_slices, mirrored.
  destruct (neighbour adj d); [|reflexivity].
  destruct (_ && _); ring.
Qed.

(** Every present neighbour has the shape of the own logits, and that
    shape has an even number of rows and of columns. *)
Definition compatible (logits : ndarray3) (adj : adjacent) : Prop :=
  ∀ d t, neighbour adj d = Some t →
         shape3 t = shape3 logits
         ∧ Z.even (rows logits) = true ∧ Z.even (cols logits) = true.

Lemma mul32_same_shape (a : ndarray3) (b : ndarray2) :
  rows2 b = rows a → cols2 b = cols a →
  ∃ p, mul32 a b = Ok p
    ∧ chans p = chans a ∧ rows p = rows a ∧ cols p = cols a
    ∧ ∀ k y x, 0 ≤ y < rows a → 0 ≤ x < cols a →
        (at3 p k y x == at3 a k y x * at2 b y x)%Q.
Proof.
  intros Hr Hc. unfold mul32. rewrite Hr, Hc, !broadcast_dim_same.
  eexists; split; [reflexivity|]. simpl. repeat split; try reflexivity.
  intros k y x Hy Hx. now rewrite !bidx_range by lia.
Qed.

Lemma iadd_full_spec (out b : ndarray3) :
  chans b = chans out → rows b = rows out → cols b = cols out →
  0 ≤ rows out → 0 ≤ cols out →
  ∃ out', iadd_slice out full_slice b = Ok out'
    ∧ chans out' = chans out ∧ rows out' = rows out ∧ cols out' = cols out
    ∧ ∀ k y x, 0 ≤ k < chans out → 0 ≤ y < rows out → 0 ≤ x < cols out →
        (at3 out' k y x == at3 out k y x + at3 b k y x)%Q.
Proof.
  intros Hk Hr Hc Hr0 Hc0. unfold iadd_slice, full_slice; simpl.
  assert (L : ∀ n, 0 ≤ n → slice_len n (None, None) = n).
  { intros n Hn. unfold slice_len, slice_bounds; simpl. lia. }
  assert (S : ∀ n, slice_start n (None, None) = 0) by reflexivity.
  rewrite !L by assumption. rewrite Hk, Hr, Hc, !broadcasts_to_same. simpl.
  eexists; split; [reflexivity|]. simpl. repeat split; try reflexivity.
  intros k y x Hkr Hy Hx. unfold in_slice. rewrite !S, !L by assumption.
  replace (0 <=? y) with true by (symmetry; apply Z.leb_le; lia).
  replace (y <? 0 + rows out) with true by (symmetry; apply Z.ltb_lt; lia).
  replace (0 <=? x) with true by (symmetry; apply Z.leb_le; lia).
  replace (x <? 0 + cols out) with true by (symmetry; apply Z.ltb_lt; lia).
  simpl. rewrite !bidx_range by lia. now rewrite !Z.sub_0_r.
Qed.

Lemma accumulate_key (logits : ndarray3) (adj : adjacent) (o : ndarray3) (d : key) :
  let h := rows logits in
  let w := cols logits in
  0 ≤ h → 0 ≤ w → compatible logits adj →
  chans o = chans logits → rows o = h → cols o = w →
  ∃ o', accumulate o (neighbour adj d) (slices h w d) (slices h w (opposite d))
          {| rows2 := h; cols2 := w;
             at2 := weight h w (position d).1 (position d).2 |} = Ok o'
    ∧ chans o' = chans logits ∧ rows o' = h ∧ cols o' = w
    ∧ ∀ k y x, 0 ≤ k < chans logits →
        (at3 o' k y x == at3 o k y x + contribution h w adj d k y x)%Q.
Proof.
  intros h w. remember h as h' eqn:Eh. remember w as w' eqn:Ew.
  subst h w. rename h' into h. rename w' into w.
  intros Hh Hw Hc Ho1 Ho2 Ho3.
  destruct (accumulate_spec o (neighbour adj d) (slices h w d)
              (slices h w (opposite d))
              {| rows2 := h; cols2 := w;
                 at2 := weight h w (position d).1 (position d).2 |})
    as (o' & E & C & R & K & P).
  - simpl. congruence.
  - simpl. congruence.
  - intros t Ht. destruct (Hc d t Ht) as (Hs & Eh' & Ew').
    unfold shape3 in Hs. inversion Hs.
    destruct (slices_opposite_len h w d) as [L1 L2]; try congruence.
    rewrite Ho2, Ho3. repeat split; congruence.
  - exists o'. split; [exact E|]. repeat split; try congruence.
    intros k y x Hk. rewrite P by congruence.
    rewrite Ho2, Ho3. simpl at2.
    now rewrite term_contribution.
Qed.

Ltac acc_step logits adj d :=
  match goal with
  | |- context [accumulate ?o _ _ _ _] =>
      let o' := fresh "o" in
      let E := fresh "E" in
      let C := fresh "C" in
      let R := fresh "R" in
      let K := fresh "K" in
      let P := fresh "P" in
      destruct (accumulate_key logits adj o d) as (o' & E & C & R & K & P);
      [ lia | lia | assumption | assumption | assumption | assumption | ];
      cbn [neighbour opposite position fst snd] in E;
      rewrite E, bind_Ok; clear E
  end.

Lemma average_logits_pixels (logits : ndarray3) (adj : adjacent) :
  2 ≤ rows logits → 2 ≤ cols logits → compatible logits adj →
  ∃ out, average_logits_towards_edges logits adj = Ok out
    ∧ shape3 out = shape3 logits
    ∧ ∀ k y x, 0 ≤ k < chans logits → 0 ≤ y < rows logits → 0 ≤ x < cols logits →
        (at3 out k y x == blended_value logits adj k y x)%Q.
Proof.
  intros Hh Hw Hc. unfold average_logits_towards_edges.
  rewrite weight_matrices_ok by assumption. rewrite bind_Ok. cbv zeta.
  assert (Z0 : chans (zeros_like logits) = chans logits) by reflexivity.
  assert (Z1 : rows (zeros_like logits) = rows logits) by reflexivity.
  assert (Z2 : cols (zeros_like logits) = cols logits) by reflexivity.
  acc_step logits adj TL. acc_step logits adj UP.
  acc_step logits adj TR. acc_step logits adj LE.
  destruct (mul32_same_shape logits
              {| rows2 := rows logits; cols2 := cols logits;
                 at2 := weight (rows logits) (cols logits) 1 1 |})
    as (own & E & Co & Ro & Ko & Po); [reflexivity | reflexivity |].
  rewrite E, bind_Ok; clear E.
  destruct (iadd_full_spec o2 own) as (o3 & E & C3 & R3 & K3 & P3);
    [congruence | congruence | congruence | lia | lia |].
  rewrite E, bind_Ok; clear E.
  rewrite C2 in C3. rewrite R2 in R3. rewrite K2 in K3.
  acc_step logits adj RI. acc_step logits adj BL.
  acc_step logits adj DO. acc_step logits adj BR.
  eexists; split; [reflexivity|]. split; [unfold shape3; congruence|].
  intros k y x Hk Hy Hx.
  rewrite P7, P6, P5, P4 by assumption.
  rewrite P3 by congruence. rewrite Po by assumption.
  rewrite P2, P1, P0, P by assumption.
  unfold blended_value, own_weight, all_keys, Qsum, zeros_like; simpl.
  ring.
Qed.

(** *** The one-dimensional weights *)

Lemma half_knot_bounds (n : Z) : 2 ≤ n → 1 ≤ n / 2 ≤ n - 1.
Proof.
  intros Hn. split.
  - apply Z.div_le_lower_bound; lia.
  - apply Z.div_le_upper_bound; lia.
Qed.

Lemma find_indices_left (n y : Z) :
  y < n / 2 →
  find_indices (axis_knots n) (inject_Z y) =
  (0, ((inject_Z y - 0) / (inject_Z (n / 2) - (1 # 2) - 0))%Q).
Proof.
  intros H. unfold find_indices, axis_knots.
  apply Zle_half_knot, Qle_bool_iff in H. now rewrite H.
Qed.

Lemma find_indices_right (n y : Z) :
  n / 2 ≤ y →
  find_indices (axis_knots n) (inject_Z y) =
  (1, ((inject_Z y - (inject_Z (n / 2) - (1 # 2)))
       / (inject_Z (n - 1) - (inject_Z (n / 2) - (1 # 2))))%Q).
Proof.
  intros H. unfold find_indices, axis_knots.
  destruct (Qle_bool _ _) eqn:E; [|reflexivity].
  apply Qle_bool_iff, Zle_half_knot in E. lia.
Qed.

Lemma ratio_bounds (a b : Q) : (0 < b → 0 <= a → a <= b → 0 <= a / b <= 1)%Q.
Proof.
  intros Hb Ha Hab. split.
  - apply Qle_shift_div_l; [assumption|]. now rewrite Qmult_0_l.
  - apply Qle_shift_div_r; [assumption|]. now rewrite Qmult_1_l.
Qed.

(** The normalised distance of a pixel to its left knot lies in [0, 1];
    it is below 1 in the left interval and above 0 in the right one. *)
Lemma find_indices_range (n y : Z) :
  2 ≤ n → 0 ≤ y < n →
  ∃ i t, find_indices (axis_knots n) (inject_Z y) = (i, t)
    ∧ (0 <= t <= 1)%Q
    ∧ ((i = 0 ∧ y < n / 2 ∧ (t < 1)%Q) ∨ (i = 1 ∧ n / 2 ≤ y ∧ (0 < t)%Q)).
Proof.
  intros Hn Hy. pose proof (half_knot_bounds n Hn) as Hm.
  destruct (Z_lt_le_dec y (n / 2)) as [Hl|Hr].
  - rewrite find_indices_left by assumption.
    do 2 eexists; split; [reflexivity|].
    assert (Hb : (0 < inject_Z (n / 2) - (1 # 2) - 0)%Q).
    { unfold Qlt, Qminus, Qplus, Qopp, inject_Z; simpl. lia. }
    assert (Ha : (0 <= inject_Z y - 0)%Q).
    { unfold Qle, Qminus, Qplus, Qopp, inject_Z; simpl. lia. }
    assert (Hab : (inject_Z y - 0 < inject_Z (n / 2) - (1 # 2) - 0)%Q).
    { unfold Qlt, Qminus, Qplus, Qopp, inject_Z; simpl. lia. }
    split; [apply ratio_bounds; auto using Qlt_le_weak|].
    left. repeat split; try assumption.
    apply Qlt_shift_div_r; [assumption|]. now rewrite Qmult_1_l.
  - rewrite find_indices_right by assumption.
    do 2 eexists; split; [reflexivity|].
    assert (Hb : (0 < inject_Z (n - 1) - (inject_Z (n / 2) - (1 # 2)))%Q).
    { unfold Qlt, Qminus, Qplus, Qopp, inject_Z; simpl. lia. }
    assert (Ha : (0 < inject_Z y - (inject_Z (n / 2) - (1 # 2)))%Q).
    { unfold Qlt, Qminus, Qplus, Qopp, inject_Z; simpl. lia. }
    assert (Hab : (inject_Z y - (inject_Z (n / 2) - (1 # 2))
                   <= inject_Z (n - 1) - (inject_Z (n / 2) - (1 # 2)))%Q).
    { unfold Qle, Qminus, Qplus, Qopp, inject_Z; simpl. lia. }
    split; [apply ratio_bounds; auto using Qlt_le_weak|].
    right. repeat split; try assumption.
    apply Qlt_shift_div_l; [assumption|]. now rewrite Qmult_0_l.
Qed.

Lemma hat_nonneg (n r y : Z) : 2 ≤ n → 0 ≤ y < n → (0 <= hat n r y)%Q.
Proof.
  intros Hn Hy. unfold hat.
  destruct (find_indices_range n y Hn Hy) as (i & t & -> & [Ht0 Ht1] & _).
  destruct (r =? i); [lra|]. destruct (r =? i + 1); lra.
Qed.

Lemma hat_mid_lt_1 (n y : Z) : 2 ≤ n → 0 ≤ y < n → (hat n 1 y < 1)%Q.
Proof.
  intros Hn Hy. unfold hat.
  destruct (find_indices_range n y Hn Hy)
    as (i & t & -> & [Ht0 Ht1] & [(-> & _ & Hlt)|(-> & _ & Hgt)]); simpl; lra.
Qed.



Lemma weight_nonneg (h w r c y x : Z) :
  2 ≤ h → 2 ≤ w → 0 ≤ r ≤ 2 → 0 ≤ c ≤ 2 → 0 ≤ y < h → 0 ≤ x < w →
  (0 <= weight h w r c y x)%Q.
Proof.
  intros. rewrite weight_hat by assumption.
  apply Qmult_le_0_compat; apply hat_nonneg; assumption.
Qed.








Definition ones (c h w : Z) : ndarray3 :=
  {| chans := c; rows := h; cols := w; at3 := λ _ _ _, 1%Q |}.

Definition no_neighbours : adjacent :=
  Adjacent None None None None None None None None.

Definition all_neighbours (t : ndarray3) : adjacent :=
  Adjacent (Some t) (Some t) (Some t) (Some t) (Some t) (Some t) (Some t) (Some t).


(** C4 as stated fails: on a 4x4 tile of ones with no neighbour at all,
    the blended pixel (1, 1) is 4/9, not the own logit 1. *)
Lemma all_absent_output_differs :
  ∃ out, average_logits_towards_edges (ones 1 4 4) no_neighbours = Ok out
    ∧ ¬ (at3 out 0 1 1 == at3 (ones 1 4 4) 0 1 1)%Q.
Proof.
  eexists. split; [reflexivity|].
  intros H. vm_compute in H. discriminate H.
Qed.

Example own_weight_4x4_inner : (own_weight 4 4 1 1 == 4 # 9)%Q.
Proof. vm_compute. reflexivity. Qed.

(** C4, amended. When all eight neighbours are absent, every pixel of the
    blend is the own logit times the own weight of that pixel, and that
    weight lies in [0, 1): absent neighbours still attenuate the own
    tile. *)
Theorem all_absent_scales_own_logits (logits : ndarray3) (adj : adjacent) :
  2 ≤ rows logits → 2 ≤ cols logits →
  (∀ d, neighbour adj d = None) →
  ∃ out, average_logits_towards_edges logits adj = Ok out
    ∧ shape3 out = shape3 logits
    ∧ ∀ k y x,
        0 ≤ k < chans logits → 0 ≤ y < rows logits → 0 ≤ x < cols logits →
        let h := rows logits in
        let w := cols logits in
        (at3 out k y x == own_weight h w y x * at3 logits k y x)%Q
        ∧ (0 <= own_weight h w y x < 1)%Q.
Proof.
  intros Hh Hw Hnone.
  destruct (average_logits_pixels logits adj Hh Hw) as (out & E & Hs & Hpx).
  { intros d t Ht. rewrite Hnone in Ht. discriminate Ht. }
  exists out. split; [exact E|]. split; [exact Hs|].
  intros k y x Hk Hy Hx h w. split.
  - rewrite Hpx by assumption. unfold blended_value, contribution, all_keys, Qsum.
    cbn [map fold_right]. rewrite !Hnone. fold h w. ring.
  - split; [apply weight_nonneg; lia|].
    unfold own_weight. rewrite weight_hat by lia.
    pose proof (hat_nonneg h 1 y Hh Hy). pose proof (hat_nonneg w 1 x Hw Hx).
    pose proof (hat_mid_lt_1 h y Hh Hy). pose proof (hat_mid_lt_1 w x Hw Hx).
    nra.
Qed.

Lemma all_absent_scales_own_logits_witness :
  ∃ out, average_logits_towards_edges (ones 1 4 4) no_neighbours = Ok out
    ∧ shape3 out = shape3 (ones 1 4 4)
    ∧ ∀ k y x,
        0 ≤ k < 1 → 0 ≤ y < 4 → 0 ≤ x < 4 →
        (at3 out k y x == own_weight 4 4 y x * at3 (ones 1 4 4) k y x)%Q
        ∧ (0 <= own_weight 4 4 y x < 1)%Q.
Proof.
  apply (all_absent_scales_own_logits (ones 1 4 4) no_neighbours).
  - simpl; lia.
  - simpl; lia.
  - intros d. destruct d; reflexivity.
Defined.

(** With an odd number of rows the mirrored slice of a present neighbour
    does not have the shape of the slice it is added to, and numpy
    raises. *)
Lemma accumulate_odd_rows_raise (out t : ndarray3) (h w : Z) (wt : ndarray2) :
  2 ≤ h → Z.odd h = true →
  rows out = h → rows t = h → rows2 wt = h →
  accumulate out (Some t) (slices h w TL) (slices h w BR) wt = Raise ValueError.
Proof.
  intros Hh Ho Hro Hrt Hrw. unfold accumulate, f, mul32.
  cbn [rows cols rows2 cols2 chans getitem3 getitem2].
  rewrite Hrt, Hrw.
  pose proof (f_equal snd (slices_rows h w TL ltac:(lia))) as R1.
  pose proof (f_equal snd (slices_rows h w BR ltac:(lia))) as R2.
  cbn [fst snd] in R1, R2. rewrite R1, R2.
  assert (Hodd : h = 2 * (h / 2) + 1).
  { apply Z.odd_spec in Ho. destruct Ho as [m Hm].
    assert (m = h / 2) by (apply (Z.div_unique h 2 m 1); lia). lia. }
  pose proof (half_knot_bounds _ Hh) as Hb.
  set (h2 := h / 2) in *.
  assert (B : broadcast_dim (h - h2) h2
              = if h2 =? 1 then Ok (h - h2) else Raise ValueError).
  { unfold broadcast_dim.
    destruct (Z.eqb_spec (h - h2) h2) as [?|_]; [lia|].
    destruct (Z.eqb_spec (h - h2) 1) as [?|_]; [lia|]. reflexivity. }
  rewrite B. destruct (Z.eqb_spec h2 1) as [H1|_]; [|reflexivity].
  rewrite bind_Ok. clear B.
  destruct (broadcast_dim (slice_len (cols t) _) _) as [c|e] eqn:Ec.
  - rewrite !bind_Ok. unfold iadd, iadd_slice.
    cbn [rows cols chans]. rewrite Hro, R1.
    replace (broadcasts_to (h - h2) h2) with false.
    + now rewrite andb_false_r.
    + unfold broadcasts_to. symmetry. apply orb_false_iff.
      split; apply Z.eqb_neq; lia.
  - unfold broadcast_dim in Ec.
    repeat (destruct (_ =? _) in Ec; try discriminate Ec).
    inversion Ec. reflexivity.
Qed.

(** The same with an even number of rows and an odd number of columns. *)
Lemma accumulate_odd_cols_raise (out t : ndarray3) (h w : Z) (wt : ndarray2) :
  2 ≤ h → Z.even h = true → 2 ≤ w → Z.odd w = true →
  rows out = h → cols out = w → rows t = h → cols t = w →
  rows2 wt = h → cols2 wt = w →
  accumulate out (Some t) (slices h w TL) (slices h w BR) wt = Raise ValueError.
Proof.
  intros Hh He Hw Ho Hro Hco Hrt Hct Hrw Hcw. unfold accumulate, f, mul32.
  cbn [rows cols rows2 cols2 chans getitem3 getitem2].
  rewrite Hrt, Hrw, Hct, Hcw.
  destruct (slices_opposite_len h h TL) as [L _]; try assumption; try lia.
  pose proof (f_equal snd (slices_rows h w TL ltac:(lia))) as R1.
  pose proof (f_equal snd (slices_rows h w BR ltac:(lia))) as R2.
  pose proof (f_equal snd (slices_cols h w TL ltac:(lia))) as C1.
  pose proof (f_equal snd (slices_cols h w BR ltac:(lia))) as C2.
  cbn [fst snd] in R1, R2, C1, C2. rewrite R1, R2, C1, C2.
  apply even_half in He. replace (h - h / 2) with (h / 2) by lia.
  rewrite broadcast_dim_same, bind_Ok.
  assert (Hodd : w = 2 * (w / 2) + 1).
  { apply Z.odd_spec in Ho. destruct Ho as [m Hm].
    assert (m = w / 2) by (apply (Z.div_unique w 2 m 1); lia). lia. }
  pose proof (half_knot_bounds _ Hw) as Hb.
  set (w2 := w / 2) in *.
  assert (B : broadcast_dim (w - w2) w2
              = if w2 =? 1 then Ok (w - w2) else Raise ValueError).
  { unfold broadcast_dim.
    destruct (Z.eqb_spec (w - w2) w2) as [?|_]; [lia|].
    destruct (Z.eqb_spec (w - w2) 1) as [?|_]; [lia|]. reflexivity. }
  rewrite B. destruct (Z.eqb_spec w2 1) as [H1|_]; [|reflexivity].
  rewrite !bind_Ok. unfold iadd, iadd_slice.
  cbn [rows cols chans]. rewrite Hro, Hco, R1, C1.
  replace (broadcasts_to (w - w2) w2) with false.
  - now rewrite andb_false_r.
  - unfold broadcasts_to. symmetry. apply orb_false_iff.
    split; apply Z.eqb_neq; lia.
Qed.

Lemma average_logits_odd_cols_raise (logits t : ndarray3) (adj : adjacent) :
  2 ≤ rows logits → 2 ≤ cols logits →
  Z.even (rows logits) = true → Z.odd (cols logits) = true →
  adj_tl adj = Some t → shape3 t = shape3 logits →
  average_logits_towards_edges logits adj = Raise ValueError.
Proof.
  intros Hh Hw He Ho Ht Hs. unfold shape3 in Hs. inversion Hs as [[Hc Hr Hcl]].
  unfold average_logits_towards_edges.
  rewrite weight_matrices_ok by assumption. rewrite bind_Ok. cbv zeta.
  rewrite Ht, accumulate_odd_cols_raise by (assumption || reflexivity).
  reflexivity.
Qed.

Lemma average_logits_odd_rows_raise (logits t : ndarray3) (adj : adjacent) :
  2 ≤ rows logits → 2 ≤ cols logits → Z.odd (rows logits) = true →
  adj_tl adj = Some t → shape3 t = shape3 logits →
  average_logits_towards_edges logits adj = Raise ValueError.
Proof.
  intros Hh Hw Ho Ht Hs. unfold shape3 in Hs. inversion Hs as [[Hc Hr Hcl]].
  unfold average_logits_towards_edges.
  rewrite weight_matrices_ok by assumption. rewrite bind_Ok. cbv zeta.
  rewrite Ht, accumulate_odd_rows_raise by (assumption || reflexivity).
  reflexivity.
Qed.

(** *** Further properties of the blend *)









(** X3. A present top-left neighbour cannot be blended into a tile with an
    odd number of rows or of columns: the mirrored quarter of the
    neighbour and the quarter it is added to differ in shape, and the
    blend raises [ValueError]. *)
Theorem blend_needs_even_shape (logits t : ndarray3) (adj : adjacent) :
  2 ≤ rows logits → 2 ≤ cols logits →
  Z.odd (rows logits) = true ∨ Z.odd (cols logits) = true →
  adj_tl adj = Some t → shape3 t = shape3 logits →
  average_logits_towards_edges logits adj = Raise ValueError.
Proof.
  intros Hh Hw Hodd Ht Hs.
  destruct (Z.odd (rows logits)) eqn:Er.
  - eapply average_logits_odd_rows_raise; eassumption.
  - destruct Hodd as [Ho|Ho]; [discriminate Ho|].
    eapply average_logits_odd_cols_raise; try eassumption.
    rewrite <- Z.negb_odd, Er. reflexivity.
Qed.

Lemma blend_needs_even_shape_witness :
  average_logits_towards_edges (ones 1 3 4) (all_neighbours (ones 1 3 4))
  = Raise ValueError.
Proof.
  apply (blend_needs_even_shape (ones 1 3 4) (ones 1 3 4)
           (all_neighbours (ones 1 3 4))).
  - simpl; lia.
  - simpl; lia.
  - left. reflexivity.
  - reflexivity.
  - reflexivity.
Defined.

(** *** The only exception of the blend *)






End Blend.


(** ** The edge-validity heuristic and the flooded test *)

Module EdgeHeuristic.

(** A floating-point pixel: not-a-number, an infinity, or a number. *)
Inductive pixel : Type :=
| NaN
| Inf (negative : bool)
| Num (q : Q).

(** An input array, flattened: only element counts matter here. *)
Definition tensor : Type := list pixel.

(** [np.isnan] *)
Definition isnan (p : pixel) : bool :=
  match p with NaN => true | _ => false end.

(** [p < c]; every comparison with NaN is false. *)
Definition pixel_ltb (c : Q) (p : pixel) : bool :=
  match p with
  | NaN => false
  | Inf negative => negative
  | Num q => Qltb q c
  end.

(** [(cond).sum()] *)
Definition count (cond : pixel → bool) (t : tensor) : Z :=
  Z.of_nat (length (List.filter cond t)).

(** [t.size] *)
Definition size (t : tensor) : Z := Z.of_nat (length t).

(** The constant [1e-5]. *)
Definition near_zero_bound : Q := 1 # 100000.

(** [True] when the inputs are not at the edge of the image. *)
Definition s1_preprocess_edge_heuristic (tensors : list tensor) (threshold : Q)
  : bool :=
  let no_nan := forallb (λ t, count isnan t =? 0) tensors in
  let not_too_many_zeros :=
    forallb (λ t, Qltb (inject_Z (count (pixel_ltb near_zero_bound) t))
                       (inject_Z (size t) * threshold)) tensors in
  no_nan && not_too_many_zeros.

(** The default [threshold=0.05] of both functions. *)
Definition default_threshold : Q := 1 # 20.

(** [tile_flooded(stats, threshold)]: the share of flood pixels exceeds
    the threshold. The division is the one of Python integers. *)
Definition tile_flooded (stats : Z * Z * Z) (threshold : Q) : result bool :=
  let '(n_bg, n_pw, n_fl) := stats in
  let total := n_bg + n_pw + n_fl in
  if total =? 0 then Raise ZeroDivisionError
  else Ok (Qltb threshold (inject_Z n_fl / inject_Z total)).

Definition has_nan (t : tensor) : Prop := In NaN t.

Lemma count_isnan_zero (t : tensor) : count isnan t = 0 ↔ ¬ has_nan t.
Proof.
  unfold count, has_nan. split.
  - intros H Hin.
    assert (Hf : In NaN (List.filter isnan t)) by (apply filter_In; auto).
    destruct (List.filter isnan t); [destruct Hf | simpl in H; lia].
  - intros H. destruct (List.filter isnan t) as [|p l] eqn:E; [reflexivity|].
    exfalso. apply H.
    assert (Hp : In p (List.filter isnan t)) by (rewrite E; now left).
    apply filter_In in Hp. destruct Hp as [Hp Hn]. destruct p; try discriminate.
    exact Hp.
Qed.

Lemma count_isnan_pos (t : tensor) : count isnan t ≠ 0 → has_nan t.
Proof.
  unfold count, has_nan. intros H.
  destruct (List.filter isnan t) as [|p l] eqn:E; [contradiction|].
  assert (Hp : In p (List.filter isnan t)) by (rewrite E; now left).
  apply filter_In in Hp. destruct Hp as [Hp Hn]. destruct p; try discriminate.
  exact Hp.
Qed.

(** A 20-pixel input with exactly one zero: exactly 5% of it is near zero. *)
Definition one_zero_in_twenty : tensor :=
  Num 0 :: repeat (Num 1) 19.

(** C9 as stated fails: an input with exactly the configured share of
    near-zero pixels (one in twenty, no NaN) is rejected, although it has
    no NaN and not strictly more than 5% of near-zero pixels. *)
Lemma exact_share_is_rejected :
  s1_preprocess_edge_heuristic [one_zero_in_twenty] default_threshold = false
  ∧ ¬ ((∃ t, In t [one_zero_in_twenty] ∧ has_nan t)
       ∨ (∃ t, In t [one_zero_in_twenty]
               ∧ (inject_Z (size t) * default_threshold
                  < inject_Z (count (pixel_ltb near_zero_bound) t))%Q)).
Proof.
  split; [reflexivity|].
  intros [(t & [<-|[]] & Hn) | (t & [<-|[]] & Hlt)].
  - apply count_isnan_zero in Hn; [exact Hn | reflexivity].
  - vm_compute in Hlt. discriminate Hlt.
Qed.

Lemma forallb_false_ex {A} (f : A → bool) (l : list A) :
  forallb f l = false ↔ ∃ x, In x l ∧ f x = false.
Proof.
  induction l as [|a l IH]; simpl.
  - split; [discriminate | intros (x & [] & _)].
  - rewrite andb_false_iff, IH. split.
    + intros [H|(x & Hin & Hx)]; eauto.
    + intros (x & [<-|Hin] & Hx); eauto.
Qed.

(** C9, amended. The inputs are rejected exactly when some input holds a
    NaN pixel, or some input has at least the configured share of its
    pixels below [1e-5] (the count is not strictly below size times
    threshold). *)
Theorem edge_heuristic_rejects_iff (tensors : list tensor) (threshold : Q) :
  s1_preprocess_edge_heuristic tensors threshold = false ↔
  (∃ t, In t tensors ∧ has_nan t)
  ∨ (∃ t, In t tensors
          ∧ (inject_Z (size t) * threshold
             <= inject_Z (count (pixel_ltb near_zero_bound) t))%Q).
Proof.
  unfold s1_preprocess_edge_heuristic.
  rewrite andb_false_iff, !forallb_false_ex.
  split.
  - intros [(t & Hin & Hc)|(t & Hin & Hc)].
    + left. exists t. split; [exact Hin|].
      apply Z.eqb_neq in Hc. now apply count_isnan_pos.
    + right. exists t. split; [exact Hin|]. now apply Qltb_ge.
  - intros [(t & Hin & Hn)|(t & Hin & Hle)].
    + left. exists t. split; [exact Hin|]. apply Z.eqb_neq.
      intros H. now apply count_isnan_zero in H.
    + right. exists t. split; [exact Hin|]. now apply Qltb_ge.
Qed.

(** *** Further properties of the heuristic and of the flooded test *)

Lemma heuristic_cons (t : tensor) (tensors : list tensor) (threshold : Q) :
  s1_preprocess_edge_heuristic (t :: tensors) threshold
  = s1_preprocess_edge_heuristic [t] threshold
    && s1_preprocess_edge_heuristic tensors threshold.
Proof.
  unfold s1_preprocess_edge_heuristic. simpl.
  destruct (count isnan t =? 0); destruct (Qltb _ _);
    destruct (forallb _ tensors); destruct (forallb _ tensors); reflexivity.
Qed.

(** The inputs are accepted exactly when every input array is accepted
    on its own; in particular no inputs at all are accepted, and the
    verdict does not depend on the order of the arrays. *)
Lemma heuristic_checks_each_array (tensors : list tensor) (threshold : Q) :
  s1_preprocess_edge_heuristic tensors threshold = true ↔
  ∀ t, In t tensors → s1_preprocess_edge_heuristic [t] threshold = true.
Proof.
  induction tensors as [|a l IH].
  - split; [intros _ t []|reflexivity].
  - rewrite heuristic_cons, andb_true_iff, IH. split.
    + intros [Ha Hl] t [<-|Hin]; auto.
    + intros H. split; [apply H; now left|]. intros t Hin. apply H. now right.
Qed.

Lemma count_all (cond : pixel → bool) (t : tensor) :
  (∀ p, In p t → cond p = true) → count cond t = size t.
Proof.
  intros H. unfold count, size. f_equal.
  induction t as [|p t IH]; [reflexivity|]. simpl.
  rewrite (H p) by now left. simpl. f_equal. apply IH.
  intros q Hq. apply H. now right.
Qed.

(** X4. An input array none of whose pixels reaches [1e-5] is rejected for
    every threshold up to 1: this holds for an array of zeros, for an
    array that holds only negative values, and for an empty array. *)
Theorem array_below_bound_is_rejected
        (tensors : list tensor) (t : tensor) (threshold : Q) :
  (threshold <= 1)%Q →
  In t tensors →
  (∀ p, In p t → pixel_ltb near_zero_bound p = true) →
  s1_preprocess_edge_heuristic tensors threshold = false.
Proof.
  intros Hthr Hin Hall. unfold s1_preprocess_edge_heuristic.
  apply andb_false_iff. right. apply forallb_false_ex.
  exists t. split; [exact Hin|]. apply Qltb_ge. rewrite (count_all _ t Hall).
  assert (H0 : (0 <= inject_Z (size t))%Q).
  { unfold size. rewrite <- (Zle_Qle 0). lia. }
  nra.
Qed.

Lemma array_below_bound_is_rejected_witness :
  s1_preprocess_edge_heuristic [[Num 1]; [Num (-3); Num (-7 # 2)]] default_threshold
  = false.
Proof.
  apply (array_below_bound_is_rejected
           [[Num 1]; [Num (-3); Num (-7 # 2)]] [Num (-3); Num (-7 # 2)]
           default_threshold).
  - vm_compute. discriminate.
  - right. left. reflexivity.
  - intros p [<-|[<-|[]]]; reflexivity.
Defined.

Lemma Qlt_div_iff (a b c : Q) : (0 < c → (a < b / c ↔ a * c < b))%Q.
Proof.
  intros Hc. split.
  - intros H. apply (Qmult_lt_compat_r _ _ c Hc) in H.
    assert (E : (b / c * c == b)%Q) by (field; intros E; rewrite E in Hc; inversion Hc).
    now rewrite E in H.
  - intros H. now apply Qlt_shift_div_l.
Qed.

(** X5. With the default threshold a tile with at least one counted pixel
    is flooded exactly when more than one pixel in twenty is in the flood
    class: the test does not raise, and it answers [True] if and only if
    [20 * n_fl > n_bg + n_pw + n_fl]. *)
Theorem tile_flooded_default (n_bg n_pw n_fl : Z) :
  0 < n_bg + n_pw + n_fl →
  ∃ b, tile_flooded (n_bg, n_pw, n_fl) default_threshold = Ok b
       ∧ (b = true ↔ n_bg + n_pw + n_fl < 20 * n_fl).
Proof.
  intros Hpos. unfold tile_flooded.
  destruct (Z.eqb_spec (n_bg + n_pw + n_fl) 0) as [E|_]; [lia|].
  eexists. split; [reflexivity|].
  rewrite Qltb_lt. set (total := n_bg + n_pw + n_fl) in *.
  assert (Ht : (0 < inject_Z total)%Q) by (rewrite <- (Zlt_Qlt 0); exact Hpos).
  rewrite (Qlt_div_iff _ _ _ Ht).
  unfold default_threshold, Qlt, Qmult, inject_Z; simpl. lia.
Qed.

Lemma tile_flooded_default_witness :
  ∃ b, tile_flooded (90, 4, 6) default_threshold = Ok b
       ∧ (b = true ↔ 90 + 4 + 6 < 20 * 6).
Proof.
  apply (tile_flooded_default 90 4 6). lia.
Defined.

End EdgeHeuristic.

(** ** Windows of tile coordinates *)

Module Window.

(** [range(lo, hi)] *)
Definition range (lo hi : Z) : list Z := seqZ lo (hi - lo).

Definition sel_new_tiles_big_window (tile_x tile_y xsize ysize add : Z)
  : list (Z * Z) :=
  let xlo := Z.max 0 (tile_x - add) in
  let xhi := Z.min xsize (tile_x + add) in
  let ylo := Z.max 0 (tile_y - add) in
  let yhi := Z.min ysize (tile_y + add) in
  list_prod (range xlo xhi) (range ylo yhi).

(** [if tile not in tiles: tiles.append(tile)] *)
Definition append_if_new (tiles : list (Z * Z)) (tile : Z * Z) : list (Z * Z) :=
  if bool_decide (tile ∈ tiles) then tiles else tiles ++ [tile].

Lemma elem_of_range (lo hi i : Z) : i ∈ range lo hi ↔ lo ≤ i < hi.
Proof. unfold range. rewrite elem_of_seqZ. lia. Qed.

Lemma NoDup_range (lo hi : Z) : NoDup (range lo hi).
Proof. apply NoDup_seqZ. Qed.

Lemma elem_of_list_prod {A B} (l : list A) (k : list B) (x : A) (y : B) :
  (x, y) ∈ list_prod l k ↔ x ∈ l ∧ y ∈ k.
Proof. rewrite !list_elem_of_In. apply in_prod_iff. Qed.

Lemma NoDup_list_prod {A B} (l : list A) (k : list B) :
  NoDup l → NoDup k → NoDup (list_prod l k).
Proof.
  intros Hl Hk. induction Hl as [|a l Ha Hl IH]; simpl; [constructor|].
  apply NoDup_app. split; [|split; [|exact IH]].
  - apply (NoDup_fmap_2 (pair a)). exact Hk.
  - intros [x y] Hin Hin'. apply list_elem_of_fmap in Hin.
    destruct Hin as (b & E & _). inversion E; subst.
    apply elem_of_list_prod in Hin'. tauto.
Qed.

Lemma elem_of_sel_new_tiles (tile_x tile_y xsize ysize add x y : Z) :
  (x, y) ∈ sel_new_tiles_big_window tile_x tile_y xsize ysize add ↔
  (Z.max 0 (tile_x - add) ≤ x < Z.min xsize (tile_x + add))
  ∧ (Z.max 0 (tile_y - add) ≤ y < Z.min ysize (tile_y + add)).
Proof.
  unfold sel_new_tiles_big_window.
  now rewrite elem_of_list_prod, !elem_of_range.
Qed.

Lemma NoDup_sel_new_tiles (tile_x tile_y xsize ysize add : Z) :
  NoDup (sel_new_tiles_big_window tile_x tile_y xsize ysize add).
Proof. apply NoDup_list_prod; apply NoDup_range. Qed.

(** The window never leaves the lattice. *)
Lemma sel_new_tiles_in_bounds (tile_x tile_y xsize ysize add : Z) (t : Z * Z) :
  t ∈ sel_new_tiles_big_window tile_x tile_y xsize ysize add →
  0 ≤ t.1 < xsize ∧ 0 ≤ t.2 < ysize.
Proof.
  destruct t as [x y]. rewrite elem_of_sel_new_tiles. simpl. lia.
Qed.

Lemma elem_of_append_if_new (tiles : list (Z * Z)) (tile t : Z * Z) :
  t ∈ append_if_new tiles tile ↔ t ∈ tiles ∨ t = tile.
Proof.
  unfold append_if_new. case_bool_decide as H.
  - split; [auto|]. intros [?| ->]; assumption.
  - rewrite elem_of_app, list_elem_of_singleton. reflexivity.
Qed.

Lemma NoDup_append_if_new (tiles : list (Z * Z)) (tile : Z * Z) :
  NoDup tiles → NoDup (append_if_new tiles tile).
Proof.
  intros H. unfold append_if_new. case_bool_decide as Hin; [exact H|].
  apply NoDup_app. split; [exact H|]. split.
  - intros x Hx Hx'. apply list_elem_of_singleton in Hx'. now subst.
  - apply NoDup_singleton.
Qed.

Lemma elem_of_fold_append (new tiles : list (Z * Z)) (t : Z * Z) :
  t ∈ fold_left append_if_new new tiles ↔ t ∈ tiles ∨ t ∈ new.
Proof.
  revert tiles. induction new as [|n new IH]; intros tiles; simpl.
  - rewrite elem_of_nil. tauto.
  - rewrite IH, elem_of_append_if_new, elem_of_cons. tauto.
Qed.

Lemma NoDup_fold_append (new tiles : list (Z * Z)) :
  NoDup tiles → NoDup (fold_left append_if_new new tiles).
Proof.
  revert tiles. induction new as [|n new IH]; intros tiles H; simpl; [exact H|].
  apply IH, NoDup_append_if_new, H.
Qed.

(** The frontier only grows at its end. *)
Lemma fold_append_prefix (new tiles : list (Z * Z)) :
  ∃ added, fold_left append_if_new new tiles = tiles ++ added.
Proof.
  revert tiles. induction new as [|n new IH]; intros tiles; simpl.
  - exists []. now rewrite app_nil_r.
  - destruct (IH (append_if_new tiles n)) as (added & ->).
    unfold append_if_new. case_bool_decide.
    + now exists added.
    + exists ([n] ++ added). now rewrite app_assoc.
Qed.

(** X6. The window is the block of tiles from [add] below the centre up
    to, but not including, [add] above it on each axis, cut to the
    lattice: it lists exactly those coordinates, each once, never one
    outside the lattice, and it holds the centre tile whenever that tile is
    in the lattice and [add] is at least 1. *)
Theorem window_is_clipped_block (tile_x tile_y xsize ysize add : Z) :
  let window := sel_new_tiles_big_window tile_x tile_y xsize ysize add in
  NoDup window
  ∧ (∀ x y, (x, y) ∈ window ↔
            (tile_x - add ≤ x < tile_x + add ∧ 0 ≤ x < xsize)
            ∧ (tile_y - add ≤ y < tile_y + add ∧ 0 ≤ y < ysize))
  ∧ (1 ≤ add → 0 ≤ tile_x < xsize → 0 ≤ tile_y < ysize →
     (tile_x, tile_y) ∈ window)
  ∧ (0 ≤ add → Z.of_nat (length window) ≤ (2 * add) * (2 * add)).
Proof.
  cbv zeta. split; [apply NoDup_sel_new_tiles|].
  split; [intros x y; rewrite elem_of_sel_new_tiles; lia|].
  split; [intros Ha Hx Hy; rewrite elem_of_sel_new_tiles; lia|].
  intros Ha. unfold sel_new_tiles_big_window, range.
  rewrite length_prod, !length_seqZ, Nat2Z.inj_mul.
  apply Z.mul_le_mono_nonneg; lia.
Qed.

End Window.

(** ** The frontier seeder *)

Module Seeder.
Import Window.

(** One row of [rivers_df]: its flow accumulation, whether its line meets
    the validity polygon, and which tiles of the lattice it meets. *)
Record river : Type := River {
  riv_tc_usu : Z;
  intersects_geom : bool;
  intersects_tile : Z → Z → bool
}.

(** [l[:stop]] *)
Definition py_take {A} (stop : option Z) (l : list A) : list A :=
  match stop with
  | None => l
  | Some n =>
      if n <? 0 then take (length l - Z.to_nat (- n)) l else take (Z.to_nat n) l
  end.

(** The lattice has shape [(gw, gh)]; [nonzero] lists the coordinates of
    the tiles met by the union of the rivers with the first index
    outermost. *)
Definition tiles_along_river_within_geom (rivers_df : list river) (gw gh : Z)
           (min_river_size max_tiles : option Z) : list (Z * Z) :=
  let river := List.filter intersects_geom rivers_df in
  if (length river =? 0)%nat then []
  else
    let river :=
      match min_river_size with
      | Some m => List.filter (λ r, m <? riv_tc_usu r) river
      | None => river
      end in
    let intersects := λ t : Z * Z, existsb (λ r, intersects_tile r t.1 t.2) river in
    py_take max_tiles (List.filter intersects (list_prod (range 0 gw) (range 0 gh))).

(** The tiles selected before the expansion. *)
Definition select_seed_tiles (rivers_df : list river) (gw gh : Z)
           (min_river_size max_tiles : Z) : list (Z * Z) :=
  let tiles :=
    tiles_along_river_within_geom rivers_df gw gh
      (Some min_river_size) (Some max_tiles) in
  let tiles :=
    if (length tiles =? 0)%nat
    then tiles_along_river_within_geom rivers_df gw gh
           (Some 0) (Some min_river_size)
    else tiles in
  if (length tiles =? 0)%nat
  then sel_new_tiles_big_window (gw / 2) (gh / 2) gw gh 3
  else tiles.

(** The loop over [tiles.copy()] that appends to [tiles]. *)
Definition expand_seed_tiles (gw gh : Z) (tiles : list (Z * Z)) : list (Z * Z) :=
  fold_left
    (λ acc t, fold_left append_if_new
                (sel_new_tiles_big_window t.1 t.2 gw gh 2) acc)
    tiles tiles.

Definition create_initial_tiles (rivers_df : list river) (gw gh : Z)
           (min_river_size max_tiles : Z) : list (Z * Z) :=
  expand_seed_tiles gw gh
    (select_seed_tiles rivers_df gw gh min_river_size max_tiles).

(** [get_grid_idx] for prescribed tiles: [overlap x y] is the area the
    prescribed footprints share with the tile at [(x, y)] and [tile_area]
    the area of a tile. *)
Definition get_grid_idx (gw gh : Z) (overlap : Z → Z → Q) (tile_area : Q)
  : result (list (Z * Z)) :=
  if (0 <? gw) && (0 <? gh)
  then Ok (List.filter (λ t : Z * Z, Qltb ((1 # 100) * tile_area) (overlap t.1 t.2))
                       (list_prod (range 0 gw) (range 0 gh)))
  else Raise IndexError.

(** Is [t] within [r] tiles of [c] on both axes? *)
Definition within (r : Z) (c t : Z * Z) : Prop :=
  Z.abs (t.1 - c.1) ≤ r ∧ Z.abs (t.2 - c.2) ≤ r.

Lemma py_take_sublist {A} (stop : option Z) (l : list A) :
  sublist (py_take stop l) l.
Proof.
  unfold py_take. destruct stop as [n|]; [|reflexivity].
  destruct (n <? 0); apply sublist_take.
Qed.

Lemma filter_sublist {A} (f : A → bool) (l : list A) :
  sublist (List.filter f l) l.
Proof.
  induction l as [|a l IH]; simpl; [constructor|].
  destruct (f a); now constructor.
Qed.

Lemma tiles_along_river_NoDup rivers_df gw gh min_river_size max_tiles :
  NoDup (tiles_along_river_within_geom rivers_df gw gh min_river_size max_tiles).
Proof.
  unfold tiles_along_river_within_geom.
  destruct (_ =? _)%nat; [constructor|].
  eapply sublist_NoDup; [|apply py_take_sublist].
  eapply sublist_NoDup; [|apply filter_sublist].
  apply NoDup_list_prod; apply NoDup_range.
Qed.

Lemma tiles_along_river_in_bounds rivers_df gw gh min_river_size max_tiles t :
  t ∈ tiles_along_river_within_geom rivers_df gw gh min_river_size max_tiles →
  0 ≤ t.1 < gw ∧ 0 ≤ t.2 < gh.
Proof.
  unfold tiles_along_river_within_geom.
  destruct (_ =? _)%nat; [intros H; inversion H|].
  intros H.
  eapply elem_of_sublist in H; [|apply py_take_sublist].
  eapply elem_of_sublist in H; [|apply filter_sublist].
  destruct t as [x y]. apply elem_of_list_prod in H.
  rewrite !elem_of_range in H. simpl. lia.
Qed.

Lemma get_grid_idx_NoDup gw gh overlap tile_area tiles :
  get_grid_idx gw gh overlap tile_area = Ok tiles → NoDup tiles.
Proof.
  unfold get_grid_idx. destruct (_ && _); [|discriminate].
  intros E. inversion E; subst.
  eapply sublist_NoDup; [|apply filter_sublist].
  apply NoDup_list_prod; apply NoDup_range.
Qed.

Lemma select_seed_tiles_NoDup rivers_df gw gh min_river_size max_tiles :
  NoDup (select_seed_tiles rivers_df gw gh min_river_size max_tiles).
Proof.
  unfold select_seed_tiles.
  repeat (destruct (_ =? _)%nat);
    auto using tiles_along_river_NoDup, NoDup_sel_new_tiles.
Qed.

Lemma select_seed_tiles_in_bounds rivers_df gw gh min_river_size max_tiles t :
  t ∈ select_seed_tiles rivers_df gw gh min_river_size max_tiles →
  0 ≤ t.1 < gw ∧ 0 ≤ t.2 < gh.
Proof.
  unfold select_seed_tiles.
  repeat (destruct (_ =? _)%nat);
    eauto using tiles_along_river_in_bounds, sel_new_tiles_in_bounds.
Qed.

(** Without a river that meets the polygon both river rules yield nothing
    and the centre window is used. *)
Lemma no_river_fallback rivers_df gw gh min_river_size max_tiles :
  (∀ r, In r rivers_df → intersects_geom r = false) →
  select_seed_tiles rivers_df gw gh min_river_size max_tiles
  = sel_new_tiles_big_window (gw / 2) (gh / 2) gw gh 3.
Proof.
  intros H. unfold select_seed_tiles, tiles_along_river_within_geom.
  assert (E : List.filter intersects_geom rivers_df = []).
  { induction rivers_df as [|r l IH]; [reflexivity|]. simpl.
    rewrite (H r) by now left. apply IH. intros r' Hr'. apply H. now right. }
  rewrite E. reflexivity.
Qed.

Lemma elem_of_expand_from (gw gh : Z) (l acc : list (Z * Z)) (t : Z * Z) :
  t ∈ fold_left
        (λ acc t, fold_left append_if_new
                    (sel_new_tiles_big_window t.1 t.2 gw gh 2) acc) l acc
  ↔ t ∈ acc ∨ ∃ s, s ∈ l ∧ t ∈ sel_new_tiles_big_window s.1 s.2 gw gh 2.
Proof.
  revert acc. induction l as [|a l IH]; intros acc; simpl.
  - split; [auto|]. intros [?|(s & Hs & _)]; [assumption|inversion Hs].
  - rewrite IH, elem_of_fold_append. split.
    + intros [[?|?]|(s & Hs & Ht)]; [auto| |].
      * right. exists a. split; [left|assumption].
      * right. exists s. split; [now right|assumption].
    + intros [?|(s & Hs & Ht)]; [auto|].
      apply elem_of_cons in Hs. destruct Hs as [->|Hs]; [auto|].
      right. exists s. auto.
Qed.

Lemma elem_of_expand_seed_tiles (gw gh : Z) (tiles : list (Z * Z)) (t : Z * Z) :
  t ∈ expand_seed_tiles gw gh tiles
  ↔ t ∈ tiles ∨ ∃ s, s ∈ tiles ∧ t ∈ sel_new_tiles_big_window s.1 s.2 gw gh 2.
Proof. apply elem_of_expand_from. Qed.

Lemma NoDup_expand_from (gw gh : Z) (l acc : list (Z * Z)) :
  NoDup acc →
  NoDup (fold_left
           (λ acc t, fold_left append_if_new
                       (sel_new_tiles_big_window t.1 t.2 gw gh 2) acc) l acc).
Proof.
  revert acc. induction l as [|a l IH]; intros acc H; simpl; [exact H|].
  apply IH, NoDup_fold_append, H.
Qed.

Lemma NoDup_expand_seed_tiles (gw gh : Z) (tiles : list (Z * Z)) :
  NoDup tiles → NoDup (expand_seed_tiles gw gh tiles).
Proof. apply NoDup_expand_from. Qed.

Lemma create_initial_tiles_NoDup rivers_df gw gh min_river_size max_tiles :
  NoDup (create_initial_tiles rivers_df gw gh min_river_size max_tiles).
Proof. apply NoDup_expand_seed_tiles, select_seed_tiles_NoDup. Qed.

Lemma create_initial_tiles_in_bounds rivers_df gw gh min_river_size max_tiles t :
  t ∈ create_initial_tiles rivers_df gw gh min_river_size max_tiles →
  0 ≤ t.1 < gw ∧ 0 ≤ t.2 < gh.
Proof.
  unfold create_initial_tiles. rewrite elem_of_expand_seed_tiles.
  intros [H|(s & _ & H)].
  - eapply select_seed_tiles_in_bounds, H.
  - eapply sel_new_tiles_in_bounds, H.
Qed.

(** C8 as stated fails: on a 10x10 lattice without rivers the tile (2, 2)
    is among the fallback seeds, and it is three tiles away from the
    lattice centre (5, 5); the seeds are not the block within 2 tiles of
    the centre. *)
Lemma fallback_is_not_centre_block :
  ¬ (∀ t, t ∈ select_seed_tiles [] 10 10 500 200 ↔ within 2 (5, 5) t).
Proof.
  intros H. assert (Hin : (2, 2) ∈ select_seed_tiles [] 10 10 500 200).
  { apply list_elem_of_In. vm_compute. tauto. }
  apply H in Hin. unfold within in Hin. simpl in Hin. lia.
Qed.

(** C8, amended. On a 10x10 lattice with no river meeting the validity
    polygon, the seeds are the window that [sel_new_tiles_big_window]
    selects around the lattice centre (5, 5) with [add=3]; the tiles
    returned have no duplicates, lie in the lattice, and are exactly the
    seeds together with the tiles of every seed's [add=2] window. *)
Theorem no_river_seeding (rivers_df : list river) (min_river_size max_tiles : Z) :
  (∀ r, In r rivers_df → intersects_geom r = false) →
  let seeds := sel_new_tiles_big_window 5 5 10 10 3 in
  let tiles := create_initial_tiles rivers_df 10 10 min_river_size max_tiles in
  select_seed_tiles rivers_df 10 10 min_river_size max_tiles = seeds
  ∧ NoDup tiles
  ∧ (∀ t, t ∈ tiles → 0 ≤ t.1 < 10 ∧ 0 ≤ t.2 < 10)
  ∧ (∀ t, t ∈ tiles ↔
          t ∈ seeds ∨ ∃ s, s ∈ seeds ∧ t ∈ sel_new_tiles_big_window s.1 s.2 10 10 2).
Proof.
  intros H seeds tiles.
  assert (E : select_seed_tiles rivers_df 10 10 min_river_size max_tiles = seeds)
    by now apply no_river_fallback.
  split; [exact E|]. split; [apply create_initial_tiles_NoDup|].
  split; [intros t; apply create_initial_tiles_in_bounds|].
  intros t. unfold tiles, create_initial_tiles.
  now rewrite elem_of_expand_seed_tiles, E.
Qed.

(** A river that stays outside the validity polygon. *)
Definition far_river : river :=
  {| riv_tc_usu := 900; intersects_geom := false;
     intersects_tile := λ x y, (x =? 1) && (y =? 1) |}.

Lemma no_river_seeding_witness :
  select_seed_tiles [far_river] 10 10 500 200 = sel_new_tiles_big_window 5 5 10 10 3
  ∧ NoDup (create_initial_tiles [far_river] 10 10 500 200)
  ∧ (∀ t, t ∈ create_initial_tiles [far_river] 10 10 500 200 →
          0 ≤ t.1 < 10 ∧ 0 ≤ t.2 < 10)
  ∧ (∀ t, t ∈ create_initial_tiles [far_river] 10 10 500 200 ↔
          t ∈ sel_new_tiles_big_window 5 5 10 10 3
          ∨ ∃ s, s ∈ sel_new_tiles_big_window 5 5 10 10 3
                 ∧ t ∈ sel_new_tiles_big_window s.1 s.2 10 10 2).
Proof.
  apply (no_river_seeding [far_river] 500 200).
  intros r [<-|[]]. reflexivity.
Defined.

(** *** Further properties of the seeder *)

Lemma py_take_length {A} (n : Z) (l : list A) :
  0 ≤ n → Z.of_nat (length (py_take (Some n) l)) ≤ n.
Proof.
  intros Hn. unfold py_take.
  destruct (Z.ltb_spec n 0) as [?|_]; [lia|].
  rewrite length_take. lia.
Qed.

(** X7. Every tile selected along the rivers lies in the lattice and is
    met by a river that meets the validity polygon and whose size exceeds
    the minimum (when one is given); no tile is listed twice; with a cap
    [max_tiles >= 0] at most that many tiles are returned, and without a
    cap every such tile of the lattice is returned. *)
Theorem river_tiles_are_sound (rivers_df : list river) (gw gh : Z)
        (min_river_size max_tiles : option Z) :
  let tiles :=
    tiles_along_river_within_geom rivers_df gw gh min_river_size max_tiles in
  let feeds (t : Z * Z) :=
    ∃ r, In r rivers_df ∧ intersects_geom r = true
         ∧ (∀ m, min_river_size = Some m → m < riv_tc_usu r)
         ∧ intersects_tile r t.1 t.2 = true in
  NoDup tiles
  ∧ (∀ t, t ∈ tiles → (0 ≤ t.1 < gw ∧ 0 ≤ t.2 < gh) ∧ feeds t)
  ∧ (∀ n, max_tiles = Some n → 0 ≤ n → Z.of_nat (length tiles) ≤ n)
  ∧ (max_tiles = None →
     ∀ t, 0 ≤ t.1 < gw → 0 ≤ t.2 < gh → feeds t → t ∈ tiles).
Proof.
  cbv zeta. split; [apply tiles_along_river_NoDup|].
  unfold tiles_along_river_within_geom.
  set (sel := List.filter intersects_geom rivers_df).
  set (big := match min_river_size with
              | Some m => List.filter (λ r, m <? riv_tc_usu r) sel
              | None => sel
              end).
  assert (Hbig : ∀ r, In r big ↔
                      In r rivers_df ∧ intersects_geom r = true
                      ∧ (∀ m, min_river_size = Some m → m < riv_tc_usu r)).
  { intros r. unfold big, sel. destruct min_river_size as [m|].
    - rewrite !filter_In, Z.ltb_lt. split.
      + intros [[H1 H2] H3]. repeat split; try assumption.
        intros m' E. inversion E; subst. exact H3.
      + intros (H1 & H2 & H3). auto.
    - rewrite filter_In. split.
      + intros [H1 H2]. repeat split; try assumption. intros m E. discriminate E.
      + intros (H1 & H2 & _). auto. }
  assert (Hcand : ∀ t : Z * Z,
             In t (List.filter (λ t : Z * Z, existsb (λ r, intersects_tile r t.1 t.2) big)
                     (list_prod (range 0 gw) (range 0 gh)))
             ↔ (0 ≤ t.1 < gw ∧ 0 ≤ t.2 < gh)
               ∧ ∃ r, In r rivers_df ∧ intersects_geom r = true
                      ∧ (∀ m, min_river_size = Some m → m < riv_tc_usu r)
                      ∧ intersects_tile r t.1 t.2 = true).
  { intros [x y]. rewrite filter_In, existsb_exists, <- list_elem_of_In.
    rewrite elem_of_list_prod, !elem_of_range. simpl. split.
    - intros [Hb (r & Hr & Hi)]. split; [lia|]. apply Hbig in Hr.
      exists r. tauto.
    - intros [Hb (r & H1 & H2 & H3 & H4)]. split; [lia|].
      exists r. split; [apply Hbig; auto|exact H4]. }
  destruct (length sel =? 0)%nat eqn:El.
  - split; [intros t Ht; inversion Ht|].
    split; [intros n _ Hn; simpl; lia|].
    intros _ t _ _ (r & H1 & H2 & _). exfalso.
    assert (Hin : In r sel) by (apply filter_In; auto).
    apply Nat.eqb_eq in El. destruct sel; [exact Hin|discriminate El].
  - split; [|split].
    + intros t Ht. eapply elem_of_sublist in Ht; [|apply py_take_sublist].
      apply list_elem_of_In, Hcand in Ht. exact Ht.
    + intros n -> Hn. now apply py_take_length.
    + intros -> t Hx Hy Hf. simpl. apply list_elem_of_In, Hcand. auto.
Qed.

Lemma expand_from_prefix (gw gh : Z) (l acc : list (Z * Z)) :
  ∃ added,
    fold_left (λ acc t, fold_left append_if_new
                          (sel_new_tiles_big_window t.1 t.2 gw gh 2) acc) l acc
    = acc ++ added.
Proof.
  revert acc. induction l as [|a l IH]; intros acc; simpl.
  - exists []. now rewrite app_nil_r.
  - destruct (fold_append_prefix (sel_new_tiles_big_window a.1 a.2 gw gh 2) acc)
      as (add1 & ->).
    destruct (IH (acc ++ add1)) as (add2 & ->).
    exists (add1 ++ add2). now rewrite app_assoc.
Qed.

Lemma select_seed_tiles_nonempty rivers_df gw gh min_river_size max_tiles :
  0 < gw → 0 < gh →
  select_seed_tiles rivers_df gw gh min_river_size max_tiles ≠ [].
Proof.
  intros Hw Hh. unfold select_seed_tiles.
  set (t1 := tiles_along_river_within_geom _ _ _ (Some min_river_size) _).
  set (t2 := tiles_along_river_within_geom _ _ _ (Some 0) _).
  assert (Hfall : sel_new_tiles_big_window (gw / 2) (gh / 2) gw gh 3 ≠ []).
  { intros E.
    assert (Hin : (gw / 2, gh / 2) ∈ sel_new_tiles_big_window (gw / 2) (gh / 2) gw gh 3).
    { apply elem_of_sel_new_tiles.
      assert (0 ≤ gw / 2 < gw) by (split; [apply Z.div_pos|apply Z.div_lt_upper_bound]; lia).
      assert (0 ≤ gh / 2 < gh) by (split; [apply Z.div_pos|apply Z.div_lt_upper_bound]; lia).
      lia. }
    rewrite E in Hin. inversion Hin. }
  destruct (length t1 =? 0)%nat eqn:E1.
  - destruct (length t2 =? 0)%nat eqn:E2; [exact Hfall|].
    intros E. rewrite E in E2. discriminate E2.
  - rewrite E1. intros E. rewrite E in E1. discriminate E1.
Qed.

(** X8. Whatever the rivers, the initial frontier starts with the seed
    tiles in their order and goes on with the tiles added around them; it
    has no duplicates, holds only tiles of the lattice, and is not empty
    when the lattice has a tile. *)
Theorem initial_tiles_keep_seeds (rivers_df : list river) (gw gh : Z)
        (min_river_size max_tiles : Z) :
  let seeds := select_seed_tiles rivers_df gw gh min_river_size max_tiles in
  let tiles := create_initial_tiles rivers_df gw gh min_river_size max_tiles in
  (∃ added, tiles = seeds ++ added)
  ∧ NoDup tiles
  ∧ (∀ t, t ∈ tiles → 0 ≤ t.1 < gw ∧ 0 ≤ t.2 < gh)
  ∧ (0 < gw → 0 < gh → tiles ≠ []).
Proof.
  cbv zeta. split; [apply expand_from_prefix|].
  split; [apply create_initial_tiles_NoDup|].
  split; [intros t; apply create_initial_tiles_in_bounds|].
  intros Hw Hh E.
  destruct (expand_from_prefix gw gh
              (select_seed_tiles rivers_df gw gh min_river_size max_tiles)
              (select_seed_tiles rivers_df gw gh min_river_size max_tiles))
    as (added & Ea).
  unfold create_initial_tiles, expand_seed_tiles in E. rewrite Ea in E.
  apply app_eq_nil in E. destruct E as [E _].
  now apply (select_seed_tiles_nonempty rivers_df gw gh min_river_size max_tiles).
Qed.

(** X9. For prescribed tiles, [get_grid_idx] fails with [IndexError] on a
    lattice without a tile; otherwise it lists, each once, exactly the
    tiles of the lattice whose overlap with the prescribed footprints
    exceeds one hundredth of a tile's area. *)
Theorem prescribed_tiles_are_the_overlapping_ones
        (gw gh : Z) (overlap : Z → Z → Q) (tile_area : Q) :
  match get_grid_idx gw gh overlap tile_area with
  | Ok tiles =>
      0 < gw ∧ 0 < gh ∧ NoDup tiles
      ∧ ∀ x y, (x, y) ∈ tiles ↔
               0 ≤ x < gw ∧ 0 ≤ y < gh ∧ ((1 # 100) * tile_area < overlap x y)%Q
  | Raise e => e = IndexError ∧ (gw ≤ 0 ∨ gh ≤ 0)
  end.
Proof.
  destruct (get_grid_idx gw gh overlap tile_area) as [tiles|e] eqn:E.
  - pose proof (get_grid_idx_NoDup _ _ _ _ _ E) as Hnd.
    unfold get_grid_idx in E.
    destruct (Z.ltb_spec 0 gw) as [Hw|Hw]; destruct (Z.ltb_spec 0 gh) as [Hh|Hh];
      try discriminate E.
    simpl in E. inversion E; subst tiles.
    split; [exact Hw|]. split; [exact Hh|]. split; [exact Hnd|].
    intros x y.
    rewrite list_elem_of_In, filter_In, <- list_elem_of_In, elem_of_list_prod,
      !elem_of_range, Qltb_lt.
    simpl. split.
    + intros [[? ?] ?]. repeat split; (lia || assumption).
    + intros (? & ? & ?). repeat split; (lia || assumption).
  - unfold get_grid_idx in E.
    destruct (Z.ltb_spec 0 gw) as [Hw|Hw]; destruct (Z.ltb_spec 0 gh) as [Hh|Hh];
      simpl in E; try discriminate E; inversion E; split; try reflexivity; lia.
Qed.

End Seeder.

(** ** The grid builder *)

Module Grid.

(** An affine transform: [x' = a x + b y + c], [y' = d x + e y + f]. *)
Record affine : Type := Affine {
  ta : Q; tb : Q; tc : Q;
  td : Q; te : Q; tf : Q
}.

(** [transform * (x, y)] *)
Definition apply (t : affine) (p : Q * Q) : Q * Q :=
  (ta t * p.1 + tb t * p.2 + tc t, td t * p.1 + te t * p.2 + tf t)%Q.

Definition determinant (t : affine) : Q := (ta t * te t - tb t * td t)%Q.

(** [~transform] *)
Definition invert (t : affine) : result affine :=
  if Qeq_bool (determinant t) 0 then Raise TransformNotInvertibleError
  else
    let idet := (1 / determinant t)%Q in
    let ra := (te t * idet)%Q in
    let rb := (- tb t * idet)%Q in
    let rd := (- td t * idet)%Q in
    let re := (ta t * idet)%Q in
    Ok {| ta := ra; tb := rb; tc := (- tc t * ra - tf t * rb)%Q;
          td := rd; te := re; tf := (- tc t * rd - tf t * re)%Q |}.

(** A geometry, as the coordinates of its vertices. *)
Definition polygon : Type := list (Q * Q).

(** [shapely.ops.transform] with an affine map. *)
Definition transform_polygon (t : affine) (g : polygon) : polygon :=
  map (apply t) g.

(** [geom.bounds] of a geometry with at least one vertex:
    [(minx, miny, maxx, maxy)]. *)
Definition bounds (g : polygon) : Q * Q * Q * Q :=
  match g with
  | [] => (0, 0, 0, 0)%Q
  | p :: g' =>
      fold_left
        (λ '(xlo, ylo, xhi, yhi) q,
           (Qmin xlo q.1, Qmin ylo q.2, Qmax xhi q.1, Qmax yhi q.2))
        g' (p.1, p.2, p.1, p.2)
  end.

(** [shapely.box(minx, miny, maxx, maxy)] *)
Definition box (minx miny maxx maxy : Z) : polygon :=
  [ (inject_Z maxx, inject_Z miny); (inject_Z maxx, inject_Z maxy);
    (inject_Z minx, inject_Z maxy); (inject_Z minx, inject_Z miny) ].

(** The bounding box in pixel space pulled in by one pixel on each side. *)
Definition shrunk_bounds (geom_in_px : polygon) : Z * Z * Z * Z :=
  let '(xlo, ylo, xhi, yhi) := bounds geom_in_px in
  (Qceiling xlo + 1, Qceiling ylo + 1, Qfloor xhi - 1, Qfloor yhi - 1).

(** A lattice: a two-dimensional array of geometries, indexed [x, y]. *)
Record tile_grid (G : Type) : Type := TileGrid {
  gshape : Z * Z;
  gcell : Z → Z → G
}.

Arguments TileGrid {G} gshape gcell.
Arguments gshape {G} t.
Arguments gcell {G} t x y.

(** The four lattices, under the keys (0, 0), (1, 0), (0, 1) and (1, 1). *)
Record grids (L : Type) : Type := Grids {
  grid00 : L;
  grid10 : L;
  grid01 : L;
  grid11 : L
}.

Arguments Grids {L} grid00 grid10 grid01 grid11.
Arguments grid00 {L} g.
Arguments grid10 {L} g.
Arguments grid01 {L} g.
Arguments grid11 {L} g.

(** X10. The shrunk box has integer sides that lie at least one pixel and
    less than two pixels inside the bounding box of the geometry, on each
    of the four sides. *)
Theorem shrunk_bounds_margin (geom_in_px : polygon) :
  let '(xlo, ylo, xhi, yhi) := bounds geom_in_px in
  let '(a, b, c, d) := shrunk_bounds geom_in_px in
  (xlo + 1 <= inject_Z a < xlo + 2)%Q
  ∧ (ylo + 1 <= inject_Z b < ylo + 2)%Q
  ∧ (xhi - 2 < inject_Z c <= xhi - 1)%Q
  ∧ (yhi - 2 < inject_Z d <= yhi - 1)%Q.
Proof.
  unfold shrunk_bounds.
  destruct (bounds geom_in_px) as [[[xlo ylo] xhi] yhi].
  assert (Hm : ∀ z : Z, (inject_Z (z - 1) == inject_Z z - 1)%Q).
  { intros z. unfold Z.sub. rewrite inject_Z_plus. reflexivity. }
  assert (Hp : ∀ z : Z, (inject_Z (z + 1) == inject_Z z + 1)%Q).
  { intros z. rewrite inject_Z_plus. reflexivity. }
  assert (Hc : ∀ q : Q, (q + 1 <= inject_Z (Qceiling q + 1) < q + 2)%Q).
  { intros q. rewrite Hp.
    pose proof (Qle_ceiling q). pose proof (Qceiling_lt q) as Hlt.
    rewrite Hm in Hlt. lra. }
  assert (Hf : ∀ q : Q, (q - 2 < inject_Z (Qfloor q - 1) <= q - 1)%Q).
  { intros q. rewrite Hm.
    pose proof (Qfloor_le q). pose proof (Qlt_floor q) as Hlt.
    rewrite Hp in Hlt. lra. }
  repeat split; try apply Hc; try apply Hf.
Qed.


Section MkGrid.

(** The lattice type and the two helpers of [gff.util] that build one:
    [mk_box_grid(width, height, x_offset, y_offset, box_width, box_height)]
    and [convert_affine(grid, transform)]. *)
Context {L : Type}.
Variable mk_box_grid : Z → Z → Z → Z → Z → Z → result L.
Variable convert_affine : L → affine → result L.

Definition mk_grid (geom : polygon) (transform : affine) (gridsize : Z)
  : result (grids L * polygon) :=
  match geom with
  | [] => Raise ValueError
  | _ =>
      inv ← invert transform;
      let geom_in_px := transform_polygon inv geom in
      let '(xlo, ylo, xhi, yhi) := shrunk_bounds geom_in_px in
      let w_px := xhi - xlo in
      let h_px := yhi - ylo in
      let s := gridsize in
      a ← mk_box_grid w_px h_px xlo ylo s s;
      b ← mk_box_grid (w_px - s) h_px (xlo + s / 2) ylo s s;
      c ← mk_box_grid w_px (h_px - s) xlo (ylo + s / 2) s s;
      d ← mk_box_grid (w_px - s) (h_px - s) (xlo + s / 2) (ylo + s / 2) s s;
      a ← convert_affine a transform;
      b ← convert_affine b transform;
      c ← convert_affine c transform;
      d ← convert_affine d transform;
      let new_geom := box xlo ylo xhi yhi in
      let pixel_aligned_geom := transform_polygon transform new_geom in
      Ok (Grids a b c d, pixel_aligned_geom)
  end.





(** X12. [mk_grid] fails before any lattice is built on a geometry without
    a vertex ([ValueError]) and, for a geometry with a vertex, on a
    transform that cannot be inverted; when it returns, the geometry has a
    vertex and the transform is invertible. *)
Theorem mk_grid_setup_errors (geom : polygon) (transform : affine) (gridsize : Z) :
  (geom = [] → mk_grid geom transform gridsize = Raise ValueError)
  ∧ (geom ≠ [] → (determinant transform == 0)%Q →
     mk_grid geom transform gridsize = Raise TransformNotInvertibleError)
  ∧ (∀ r, mk_grid geom transform gridsize = Ok r →
          geom ≠ [] ∧ ¬ (determinant transform == 0)%Q).
Proof.
  unfold mk_grid. split; [intros ->; reflexivity|]. split.
  - intros Hne Hd. destruct geom as [|p geom]; [contradiction|].
    unfold invert. apply Qeq_bool_iff in Hd. rewrite Hd. reflexivity.
  - intros r. destruct geom as [|p geom]; [discriminate|].
    unfold invert. destruct (Qeq_bool (determinant transform) 0) eqn:E;
      [discriminate|].
    intros _. split; [discriminate|]. now apply Qeq_bool_neq.
Qed.

End MkGrid.

(** *** A lattice of boxes

    [gff.util] belongs to another module of the package and [mk_grid] is
    parametric in its two helpers. The instance below lays the boxes out
    as [np.arange(0, width, box_width)] would and serves to run [mk_grid]
    and the search on concrete inputs. *)

(** [len(np.arange(0, stop, step))] for a positive step. *)
Definition arange_len (stop step : Z) : Z :=
  if 0 <? step then Z.max 0 ((stop + step - 1) / step) else 0.

Definition arange_box_grid (width height x_offset y_offset bw bh : Z)
  : result (tile_grid polygon) :=
  Ok {| gshape := (arange_len width bw, arange_len height bh);
        gcell := λ i j, box (x_offset + i * bw) (y_offset + j * bh)
                            (x_offset + i * bw + bw) (y_offset + j * bh + bh) |}.

Definition affine_on_grid (g : tile_grid polygon) (t : affine)
  : result (tile_grid polygon) :=
  Ok {| gshape := gshape g; gcell := λ i j, transform_polygon t (gcell g i j) |}.

Definition identity : affine :=
  {| ta := 1; tb := 0; tc := 0; td := 0; te := 1; tf := 0 |}.





End Grid.

(** ** The search loop *)

Module Search.
Import Numpy Blend EdgeHeuristic Window Grid.

(** A tile coordinate [(x, y)]. *)
Definition coord : Type := Z * Z.

(** numpy resolves an index of an axis of length [n]: negative indices
    count from the end, anything else out of range raises. *)
Definition norm_index (n i : Z) : result Z :=
  if (0 <=? i) && (i <? n) then Ok i
  else if (- n <=? i) && (i <? 0) then Ok (i + n)
  else Raise IndexError.

(** A class raster of one tile: [flood_cls]. *)
Record class_map : Type := ClassMap {
  cm_rows : Z;
  cm_cols : Z;
  cls_at : Z → Z → Z
}.

(** The first index among [k, k + 1, ...] ([fuel] of them) and [best]
    whose value is largest. *)
Fixpoint argmax_from (v : Z → Q) (best k : Z) (fuel : nat) : Z :=
  match fuel with
  | O => best
  | S fuel' => argmax_from v (if Qltb (v best) (v k) then k else best) (k + 1) fuel'
  end.

(** [logits.argmax(axis=0)[None].astype(np.uint8)] *)
Definition argmax_classes (logits : ndarray3) : result class_map :=
  if chans logits <=? 0 then Raise ValueError
  else Ok {| cm_rows := rows logits; cm_cols := cols logits;
             cls_at := λ y x,
               argmax_from (λ k, at3 logits k y x) 0 1
                           (Z.to_nat (chans logits - 1)) mod 256 |}.

(** [(flood_cls == c).mean()]; [None] is the NaN of an empty raster. *)
Definition class_mean (m : class_map) (c : Z) : option Q :=
  let pixels := list_prod (range 0 (cm_rows m)) (range 0 (cm_cols m)) in
  if (length pixels =? 0)%nat then None
  else
    Some (inject_Z (Z.of_nat (length (List.filter (λ p, cls_at m p.1 p.2 =? c) pixels)))
          / inject_Z (Z.of_nat (length pixels)))%Q.

(** Comparisons with the mean; they are false for NaN. *)
Definition mean_gt (m : option Q) (c : Q) : bool :=
  match m with Some q => Qltb c q | None => false end.

Definition mean_lt (m : option Q) (c : Q) : bool :=
  match m with Some q => Qltb q c | None => false end.

(** One of the dictionaries of [offset_cache]. *)
Abbreviation cache := (gmap coord (option ndarray3)).

(** [offset_cache], under the keys (0, 1), (1, 0) and (1, 1). *)
Record offset_caches : Type := OffsetCaches {
  cache01 : cache;
  cache10 : cache;
  cache11 : cache
}.

(** [if not visited[tile] and (tile not in tiles): tiles.append(tile)] for a
    tile inside the lattice. *)
Definition enqueue (visited : gset coord) (tiles : list coord) (tile : coord)
  : list coord :=
  if negb (bool_decide (tile ∈ visited)) && negb (bool_decide (tile ∈ tiles))
  then tiles ++ [tile]
  else tiles.

(** The expansion around a flooded tile. *)
Definition expand_frontier (visited : gset coord) (tiles : list coord)
           (tile_x tile_y gw gh : Z) : list coord :=
  fold_left (enqueue visited)
            (sel_new_tiles_big_window tile_x tile_y gw gh 3) tiles.

Lemma elem_of_enqueue (visited : gset coord) (tiles : list coord) (tile t : coord) :
  t ∈ enqueue visited tiles tile ↔
  t ∈ tiles ∨ (t = tile ∧ (tile ∉ visited) ∧ (tile ∉ tiles)).
Proof.
  unfold enqueue. repeat case_bool_decide; simpl.
  - tauto.
  - tauto.
  - tauto.
  - rewrite elem_of_app, list_elem_of_singleton. tauto.
Qed.

Lemma elem_of_fold_enqueue (visited : gset coord) (new tiles : list coord) (t : coord) :
  t ∈ fold_left (enqueue visited) new tiles ↔
  t ∈ tiles ∨ ((t ∉ visited) ∧ t ∈ new).
Proof.
  revert tiles. induction new as [|n new IH]; intros tiles; simpl.
  - rewrite elem_of_nil. tauto.
  - rewrite IH, elem_of_enqueue, elem_of_cons. split.
    + intros [[?|(-> & ? & ?)]|[? ?]]; auto.
    + intros [?|[Hv [->|?]]]; auto.
      destruct (decide (n ∈ tiles)); auto.
Qed.

(** The tiles in the frontier after an expansion: those that were queued
    and the tiles of the window that were neither visited nor queued. *)
Lemma elem_of_expand_frontier (visited : gset coord) (tiles : list coord)
      (tile_x tile_y gw gh : Z) (t : coord) :
  t ∈ expand_frontier visited tiles tile_x tile_y gw gh ↔
  t ∈ tiles
  ∨ ((t ∉ visited)
     ∧ Z.max 0 (tile_x - 3) ≤ t.1 < Z.min gw (tile_x + 3)
     ∧ Z.max 0 (tile_y - 3) ≤ t.2 < Z.min gh (tile_y + 3)).
Proof.
  unfold expand_frontier. rewrite elem_of_fold_enqueue.
  destruct t as [x y]. rewrite elem_of_sel_new_tiles. simpl. tauto.
Qed.

(** No enqueued tile lies outside the lattice. *)
Lemma expand_frontier_in_bounds (visited : gset coord) (tiles : list coord)
      (tile_x tile_y gw gh : Z) (t : coord) :
  t ∈ expand_frontier visited tiles tile_x tile_y gw gh →
  t ∈ tiles ∨ (0 ≤ t.1 < gw ∧ 0 ≤ t.2 < gh).
Proof. rewrite elem_of_expand_frontier. intros [?|?]; [auto|right; lia]. Qed.

Lemma NoDup_fold_enqueue (visited : gset coord) (new done tiles : list coord) :
  NoDup (done ++ tiles) →
  (∀ t, t ∈ new → t ∉ visited → t ∉ done) →
  NoDup (done ++ fold_left (enqueue visited) new tiles).
Proof.
  revert tiles. induction new as [|n new IH]; intros tiles Hnd Hnew; simpl.
  - exact Hnd.
  - apply IH; [|intros t Ht; apply Hnew; now right].
    unfold enqueue. repeat case_bool_decide; simpl; try exact Hnd.
    rewrite app_assoc. apply NoDup_app. split; [exact Hnd|]. split.
    + intros x Hx Hx'. apply list_elem_of_singleton in Hx'. subst x.
      apply elem_of_app in Hx. destruct Hx as [Hx|Hx]; [|contradiction].
      eapply Hnew; [left| |exact Hx]. assumption.
    + apply NoDup_singleton.
Qed.

(** C5, evaluated where the code departs from it. A flooded tile (5, 5) of
    a 10x10 lattice, nothing else visited, nothing queued: the tiles
    (8, 5), (5, 8) and (8, 8) lie within 3 tiles of it and inside the
    lattice, yet the expansion does not enqueue them; it enqueues the 35
    other tiles of the window from 2 to 7 on each axis. *)
Theorem expansion_misses_plus_three :
  let new := expand_frontier {[ (5, 5) ]} [] 5 5 10 10 in
  ((8, 5) ∉ new) ∧ ((5, 8) ∉ new) ∧ ((8, 8) ∉ new)
  ∧ (2, 2) ∈ new ∧ (7, 7) ∈ new
  ∧ length new = 35%nat.
Proof.
  cbv zeta. rewrite !elem_of_expand_frontier, !elem_of_nil. simpl.
  split; [intros [[]|?]; lia|]. split; [intros [[]|?]; lia|].
  split; [intros [[]|?]; lia|].
  split; [right; split; [set_solver|lia]|].
  split; [right; split; [set_solver|lia]|].
  vm_compute. reflexivity.
Qed.

(** *** The class written for a pixel *)

Lemma argmax_from_spec (v : Z → Q) (fuel : nat) (best k : Z) :
  0 ≤ best < k →
  (∀ j, 0 ≤ j < k → (v j <= v best)%Q) →
  (∀ j, 0 ≤ j < best → (v j < v best)%Q) →
  0 ≤ argmax_from v best k fuel < k + Z.of_nat fuel
  ∧ (∀ j, 0 ≤ j < k + Z.of_nat fuel →
          (v j <= v (argmax_from v best k fuel))%Q)
  ∧ (∀ j, 0 ≤ j < argmax_from v best k fuel →
          (v j < v (argmax_from v best k fuel))%Q).
Proof.
  revert best k. induction fuel as [|fuel IH]; intros best k Hb Hle Hlt.
  - simpl. rewrite Z.add_0_r. auto.
  - cbn [argmax_from]. destruct (Qltb (v best) (v k)) eqn:E.
    + apply Qltb_lt in E.
      destruct (IH k (k + 1)) as (R1 & R2 & R3); [lia| | |].
      * intros j Hj. destruct (decide (j = k)) as [->|Hne]; [apply Qle_refl|].
        apply Qlt_le_weak. eapply Qle_lt_trans; [apply Hle; lia|exact E].
      * intros j Hj. eapply Qle_lt_trans; [apply Hle; lia|exact E].
      * split; [lia|]. split; [|exact R3].
        intros j Hj. apply R2. lia.
    + apply Qltb_ge in E.
      destruct (IH best (k + 1)) as (R1 & R2 & R3); [lia| |exact Hlt|].
      * intros j Hj. destruct (decide (j = k)) as [->|Hne]; [exact E|].
        apply Hle. lia.
      * split; [lia|]. split; [|exact R3].
        intros j Hj. apply R2. lia.
Qed.

(** X13. For logits with between 1 and 256 channels,
    [logits.argmax(axis=0)[None].astype(np.uint8)] keeps the shape of the
    tile and gives every pixel the first channel whose logit is largest:
    a class below the number of channels, so the conversion to 8 bits
    changes nothing and, with the three classes of the model, no pixel
    written is the nodata value 255. *)
Theorem argmax_classes_first_maximum (logits : ndarray3) :
  0 < chans logits ≤ 256 →
  ∃ m, argmax_classes logits = Ok m
    ∧ cm_rows m = rows logits ∧ cm_cols m = cols logits
    ∧ ∀ y x,
        0 ≤ cls_at m y x < chans logits
        ∧ (∀ k, 0 ≤ k < chans logits →
                (at3 logits k y x <= at3 logits (cls_at m y x) y x)%Q)
        ∧ (∀ k, 0 ≤ k < cls_at m y x →
                (at3 logits k y x < at3 logits (cls_at m y x) y x)%Q).
Proof.
  intros Hc. unfold argmax_classes.
  replace (chans logits <=? 0) with false by (symmetry; apply Z.leb_gt; lia).
  eexists. split; [reflexivity|]. cbn [cm_rows cm_cols cls_at].
  split; [reflexivity|]. split; [reflexivity|]. intros y x.
  destruct (argmax_from_spec (λ k, at3 logits k y x)
              (Z.to_nat (chans logits - 1)) 0 1) as (R1 & R2 & R3).
  - lia.
  - intros j Hj. replace j with 0 by lia. apply Qle_refl.
  - intros j Hj. lia.
  - rewrite Z.mod_small by lia. split; [lia|]. split; [|exact R3].
    intros k Hk. apply (R2 k). lia.
Qed.

Lemma argmax_classes_first_maximum_witness :
  ∃ m, argmax_classes (ones 3 2 2) = Ok m
    ∧ cm_rows m = 2 ∧ cm_cols m = 2
    ∧ ∀ y x,
        0 ≤ cls_at m y x < 3
        ∧ (∀ k, 0 ≤ k < 3 →
                (at3 (ones 3 2 2) k y x <= at3 (ones 3 2 2) (cls_at m y x) y x)%Q)
        ∧ (∀ k, 0 ≤ k < cls_at m y x →
                (at3 (ones 3 2 2) k y x < at3 (ones 3 2 2) (cls_at m y x) y x)%Q).
Proof.
  apply (argmax_classes_first_maximum (ones 3 2 2)). simpl. lia.
Defined.

Section Loop.

(** Geometries and [shapely.contains]. *)
Variable Geom : Type.
Variable shapely_contains : Geom → Geom → bool.

(** The oracle [flood_model(inp_tifs, geom)] on the opened input rasters:
    the input patches, the elevation patch and the logits, the last two
    possibly [None]. *)
Variable Dem : Type.
Variable flood_model : Geom → list tensor * option Dem * option ndarray3.

(** [util.shapely_bounds_to_rasterio_window(geom.bounds, out_tif.transform)] *)
Variable RasterWindow : Type.
Variable window_of : Geom → RasterWindow.

(** [data_sources.ks_water_stats] and the class constants. *)
Variable ks_water_stats : class_map → Z * Z * Z.
Variable KUROSIWO_PW_CLASS : Z.
Variable KUROSIWO_BG_CLASS : Z.

(** What [mk_grid] returned and the arguments of the search. *)
Variable tile_grids : grids (tile_grid Geom).
Variable viable_footprint : Geom.
Variable export_s1 : bool.
Variable max_tiles : Z.

(** The variables of the loop. [out_tif] and [s1_tifs] list the windows
    written, oldest first. [oracle_calls] and [popped] are history
    variables: the geometries [flood_model] was called with and the
    coordinates popped from [tiles]. *)
Record state : Type := State {
  tiles : list coord;
  visited : gset coord;
  offset_cache : offset_caches;
  visit_tiles : list Geom;
  fill_tiles : list Geom;
  geom_stats : list (Z * Z * Z);
  out_tif : list (RasterWindow * class_map);
  s1_tifs : list (RasterWindow * list tensor);
  n_visited : Z;
  n_flooded : Z;
  n_permanent : Z;
  n_outside : Z;
  oracle_calls : list Geom;
  popped : list coord
}.

(** The state on entry to the loop, for the initial [tiles]. *)
Definition init_state (tiles0 : list coord) : state :=
  {| tiles := tiles0; visited := ∅;
     offset_cache := OffsetCaches ∅ ∅ ∅;
     visit_tiles := []; fill_tiles := []; geom_stats := [];
     out_tif := []; s1_tifs := [];
     n_visited := 0; n_flooded := 0; n_permanent := 0; n_outside := 0;
     oracle_calls := []; popped := [] |}.

(** [_ensure_logits], threading the cache and the oracle calls. *)
Definition _ensure_logits (offset_tile_grid : tile_grid Geom) (x y : Z)
           (st : cache * list Geom) : cache * list Geom :=
  let '(offset_cache, calls) := st in
  match offset_cache !! (x, y) with
  | Some _ => st
  | None =>
      let '(w, h) := gshape offset_tile_grid in
      if (0 <=? x) && (0 <=? y) && (x <? w) && (y <? h)
      then
        let offset_tile_geom := gcell offset_tile_grid x y in
        let '(_, _, offset_logits) := flood_model offset_tile_geom in
        (<[(x, y) := offset_logits]> offset_cache, calls ++ [offset_tile_geom])
      else (<[(x, y) := None]> offset_cache, calls)
  end.

(** [cache[key]] for a key that [_ensure_logits] has filled in. *)
Definition cache_get (c : cache) (key : coord) : option ndarray3 :=
  default None (c !! key).

Definition get_adjacent_logits (tile_x tile_y : Z) (oc : offset_caches)
           (calls : list Geom) : adjacent * offset_caches * list Geom :=
  let lr_grid := grid10 tile_grids in
  let st := (cache10 oc, calls) in
  let st := _ensure_logits lr_grid (tile_x - 1) (tile_y + 0) st in
  let '(lr_cache, calls) := _ensure_logits lr_grid (tile_x + 0) (tile_y + 0) st in
  let ud_grid := grid01 tile_grids in
  let st := (cache01 oc, calls) in
  let st := _ensure_logits ud_grid (tile_x + 0) (tile_y - 1) st in
  let '(ud_cache, calls) := _ensure_logits ud_grid (tile_x + 0) (tile_y + 0) st in
  let di_grid := grid11 tile_grids in
  let st := (cache11 oc, calls) in
  let st := _ensure_logits di_grid (tile_x - 1) (tile_y - 1) st in
  let st := _ensure_logits di_grid (tile_x + 0) (tile_y - 1) st in
  let st := _ensure_logits di_grid (tile_x - 1) (tile_y + 0) st in
  let '(di_cache, calls) := _ensure_logits di_grid (tile_x + 0) (tile_y + 0) st in
  ({| adj_le := cache_get lr_cache (tile_x - 1, tile_y + 0);
      adj_ri := cache_get lr_cache (tile_x + 0, tile_y + 0);
      adj_up := cache_get ud_cache (tile_x + 0, tile_y - 1);
      adj_do := cache_get ud_cache (tile_x + 0, tile_y + 0);
      adj_tl := cache_get di_cache (tile_x - 1, tile_y - 1);
      adj_tr := cache_get di_cache (tile_x + 0, tile_y - 1);
      adj_bl := cache_get di_cache (tile_x - 1, tile_y + 0);
      adj_br := cache_get di_cache (tile_x + 0, tile_y + 0) |},
   {| cache01 := ud_cache; cache10 := lr_cache; cache11 := di_cache |},
   calls).

(** What is decided for a tile once its classes are written. *)
Inductive disposition : Set := LargeWater | Flooded | Quiet.

Definition dispose (flood_cls : class_map) (stats : Z * Z * Z) : result disposition :=
  if mean_gt (class_mean flood_cls KUROSIWO_PW_CLASS) (1 # 2)
     || mean_lt (class_mean flood_cls KUROSIWO_BG_CLASS) (1 # 10)
  then Ok LargeWater
  else
    flooded ← tile_flooded stats default_threshold;
    Ok (if flooded : bool then Flooded else Quiet).

(** One iteration of the [while] loop. *)
Definition visit (s : state) : result state :=
  match tiles s with
  | [] => Raise IndexError
  | (tile_x, tile_y) :: tiles1 =>
      let grid := grid00 tile_grids in
      ix ← norm_index (gshape grid).1 tile_x;
      iy ← norm_index (gshape grid).2 tile_y;
      let visited1 := {[ (ix, iy) ]} ∪ visited s in
      let n_visited1 := n_visited s + 1 in
      let tile_geom := gcell grid ix iy in
      let visit_tiles1 := visit_tiles s ++ [tile_geom] in
      let popped1 := popped s ++ [(tile_x, tile_y)] in
      if negb (shapely_contains viable_footprint tile_geom)
      then
        Ok {| tiles := tiles1; visited := visited1;
              offset_cache := offset_cache s;
              visit_tiles := visit_tiles1; fill_tiles := fill_tiles s;
              geom_stats := geom_stats s;
              out_tif := out_tif s; s1_tifs := s1_tifs s;
              n_visited := n_visited1; n_flooded := n_flooded s;
              n_permanent := n_permanent s; n_outside := n_outside s + 1;
              oracle_calls := oracle_calls s; popped := popped1 |}
      else
        let '(s1_inps, _, flood_logits) := flood_model tile_geom in
        let calls1 := oracle_calls s ++ [tile_geom] in
        match (if s1_preprocess_edge_heuristic s1_inps default_threshold
               then flood_logits else None) with
        | None =>
            Ok {| tiles := tiles1; visited := visited1;
                  offset_cache := offset_cache s;
                  visit_tiles := visit_tiles1; fill_tiles := fill_tiles s;
                  geom_stats := geom_stats s;
                  out_tif := out_tif s; s1_tifs := s1_tifs s;
                  n_visited := n_visited1; n_flooded := n_flooded s;
                  n_permanent := n_permanent s; n_outside := n_outside s + 1;
                  oracle_calls := calls1; popped := popped1 |}
        | Some flood_logits =>
            let '(adjacent_logits, cache1, calls2) :=
              get_adjacent_logits tile_x tile_y (offset_cache s) calls1 in
            flood_logits ← average_logits_towards_edges flood_logits adjacent_logits;
            flood_cls ← argmax_classes flood_logits;
            let window := window_of tile_geom in
            let s1_tifs1 :=
              if export_s1 then s1_tifs s ++ [(window, s1_inps)] else s1_tifs s in
            let out_tif1 := out_tif s ++ [(window, flood_cls)] in
            let fill_tiles1 := fill_tiles s ++ [tile_geom] in
            let stats := ks_water_stats flood_cls in
            let geom_stats1 := geom_stats s ++ [stats] in
            d ← dispose flood_cls stats;
            Ok {| tiles :=
                    match d with
                    | Flooded =>
                        expand_frontier visited1 tiles1 tile_x tile_y
                          (gshape grid).1 (gshape grid).2
                    | _ => tiles1
                    end;
                  visited := visited1;
                  offset_cache := cache1;
                  visit_tiles := visit_tiles1; fill_tiles := fill_tiles1;
                  geom_stats := geom_stats1;
                  out_tif := out_tif1; s1_tifs := s1_tifs1;
                  n_visited := n_visited1;
                  n_flooded := match d with Flooded => n_flooded s + 1 | _ => n_flooded s end;
                  n_permanent := match d with LargeWater => n_permanent s + 1 | _ => n_permanent s end;
                  n_outside := n_outside s;
                  oracle_calls := calls2; popped := popped1 |}
        end
  end.

(** [len(tiles) > 0 and len(visit_tiles) < max_tiles] *)
Definition loop_cond (s : state) : bool :=
  (0 <? Z.of_nat (length (tiles s)))
  && (Z.of_nat (length (visit_tiles s)) <? max_tiles).

(** The [while] loop, run for at most [fuel] iterations: [None] when the
    fuel runs out before the loop stops, otherwise the state on exit or
    the exception that ended it. *)
Fixpoint search_loop (fuel : nat) (s : state) : option (result state) :=
  if loop_cond s
  then
    match fuel with
    | O => None
    | S fuel' =>
        match visit s with
        | Ok s' => search_loop fuel' s'
        | Raise e => Some (Raise e)
        end
    end
  else Some (Ok s).

(** One iteration the loop really takes. *)
Definition step (s s' : state) : Prop :=
  loop_cond s = true ∧ visit s = Ok s'.

(** *** Every iteration pops one tile *)

Lemma norm_index_in_bounds (n i : Z) : 0 ≤ i < n → norm_index n i = Ok i.
Proof.
  intros H. unfold norm_index.
  replace (0 <=? i) with true by (symmetry; apply Z.leb_le; lia).
  replace (i <? n) with true by (symmetry; apply Z.ltb_lt; lia).
  reflexivity.
Qed.

(** What an iteration that does not raise does to the frontier, the
    visited mask and the visit sequence. *)
Lemma visit_inversion (s s' : state) :
  visit s = Ok s' →
  ∃ tile_x tile_y tiles1 ix iy,
    tiles s = (tile_x, tile_y) :: tiles1
    ∧ norm_index (gshape (grid00 tile_grids)).1 tile_x = Ok ix
    ∧ norm_index (gshape (grid00 tile_grids)).2 tile_y = Ok iy
    ∧ visited s' = {[ (ix, iy) ]} ∪ visited s
    ∧ visit_tiles s' = visit_tiles s ++ [gcell (grid00 tile_grids) ix iy]
    ∧ popped s' = popped s ++ [(tile_x, tile_y)]
    ∧ n_visited s' = n_visited s + 1
    ∧ (tiles s' = tiles1
       ∨ tiles s' = expand_frontier (visited s') tiles1 tile_x tile_y
                      (gshape (grid00 tile_grids)).1 (gshape (grid00 tile_grids)).2).
Proof.
  unfold visit. destruct (tiles s) as [|[tile_x tile_y] tiles1]; [discriminate|].
  destruct (norm_index _ tile_x) as [ix|] eqn:Ex; [|discriminate].
  destruct (norm_index _ tile_y) as [iy|] eqn:Ey; [|discriminate].
  rewrite !bind_Ok.
  intros H. exists tile_x, tile_y, tiles1, ix, iy.
  split; [reflexivity|]. split; [exact Ex|]. split; [exact Ey|].
  destruct (shapely_contains _ _); cbn [negb] in H.
  - destruct (flood_model _) as [[s1_inps dem] flood_logits].
    destruct (if s1_preprocess_edge_heuristic _ _ then _ else _) as [logits|].
    + destruct (get_adjacent_logits _ _ _ _) as [[adj c1] calls].
      destruct (average_logits_towards_edges _ _) as [bl|]; [|discriminate].
      rewrite bind_Ok in H.
      destruct (argmax_classes _) as [cls|]; [|discriminate].
      rewrite bind_Ok in H.
      destruct (dispose _ _) as [d|]; [|discriminate].
      rewrite bind_Ok in H. inversion H; subst s'; cbn.
      destruct d; auto 10.
    + inversion H; subst s'; cbn. auto 10.
  - inversion H; subst s'; cbn. auto 10.
Qed.


Lemma step_counts (s s' : state) :
  step s s' →
  length (visit_tiles s') = S (length (visit_tiles s))
  ∧ n_visited s' = n_visited s + 1
  ∧ Z.of_nat (length (visit_tiles s')) ≤ max_tiles.
Proof.
  intros [Hc Hv]. apply visit_inversion in Hv.
  destruct Hv as (x & y & t1 & ix & iy & _ & _ & _ & _ & Hvt & _ & Hn & _).
  unfold loop_cond in Hc. apply andb_true_iff in Hc. destruct Hc as [_ Hc].
  apply Z.ltb_lt in Hc. rewrite Hvt, length_app. simpl.
  repeat split; [lia|exact Hn|lia].
Qed.


(** With fuel for the tiles still allowed the loop stops; when it stops
    without an exception its condition is false and every iteration before
    was taken with the condition true. *)
Lemma search_loop_enough_fuel (fuel : nat) (s : state) :
  max_tiles - Z.of_nat (length (visit_tiles s)) ≤ Z.of_nat fuel →
  ∃ r, search_loop fuel s = Some r
       ∧ ∀ s', r = Ok s' → loop_cond s' = false ∧ rtc step s s'.
Proof.
  revert s. induction fuel as [|fuel IH]; intros s Hf; simpl.
  - destruct (loop_cond s) eqn:Hc.
    + unfold loop_cond in Hc. apply andb_true_iff in Hc. destruct Hc as [_ Hc].
      apply Z.ltb_lt in Hc. lia.
    + eexists; split; [reflexivity|]. intros s' E. inversion E; subst.
      split; [exact Hc|apply rtc_refl].
  - destruct (loop_cond s) eqn:Hc.
    + destruct (visit s) as [s1|e] eqn:Hv.
      * assert (Hs : step s s1) by (split; assumption).
        destruct (step_counts s s1 Hs) as (Hl & _ & _).
        destruct (IH s1) as (r & Er & Hr); [rewrite Hl; lia|].
        exists r. split; [exact Er|]. intros s' E.
        destruct (Hr s' E) as [Hc' Hrtc]. split; [exact Hc'|].
        eapply rtc_l; eassumption.
      * eexists; split; [reflexivity|]. intros s' E. discriminate E.
    + eexists; split; [reflexivity|]. intros s' E. inversion E; subst.
      split; [exact Hc|apply rtc_refl].
Qed.

Lemma search_loop_reaches (fuel : nat) (s s' : state) :
  search_loop fuel s = Some (Ok s') → loop_cond s' = false ∧ rtc step s s'.
Proof.
  revert s. induction fuel as [|fuel IH]; intros s; simpl.
  - destruct (loop_cond s) eqn:Hc; [discriminate|].
    intros E. inversion E; subst. split; [exact Hc|apply rtc_refl].
  - destruct (loop_cond s) eqn:Hc.
    + destruct (visit s) as [s1|e] eqn:Hv; [|discriminate].
      intros E. destruct (IH s1 E) as [Hc' Hrtc]. split; [exact Hc'|].
      eapply rtc_l; [split; eassumption|exact Hrtc].
    + intros E. inversion E; subst. split; [exact Hc|apply rtc_refl].
Qed.


(** *** No tile is visited twice *)

(** The mask holds [True] at the place of coordinate [c]. *)
Definition marked (s : state) (c : coord) : Prop :=
  ∃ ix iy,
    norm_index (gshape (grid00 tile_grids)).1 c.1 = Ok ix
    ∧ norm_index (gshape (grid00 tile_grids)).2 c.2 = Ok iy
    ∧ (ix, iy) ∈ visited s.

(** Popped and queued coordinates are pairwise distinct, and every popped
    coordinate is marked. *)
Definition search_inv (s : state) : Prop :=
  NoDup (popped s ++ tiles s) ∧ ∀ c, c ∈ popped s → marked s c.

Lemma search_inv_init (tiles0 : list coord) :
  NoDup tiles0 → search_inv (init_state tiles0).
Proof.
  intros H. split; [exact H|]. intros c Hc. inversion Hc.
Qed.

Lemma search_inv_step (s s' : state) :
  search_inv s → visit s = Ok s' → search_inv s'.
Proof.
  intros [Hnd Hmk] Hv. apply visit_inversion in Hv.
  destruct Hv as (x & y & t1 & ix & iy & Ht & Hx & Hy & Hvis & _ & Hp & _ & Hts).
  rewrite Ht in Hnd.
  assert (Hmk' : ∀ c, c ∈ popped s' → marked s' c).
  { intros c Hc. rewrite Hp in Hc. apply elem_of_app in Hc.
    destruct Hc as [Hc|Hc].
    - destruct (Hmk c Hc) as (jx & jy & ? & ? & ?).
      exists jx, jy. rewrite Hvis. repeat split; try assumption.
      apply elem_of_union. now right.
    - apply list_elem_of_singleton in Hc. subst c.
      exists ix, iy. rewrite Hvis. repeat split; try assumption.
      apply elem_of_union. left. now apply elem_of_singleton. }
  assert (Hnd' : NoDup (popped s' ++ t1)).
  { rewrite Hp, <- app_assoc. exact Hnd. }
  split; [|exact Hmk'].
  destruct Hts as [->| ->]; [exact Hnd'|].
  apply NoDup_fold_enqueue; [exact Hnd'|].
  intros t Hin Hnv Hpop. apply Hnv.
  destruct (Hmk' t Hpop) as (jx & jy & Ejx & Ejy & Hj).
  apply sel_new_tiles_in_bounds in Hin. destruct Hin as [Hbx Hby].
  rewrite norm_index_in_bounds in Ejx, Ejy by assumption.
  inversion Ejx; inversion Ejy; subst jx jy. destruct t; exact Hj.
Qed.

(** C3. In every state the loop reaches from a duplicate-free initial
    frontier, the sequence of popped coordinates has no duplicate, every
    popped coordinate is marked visited, and no popped coordinate is in
    the frontier, which has no duplicate either. *)
Theorem no_tile_visited_twice (tiles0 : list coord) (s : state) :
  NoDup tiles0 →
  rtc step (init_state tiles0) s →
  NoDup (popped s)
  ∧ (∀ c, c ∈ popped s → marked s c)
  ∧ (∀ c, c ∈ popped s → c ∉ tiles s)
  ∧ NoDup (tiles s)
  ∧ length (visit_tiles s) = length (popped s).
Proof.
  intros H0 Hr.
  assert (Hinv : search_inv s ∧ length (visit_tiles s) = length (popped s)).
  { revert s Hr.
    apply (rtc_ind_r (λ s, search_inv s
                           ∧ length (visit_tiles s) = length (popped s))).
    - split; [now apply search_inv_init|reflexivity].
    - intros y z _ [_ Hv] [IH IHl]. split; [eapply search_inv_step; eassumption|].
      apply visit_inversion in Hv.
      destruct Hv as (? & ? & ? & ? & ? & _ & _ & _ & _ & -> & -> & _).
      rewrite !length_app, IHl. reflexivity. }
  destruct Hinv as [[Hnd Hmk] Hl]. apply NoDup_app in Hnd.
  destruct Hnd as (Hp & Hdis & Ht). auto.
Qed.

(** *** Tiles outside the validity footprint *)


(** *** What one iteration changes *)

(** An iteration that does not raise either skips the tile (outside the
    footprint, or turned down by the heuristic or the oracle) or writes
    it. *)
Lemma visit_cases (s s' : state) :
  visit s = Ok s' →
  ∃ tile_x tile_y tiles1 ix iy tile_geom,
    tiles s = (tile_x, tile_y) :: tiles1
    ∧ norm_index (gshape (grid00 tile_grids)).1 tile_x = Ok ix
    ∧ norm_index (gshape (grid00 tile_grids)).2 tile_y = Ok iy
    ∧ tile_geom = gcell (grid00 tile_grids) ix iy
    ∧ visited s' = {[ (ix, iy) ]} ∪ visited s
    ∧ visit_tiles s' = visit_tiles s ++ [tile_geom]
    ∧ popped s' = popped s ++ [(tile_x, tile_y)]
    ∧ n_visited s' = n_visited s + 1
    ∧ ((tiles s' = tiles1
        ∧ offset_cache s' = offset_cache s
        ∧ fill_tiles s' = fill_tiles s
        ∧ geom_stats s' = geom_stats s
        ∧ out_tif s' = out_tif s
        ∧ s1_tifs s' = s1_tifs s
        ∧ n_flooded s' = n_flooded s
        ∧ n_permanent s' = n_permanent s
        ∧ n_outside s' = n_outside s + 1
        ∧ ((shapely_contains viable_footprint tile_geom = false
            ∧ oracle_calls s' = oracle_calls s)
           ∨ (shapely_contains viable_footprint tile_geom = true
              ∧ oracle_calls s' = oracle_calls s ++ [tile_geom]
              ∧ (s1_preprocess_edge_heuristic (flood_model tile_geom).1.1
                                              default_threshold = false
                 ∨ (flood_model tile_geom).2 = None))))
       ∨ (∃ logits adj blended cls d,
            shapely_contains viable_footprint tile_geom = true
            ∧ s1_preprocess_edge_heuristic (flood_model tile_geom).1.1
                                           default_threshold = true
            ∧ (flood_model tile_geom).2 = Some logits
            ∧ get_adjacent_logits tile_x tile_y (offset_cache s)
                                  (oracle_calls s ++ [tile_geom])
              = (adj, offset_cache s', oracle_calls s')
            ∧ average_logits_towards_edges logits adj = Ok blended
            ∧ argmax_classes blended = Ok cls
            ∧ dispose cls (ks_water_stats cls) = Ok d
            ∧ fill_tiles s' = fill_tiles s ++ [tile_geom]
            ∧ geom_stats s' = geom_stats s ++ [ks_water_stats cls]
            ∧ out_tif s' = out_tif s ++ [(window_of tile_geom, cls)]
            ∧ s1_tifs s' =
              (if export_s1
               then s1_tifs s ++ [(window_of tile_geom, (flood_model tile_geom).1.1)]
               else s1_tifs s)
            ∧ n_outside s' = n_outside s
            ∧ n_flooded s' =
              match d with Flooded => n_flooded s + 1 | _ => n_flooded s end
            ∧ n_permanent s' =
              match d with LargeWater => n_permanent s + 1 | _ => n_permanent s end
            ∧ tiles s' =
              match d with
              | Flooded =>
                  expand_frontier (visited s') tiles1 tile_x tile_y
                    (gshape (grid00 tile_grids)).1 (gshape (grid00 tile_grids)).2
              | _ => tiles1
              end)).
Proof.
  unfold visit. destruct (tiles s) as [|[tile_x tile_y] tiles1]; [discriminate|].
  destruct (norm_index _ tile_x) as [ix|] eqn:Ex; [|discriminate].
  destruct (norm_index _ tile_y) as [iy|] eqn:Ey; [|discriminate].
  rewrite !bind_Ok. intros H.
  exists tile_x, tile_y, tiles1, ix, iy, (gcell (grid00 tile_grids) ix iy).
  split; [reflexivity|]. split; [exact Ex|]. split; [exact Ey|].
  split; [reflexivity|].
  destruct (shapely_contains _ _) eqn:Hc; cbn [negb] in H.
  - destruct (flood_model _) as [[s1_inps dem] flood_logits] eqn:Hm.
    cbn [fst snd].
    destruct (s1_preprocess_edge_heuristic _ _) eqn:Hh.
    + destruct flood_logits as [logits|].
      * destruct (get_adjacent_logits _ _ _ _) as [[adj c1] calls] eqn:Hadj.
        destruct (average_logits_towards_edges _ _) as [bl|] eqn:Hbl; [|discriminate].
        rewrite bind_Ok in H.
        destruct (argmax_classes _) as [cls|] eqn:Hcls; [|discriminate].
        rewrite bind_Ok in H.
        destruct (dispose _ _) as [d|] eqn:Hd; [|discriminate].
        rewrite bind_Ok in H. inversion H; subst s'; cbn.
        do 4 (split; [reflexivity|]). right.
        exists logits, adj, bl, cls, d. auto 20.
      * inversion H; subst s'; cbn. do 4 (split; [reflexivity|]). left. auto 20.
    + inversion H; subst s'; cbn. do 4 (split; [reflexivity|]). left. auto 20.
  - inversion H; subst s'; cbn. do 4 (split; [reflexivity|]). left. auto 20.
Qed.

(** *** The cache of offset logits *)

(** What [_ensure_logits] stores under a key: the logits of the oracle on
    that cell of the offset lattice, [None] for a key outside it. *)
Definition offset_logits (g : tile_grid Geom) (k : coord) : option ndarray3 :=
  let '(w, h) := gshape g in
  if (0 <=? k.1) && (0 <=? k.2) && (k.1 <? w) && (k.2 <? h)
  then (flood_model (gcell g k.1 k.2)).2
  else None.

(** Every entry of the cache is what the oracle gives for its key. *)
Definition coherent (g : tile_grid Geom) (c : cache) : Prop :=
  ∀ k v, c !! k = Some v → v = offset_logits g k.

Definition caches_coherent (oc : offset_caches) : Prop :=
  coherent (grid01 tile_grids) (cache01 oc)
  ∧ coherent (grid10 tile_grids) (cache10 oc)
  ∧ coherent (grid11 tile_grids) (cache11 oc).

Lemma ensure_logits_present (g : tile_grid Geom) (x y : Z) (c : cache)
      (calls : list Geom) :
  is_Some (c !! (x, y)) → _ensure_logits g x y (c, calls) = (c, calls).
Proof. intros [v E]. unfold _ensure_logits. now rewrite E. Qed.

Lemma ensure_logits_calls (g : tile_grid Geom) (x y : Z) (c c' : cache)
      (calls calls' : list Geom) :
  _ensure_logits g x y (c, calls) = (c', calls') →
  is_Some (c' !! (x, y))
  ∧ (∀ k, is_Some (c !! k) → is_Some (c' !! k))
  ∧ ∃ extra, calls' = calls ++ extra ∧ (length extra ≤ 1)%nat.
Proof.
  unfold _ensure_logits. destruct (c !! (x, y)) as [v|] eqn:E.
  - intros H. inversion H; subst. rewrite E. split; [eauto|].
    split; [auto|]. exists []. rewrite app_nil_r. auto.
  - destruct (gshape g) as [w h].
    assert (Hk : ∀ (v : option ndarray3) k,
               is_Some (c !! k) → is_Some (<[(x, y) := v]> c !! k)).
    { intros v k Hs. destruct (decide (k = (x, y))) as [->|Hne].
      - rewrite lookup_insert_eq. eauto.
      - rewrite lookup_insert_ne by congruence. exact Hs. }
    destruct (_ && _).
    + destruct (flood_model _) as [[? ?] l]. intros H. inversion H; subst.
      rewrite lookup_insert_eq. split; [eauto|]. split; [apply Hk|].
      eexists. split; [reflexivity|]. simpl. lia.
    + intros H. inversion H; subst.
      rewrite lookup_insert_eq. split; [eauto|]. split; [apply Hk|].
      exists []. rewrite app_nil_r. auto.
Qed.

Lemma ensure_logits_coherent (g : tile_grid Geom) (x y : Z) (c c' : cache)
      (calls calls' : list Geom) :
  _ensure_logits g x y (c, calls) = (c', calls') →
  coherent g c → coherent g c'.
Proof.
  unfold _ensure_logits. destruct (c !! (x, y)) as [v|] eqn:E.
  - intros H. inversion H; subst. auto.
  - intros H Hc k v Hk.
    assert (Hnew : ∃ l, c' = <[(x, y) := l]> c ∧ l = offset_logits g (x, y)).
    { unfold offset_logits. cbn [fst snd]. destruct (gshape g) as [w h].
      destruct (_ && _).
      - destruct (flood_model _) as [[? ?] l]. inversion H; subst. eauto.
      - inversion H; subst. eauto. }
    destruct Hnew as (l & -> & ->).
    destruct (decide (k = (x, y))) as [->|Hne].
    + rewrite lookup_insert_eq in Hk. congruence.
    + rewrite lookup_insert_ne in Hk by congruence. now apply Hc.
Qed.

Lemma cache_get_coherent (g : tile_grid Geom) (c : cache) (k : coord) :
  coherent g c → is_Some (c !! k) → cache_get c k = offset_logits g k.
Proof.
  intros Hc [v E]. unfold cache_get. rewrite E. simpl. now apply Hc.
Qed.

Lemma get_adjacent_logits_spec (tile_x tile_y : Z) (oc oc' : offset_caches)
      (calls calls' : list Geom) (adj : adjacent) :
  get_adjacent_logits tile_x tile_y oc calls = (adj, oc', calls') →
  (is_Some (cache10 oc' !! (tile_x - 1, tile_y + 0))
   ∧ is_Some (cache10 oc' !! (tile_x + 0, tile_y + 0))
   ∧ is_Some (cache01 oc' !! (tile_x + 0, tile_y - 1))
   ∧ is_Some (cache01 oc' !! (tile_x + 0, tile_y + 0))
   ∧ is_Some (cache11 oc' !! (tile_x - 1, tile_y - 1))
   ∧ is_Some (cache11 oc' !! (tile_x + 0, tile_y - 1))
   ∧ is_Some (cache11 oc' !! (tile_x - 1, tile_y + 0))
   ∧ is_Some (cache11 oc' !! (tile_x + 0, tile_y + 0)))
  ∧ adj = {| adj_le := cache_get (cache10 oc') (tile_x - 1, tile_y + 0);
             adj_ri := cache_get (cache10 oc') (tile_x + 0, tile_y + 0);
             adj_up := cache_get (cache01 oc') (tile_x + 0, tile_y - 1);
             adj_do := cache_get (cache01 oc') (tile_x + 0, tile_y + 0);
             adj_tl := cache_get (cache11 oc') (tile_x - 1, tile_y - 1);
             adj_tr := cache_get (cache11 oc') (tile_x + 0, tile_y - 1);
             adj_bl := cache_get (cache11 oc') (tile_x - 1, tile_y + 0);
             adj_br := cache_get (cache11 oc') (tile_x + 0, tile_y + 0) |}
  ∧ (caches_coherent oc → caches_coherent oc')
  ∧ ∃ extra, calls' = calls ++ extra ∧ (length extra ≤ 8)%nat.
Proof.
  unfold get_adjacent_logits. cbv zeta.
  destruct (_ensure_logits (grid10 tile_grids) (tile_x - 1) (tile_y + 0)
              (cache10 oc, calls)) as [c1 k1] eqn:E1.
  destruct (_ensure_logits (grid10 tile_grids) (tile_x + 0) (tile_y + 0)
              (c1, k1)) as [c2 k2] eqn:E2.
  destruct (_ensure_logits (grid01 tile_grids) (tile_x + 0) (tile_y - 1)
              (cache01 oc, k2)) as [c3 k3] eqn:E3.
  destruct (_ensure_logits (grid01 tile_grids) (tile_x + 0) (tile_y + 0)
              (c3, k3)) as [c4 k4] eqn:E4.
  destruct (_ensure_logits (grid11 tile_grids) (tile_x - 1) (tile_y - 1)
              (cache11 oc, k4)) as [c5 k5] eqn:E5.
  destruct (_ensure_logits (grid11 tile_grids) (tile_x + 0) (tile_y - 1)
              (c5, k5)) as [c6 k6] eqn:E6.
  destruct (_ensure_logits (grid11 tile_grids) (tile_x - 1) (tile_y + 0)
              (c6, k6)) as [c7 k7] eqn:E7.
  destruct (_ensure_logits (grid11 tile_grids) (tile_x + 0) (tile_y + 0)
              (c7, k7)) as [c8 k8] eqn:E8.
  intros H. inversion H; subst adj oc' calls'; clear H. cbn [cache01 cache10 cache11].
  destruct (ensure_logits_calls _ _ _ _ _ _ _ E1) as (P1 & M1 & x1 & -> & L1).
  destruct (ensure_logits_calls _ _ _ _ _ _ _ E2) as (P2 & M2 & x2 & -> & L2).
  destruct (ensure_logits_calls _ _ _ _ _ _ _ E3) as (P3 & M3 & x3 & -> & L3).
  destruct (ensure_logits_calls _ _ _ _ _ _ _ E4) as (P4 & M4 & x4 & -> & L4).
  destruct (ensure_logits_calls _ _ _ _ _ _ _ E5) as (P5 & M5 & x5 & -> & L5).
  destruct (ensure_logits_calls _ _ _ _ _ _ _ E6) as (P6 & M6 & x6 & -> & L6).
  destruct (ensure_logits_calls _ _ _ _ _ _ _ E7) as (P7 & M7 & x7 & -> & L7).
  destruct (ensure_logits_calls _ _ _ _ _ _ _ E8) as (P8 & M8 & x8 & -> & L8).
  split; [|split; [reflexivity|split]].
  - repeat split; auto.
  - intros (H01 & H10 & H11). repeat split.
    + eapply ensure_logits_coherent; [exact E4|].
      eapply ensure_logits_coherent; [exact E3|]. exact H01.
    + eapply ensure_logits_coherent; [exact E2|].
      eapply ensure_logits_coherent; [exact E1|]. exact H10.
    + eapply ensure_logits_coherent; [exact E8|].
      eapply ensure_logits_coherent; [exact E7|].
      eapply ensure_logits_coherent; [exact E6|].
      eapply ensure_logits_coherent; [exact E5|]. exact H11.
  - exists (x1 ++ x2 ++ x3 ++ x4 ++ x5 ++ x6 ++ x7 ++ x8).
    split; [now rewrite <- !app_assoc|]. rewrite !length_app. lia.
Qed.

(** The caches of every state the loop reaches hold what the oracle
    gives. *)
Lemma reachable_caches_coherent (tiles0 : list coord) (s : state) :
  rtc step (init_state tiles0) s → caches_coherent (offset_cache s).
Proof.
  revert s. apply (rtc_ind_r (λ s, caches_coherent (offset_cache s))).
  - repeat split; intros k v H; cbn in H; rewrite lookup_empty in H;
      discriminate H.
  - intros y z _ [_ Hv] IH. apply visit_cases in Hv.
    destruct Hv as (tx & ty & t1 & ix & iy & g & _ & _ & _ & _ & _ & _ & _ & _ & Hv).
    destruct Hv as [(_ & -> & _)|(l & adj & bl & cls & d & _ & _ & _ & Hadj & _)];
      [exact IH|].
    apply get_adjacent_logits_spec in Hadj. now apply Hadj.
Qed.

(** X14. Caching changes nothing: in every state the loop reaches, the
    eight neighbours that [get_adjacent_logits] returns for a tile are
    the logits of the oracle on the cells of the half-shifted lattices
    around it ([le]/[ri] from lattice (1, 0), [up]/[do] from (0, 1), the
    corners from (1, 1)) and [None] where the cell lies outside its
    lattice, whatever the cache already holds. *)
Theorem cached_neighbours_are_oracle_logits
        (tiles0 : list coord) (s : state) (tile_x tile_y : Z) (calls : list Geom) :
  rtc step (init_state tiles0) s →
  (get_adjacent_logits tile_x tile_y (offset_cache s) calls).1.1 =
  {| adj_le := offset_logits (grid10 tile_grids) (tile_x - 1, tile_y + 0);
     adj_ri := offset_logits (grid10 tile_grids) (tile_x + 0, tile_y + 0);
     adj_up := offset_logits (grid01 tile_grids) (tile_x + 0, tile_y - 1);
     adj_do := offset_logits (grid01 tile_grids) (tile_x + 0, tile_y + 0);
     adj_tl := offset_logits (grid11 tile_grids) (tile_x - 1, tile_y - 1);
     adj_tr := offset_logits (grid11 tile_grids) (tile_x + 0, tile_y - 1);
     adj_bl := offset_logits (grid11 tile_grids) (tile_x - 1, tile_y + 0);
     adj_br := offset_logits (grid11 tile_grids) (tile_x + 0, tile_y + 0) |}.
Proof.
  intros Hr. apply reachable_caches_coherent in Hr.
  destruct (get_adjacent_logits _ _ _ _) as [[adj oc'] calls'] eqn:E.
  apply get_adjacent_logits_spec in E.
  destruct E as ((P1 & P2 & P3 & P4 & P5 & P6 & P7 & P8) & -> & Hc & _).
  destruct (Hc Hr) as (H01 & H10 & H11). cbn [fst].
  f_equal; apply cache_get_coherent; assumption.
Qed.

(** X15. [get_adjacent_logits] calls the oracle at most eight times and
    only appends to the calls made before; called again for the same tile
    on the caches it left, it returns the same neighbours, leaves the
    caches as they are and does not call the oracle. *)
Theorem neighbours_are_computed_once
        (tile_x tile_y : Z) (oc : offset_caches) (calls later : list Geom) :
  let '(adj, oc', calls') := get_adjacent_logits tile_x tile_y oc calls in
  (∃ extra, calls' = calls ++ extra ∧ (length extra ≤ 8)%nat)
  ∧ get_adjacent_logits tile_x tile_y oc' later = (adj, oc', later).
Proof.
  destruct (get_adjacent_logits _ _ _ _) as [[adj oc'] calls'] eqn:E.
  apply get_adjacent_logits_spec in E.
  destruct E as ((P1 & P2 & P3 & P4 & P5 & P6 & P7 & P8) & -> & _ & Hx).
  split; [exact Hx|].
  unfold get_adjacent_logits. cbv zeta.
  rewrite (ensure_logits_present (grid10 tile_grids) (tile_x - 1)) by assumption.
  rewrite (ensure_logits_present (grid10 tile_grids) (tile_x + 0)) by assumption.
  rewrite (ensure_logits_present (grid01 tile_grids) (tile_x + 0) (tile_y - 1))
    by assumption.
  rewrite (ensure_logits_present (grid01 tile_grids) (tile_x + 0) (tile_y + 0))
    by assumption.
  rewrite (ensure_logits_present (grid11 tile_grids) (tile_x - 1) (tile_y - 1))
    by assumption.
  rewrite (ensure_logits_present (grid11 tile_grids) (tile_x + 0) (tile_y - 1))
    by assumption.
  rewrite (ensure_logits_present (grid11 tile_grids) (tile_x - 1) (tile_y + 0))
    by assumption.
  rewrite (ensure_logits_present (grid11 tile_grids) (tile_x + 0) (tile_y + 0))
    by assumption.
  destruct oc'; reflexivity.
Qed.

(** *** What the loop has written *)

(** X16. In every state the loop reaches from its entry: the windows
    written to [out_tif] are those of [fill_tiles], in order, and
    [geom_stats] holds the statistics of the classes written, so the two
    lists the function returns have one entry per written tile; the
    Sentinel-1 rasters get the same windows when [export_s1] is set and
    none otherwise; every visited tile is either counted in [n_outside] or
    filled; [n_flooded] and [n_permanent] count disjoint sets of filled
    tiles; the filled tiles are visited tiles, in visiting order; and the
    oracle has been called at most once per visited tile plus eight times
    per filled tile. *)
Theorem search_bookkeeping (tiles0 : list coord) (s : state) :
  rtc step (init_state tiles0) s →
  map fst (out_tif s) = map window_of (fill_tiles s)
  ∧ geom_stats s = map (λ w, ks_water_stats w.2) (out_tif s)
  ∧ map fst (s1_tifs s) = (if export_s1 then map window_of (fill_tiles s) else [])
  ∧ n_visited s = n_outside s + Z.of_nat (length (fill_tiles s))
  ∧ 0 ≤ n_flooded s ∧ 0 ≤ n_permanent s ∧ 0 ≤ n_outside s
  ∧ n_flooded s + n_permanent s ≤ Z.of_nat (length (fill_tiles s))
  ∧ fill_tiles s `sublist_of` visit_tiles s
  ∧ (length (oracle_calls s)
     ≤ length (visit_tiles s) + 8 * length (fill_tiles s))%nat.
Proof.
  revert s.
  apply (rtc_ind_r (λ s,
    map fst (out_tif s) = map window_of (fill_tiles s)
    ∧ geom_stats s = map (λ w, ks_water_stats w.2) (out_tif s)
    ∧ map fst (s1_tifs s) = (if export_s1 then map window_of (fill_tiles s) else [])
    ∧ n_visited s = n_outside s + Z.of_nat (length (fill_tiles s))
    ∧ 0 ≤ n_flooded s ∧ 0 ≤ n_permanent s ∧ 0 ≤ n_outside s
    ∧ n_flooded s + n_permanent s ≤ Z.of_nat (length (fill_tiles s))
    ∧ fill_tiles s `sublist_of` visit_tiles s
    ∧ (length (oracle_calls s)
       ≤ length (visit_tiles s) + 8 * length (fill_tiles s))%nat)).
  - cbn. destruct export_s1; repeat split; try reflexivity; lia.
  - intros s s' _ [_ Hv] (Iw & Ig & Is & In & If & Ip & Io & Ifp & Isub & Ic).
    apply visit_cases in Hv.
    destruct Hv as (tx & ty & t1 & ix & iy & g & _ & _ & _ & _ & _ & Hvt & _ & Hn & Hv).
    destruct Hv as [(_ & _ & Hf & Hg & Ho & Hs & Hfl & Hpe & Hou & Hcalls)
                   |(l & adj & bl & cls & d & _ & _ & _ & Hadj & _ & _ & _
                     & Hf & Hg & Ho & Hs & Hou & Hfl & Hpe & _)].
    + rewrite Hf, Hg, Ho, Hs, Hfl, Hpe, Hou, Hn, Hvt.
      repeat split; try assumption; try lia.
      * now apply sublist_inserts_r.
      * rewrite length_app. simpl.
        destruct Hcalls as [[_ ->]|(_ & -> & _)]; [lia|].
        rewrite length_app. simpl. lia.
    + apply get_adjacent_logits_spec in Hadj.
      destruct Hadj as (_ & _ & _ & extra & Hcalls & Hlen).
      rewrite Hf, Hg, Ho, Hs, Hfl, Hpe, Hou, Hn, Hvt, Hcalls.
      rewrite !map_app, !length_app, Iw, <- Ig. cbn [map fst snd length].
      repeat split; try reflexivity; try lia.
      * destruct export_s1; [|exact Is].
        rewrite map_app, Is. reflexivity.
      * destruct d; lia.
      * destruct d; lia.
      * destruct d; lia.
      * apply sublist_app; [exact Isub|reflexivity].
Qed.

(** *** A frontier that starts inside the lattice *)

(** The coordinate indexes the lattice (0, 0) without wrapping. *)
Definition in_lattice (t : coord) : Prop :=
  0 ≤ t.1 < (gshape (grid00 tile_grids)).1
  ∧ 0 ≤ t.2 < (gshape (grid00 tile_grids)).2.

Lemma reachable_search_inv (tiles0 : list coord) (s : state) :
  NoDup tiles0 → rtc step (init_state tiles0) s → search_inv s.
Proof.
  intros H0. revert s. apply (rtc_ind_r (λ s, search_inv s)).
  - now apply search_inv_init.
  - intros y z _ [_ Hv] IH. eapply search_inv_step; eassumption.
Qed.

Lemma reachable_in_lattice (tiles0 : list coord) (s : state) :
  (∀ t, t ∈ tiles0 → in_lattice t) →
  rtc step (init_state tiles0) s →
  (∀ t, t ∈ popped s ++ tiles s → in_lattice t)
  ∧ visit_tiles s = map (λ t, gcell (grid00 tile_grids) t.1 t.2) (popped s)
  ∧ (∀ t, t ∈ visited s ↔ t ∈ popped s).
Proof.
  intros H0. revert s.
  apply (rtc_ind_r (λ s,
    (∀ t, t ∈ popped s ++ tiles s → in_lattice t)
    ∧ visit_tiles s = map (λ t, gcell (grid00 tile_grids) t.1 t.2) (popped s)
    ∧ (∀ t, t ∈ visited s ↔ t ∈ popped s))).
  - cbn. split; [exact H0|]. split; [reflexivity|]. intros t.
    rewrite elem_of_empty, elem_of_nil. tauto.
  - intros s s' _ [_ Hv] (Iin & Ivt & Ivis). apply visit_inversion in Hv.
    destruct Hv as (x & y & t1 & ix & iy & Ht & Hx & Hy & Hvis & Hvt & Hp & _ & Hts).
    assert (Hxy : in_lattice (x, y)).
    { apply Iin. rewrite Ht. apply elem_of_app. right. left. }
    destruct Hxy as [Bx By]. cbn [fst snd] in Bx, By.
    rewrite norm_index_in_bounds in Hx, Hy by assumption.
    inversion Hx; inversion Hy; subst ix iy. split; [|split].
    + intros t Hin. rewrite Hp in Hin.
      rewrite !elem_of_app, list_elem_of_singleton in Hin.
      destruct Hin as [[Hin| ->]|Hin].
      * apply Iin, elem_of_app. now left.
      * split; assumption.
      * assert (Ht1 : t ∈ t1 → in_lattice t).
        { intros Hin'. apply Iin. rewrite Ht. apply elem_of_app. right. now right. }
        destruct Hts as [E|E]; rewrite E in Hin; [now apply Ht1|].
        apply expand_frontier_in_bounds in Hin.
        destruct Hin as [Hin|Hin]; [now apply Ht1|exact Hin].
    + rewrite Hvt, Hp, Ivt, map_app. reflexivity.
    + intros t. rewrite Hvis, Hp, elem_of_union, elem_of_singleton, elem_of_app,
        list_elem_of_singleton, Ivis. tauto.
Qed.

Lemma tiles_of_source_ok (rivers_df : list Seeder.river)
      (min_river_size max_seed : Z) (overlap : Z → Z → Q) (tile_area : Q)
      (tiles0 : list coord) :
  (tiles0 = Seeder.create_initial_tiles rivers_df
              (gshape (grid00 tile_grids)).1 (gshape (grid00 tile_grids)).2
              min_river_size max_seed
   ∨ Seeder.get_grid_idx (gshape (grid00 tile_grids)).1
                         (gshape (grid00 tile_grids)).2 overlap tile_area
     = Ok tiles0) →
  NoDup tiles0 ∧ ∀ t, t ∈ tiles0 → in_lattice t.
Proof.
  intros [->|H].
  - split; [apply Seeder.create_initial_tiles_NoDup|].
    intros t. apply Seeder.create_initial_tiles_in_bounds.
  - split; [eapply Seeder.get_grid_idx_NoDup, H|].
    unfold Seeder.get_grid_idx in H. destruct (_ && _); [|discriminate].
    inversion H; subst. intros [x y] Hin.
    eapply elem_of_sublist in Hin; [|apply Seeder.filter_sublist].
    apply elem_of_list_prod in Hin. rewrite !elem_of_range in Hin.
    split; simpl; lia.
Qed.

(** X17. The search started on the tiles of [create_initial_tiles], or on
    those [get_grid_idx] gives for prescribed tiles, never leaves the
    lattice: in every state it reaches, every coordinate popped or queued
    indexes the lattice without wrapping, no coordinate occurs twice
    among them, the mask [visited] holds exactly the popped coordinates,
    [visit_tiles] holds their cells in popping order, and popped and
    queued coordinates together are no more than the cells of the
    lattice, whatever [max_tiles] is. *)
Theorem search_stays_in_lattice
        (rivers_df : list Seeder.river) (min_river_size max_seed : Z)
        (overlap : Z → Z → Q) (tile_area : Q)
        (tiles0 : list coord) (s : state) :
  (tiles0 = Seeder.create_initial_tiles rivers_df
              (gshape (grid00 tile_grids)).1 (gshape (grid00 tile_grids)).2
              min_river_size max_seed
   ∨ Seeder.get_grid_idx (gshape (grid00 tile_grids)).1
                         (gshape (grid00 tile_grids)).2 overlap tile_area
     = Ok tiles0) →
  rtc step (init_state tiles0) s →
  (∀ t, t ∈ popped s ++ tiles s →
        0 ≤ t.1 < (gshape (grid00 tile_grids)).1
        ∧ 0 ≤ t.2 < (gshape (grid00 tile_grids)).2)
  ∧ NoDup (popped s ++ tiles s)
  ∧ (∀ t, t ∈ visited s ↔ t ∈ popped s)
  ∧ visit_tiles s = map (λ t, gcell (grid00 tile_grids) t.1 t.2) (popped s)
  ∧ (length (popped s ++ tiles s)
     ≤ Z.to_nat (gshape (grid00 tile_grids)).1
       * Z.to_nat (gshape (grid00 tile_grids)).2)%nat.
Proof.
  intros Hsrc Hr. apply tiles_of_source_ok in Hsrc. destruct Hsrc as [Hnd Hin].
  destruct (reachable_in_lattice tiles0 s Hin Hr) as (Iin & Ivt & Ivis).
  destruct (reachable_search_inv tiles0 s Hnd Hr) as [Ind _].
  split; [exact Iin|]. split; [exact Ind|]. split; [exact Ivis|].
  split; [exact Ivt|].
  rewrite <- (length_seqZ 0 (gshape (grid00 tile_grids)).1).
  rewrite <- (length_seqZ 0 (gshape (grid00 tile_grids)).2).
  rewrite <- length_prod. apply submseteq_length, NoDup_submseteq; [exact Ind|].
  intros [x y] Ht. apply Iin in Ht. destruct Ht as [Bx By].
  apply elem_of_list_prod. rewrite !elem_of_seqZ. simpl in *. lia.
Qed.

(** *** The exceptions of the loop *)




(** *** The frontier is a queue *)

Lemma fold_enqueue_app (visited : gset coord) (new tiles : list coord) :
  ∃ added, fold_left (enqueue visited) new tiles = tiles ++ added
    ∧ NoDup added
    ∧ ∀ t, t ∈ added ↔ t ∈ new ∧ (t ∉ visited) ∧ (t ∉ tiles).
Proof.
  revert tiles. induction new as [|n new IH]; intros tiles.
  - exists []. rewrite app_nil_r. split; [reflexivity|]. split; [constructor|].
    intros t. rewrite !elem_of_nil. tauto.
  - cbn [fold_left]. destruct (IH (enqueue visited tiles n)) as (added & E & Hnd & Hin).
    unfold enqueue in *.
    destruct (negb (bool_decide (n ∈ visited)) && negb (bool_decide (n ∈ tiles)))
      eqn:B.
    + apply andb_true_iff in B. destruct B as [B1 B2].
      apply negb_true_iff, bool_decide_eq_false in B1, B2.
      exists (n :: added). split; [rewrite E, <- app_assoc; reflexivity|].
      split.
      * constructor; [|exact Hnd]. intros Hn. apply Hin in Hn.
        destruct Hn as (_ & _ & Hn). apply Hn, elem_of_app. right. left.
      * intros t. rewrite !elem_of_cons, Hin, elem_of_app, list_elem_of_singleton.
        destruct (decide (t = n)) as [->|Hne]; [tauto|]. tauto.
    + exists added. split; [exact E|]. split; [exact Hnd|].
      intros t. rewrite Hin, elem_of_cons. split; [tauto|].
      intros ([->|Ht] & Hv & Hti); [|tauto].
      apply andb_false_iff in B.
      destruct B as [B|B]; apply negb_false_iff, bool_decide_eq_true in B;
        contradiction.
Qed.

(** X19. The frontier is a first-in first-out queue: an iteration that
    does not raise pops the head of [tiles] and leaves the rest in order,
    appending at the back. Tiles are appended only when the tile popped
    was counted as flooded, and then they are exactly the tiles of its
    window (3 back and 2 forward on each axis, clipped to the lattice)
    that are neither marked visited nor queued, each once. *)
Theorem frontier_is_a_queue (s s' : state) :
  visit s = Ok s' →
  ∃ tile rest added,
    tiles s = tile :: rest
    ∧ popped s' = popped s ++ [tile]
    ∧ tiles s' = rest ++ added
    ∧ NoDup added
    ∧ (n_flooded s' = n_flooded s ∧ added = []
       ∨ n_flooded s' = n_flooded s + 1
         ∧ ∀ t, t ∈ added ↔
                ((t ∉ visited s') ∧ (t ∉ rest)
                 ∧ Z.max 0 (tile.1 - 3) ≤ t.1
                   < Z.min (gshape (grid00 tile_grids)).1 (tile.1 + 3)
                 ∧ Z.max 0 (tile.2 - 3) ≤ t.2
                   < Z.min (gshape (grid00 tile_grids)).2 (tile.2 + 3))).
Proof.
  intros Hv. apply visit_cases in Hv.
  destruct Hv as (tx & ty & t1 & ix & iy & g & Ht & _ & _ & _ & _ & _ & Hp & _ & Hv).
  exists (tx, ty), t1.
  destruct Hv as [(Hts & _ & _ & _ & _ & _ & Hfl & _)
                 |(l & adj & bl & cls & d & _ & _ & _ & _ & _ & _ & _
                   & _ & _ & _ & _ & _ & Hfl & _ & Hts)].
  - exists []. rewrite app_nil_r. repeat split; try assumption; [constructor|auto].
  - destruct d.
    + exists []. rewrite app_nil_r. repeat split; try assumption; [constructor|auto].
    + unfold expand_frontier in Hts.
      destruct (fold_enqueue_app (visited s') (sel_new_tiles_big_window tx ty
                  (gshape (grid00 tile_grids)).1 (gshape (grid00 tile_grids)).2 3) t1)
        as (added & E & Hnd & Hin).
      exists added. rewrite Hts, E. repeat split; try assumption.
      right. split; [exact Hfl|]. intros [x y]. rewrite Hin, elem_of_sel_new_tiles.
      cbn [fst snd]. tauto.
    + exists []. rewrite app_nil_r. repeat split; try assumption; [constructor|auto].
Qed.

(** *** Tiles that are counted and left *)

(** X20. A tile inside the footprint whose inputs the edge heuristic
    turns down, or for which the oracle gives no logits, is only
    counted: the oracle has been called once, for the tile itself and not
    for its neighbours, nothing is written or cached, [n_outside] grows
    as for a tile outside the footprint, and the frontier loses the tile
    and gains none. *)
Theorem rejected_tile_is_only_counted
        (s : state) (tile_x tile_y : Z) (rest : list coord) (ix iy : Z) :
  tiles s = (tile_x, tile_y) :: rest →
  norm_index (gshape (grid00 tile_grids)).1 tile_x = Ok ix →
  norm_index (gshape (grid00 tile_grids)).2 tile_y = Ok iy →
  shapely_contains viable_footprint (gcell (grid00 tile_grids) ix iy) = true →
  s1_preprocess_edge_heuristic
    (flood_model (gcell (grid00 tile_grids) ix iy)).1.1 default_threshold = false
  ∨ (flood_model (gcell (grid00 tile_grids) ix iy)).2 = None →
  visit s =
  Ok {| tiles := rest;
        visited := {[ (ix, iy) ]} ∪ visited s;
        offset_cache := offset_cache s;
        visit_tiles := visit_tiles s ++ [gcell (grid00 tile_grids) ix iy];
        fill_tiles := fill_tiles s;
        geom_stats := geom_stats s;
        out_tif := out_tif s;
        s1_tifs := s1_tifs s;
        n_visited := n_visited s + 1;
        n_flooded := n_flooded s;
        n_permanent := n_permanent s;
        n_outside := n_outside s + 1;
        oracle_calls := oracle_calls s ++ [gcell (grid00 tile_grids) ix iy];
        popped := popped s ++ [(tile_x, tile_y)] |}.
Proof.
  intros Ht Hx Hy Hc Hrej. unfold visit.
  rewrite Ht, Hx, bind_Ok, Hy, bind_Ok, Hc. cbn [negb].
  destruct (flood_model _) as [[s1_inps dem] flood_logits].
  cbn [fst snd] in Hrej.
  destruct Hrej as [-> | ->]; [reflexivity|].
  destruct (s1_preprocess_edge_heuristic _ _); reflexivity.
Qed.

(** X21. The search does not spread from large bodies of water: when
    more than half of the classes written for a tile are permanent
    water, or less than a tenth of them are background, the tile is
    counted in [n_permanent] and not in [n_flooded], and the frontier
    gains no tile, whatever the share of flood pixels. *)
Theorem large_water_is_not_expanded
        (s s' : state) (window : RasterWindow) (flood_cls : class_map) :
  visit s = Ok s' →
  out_tif s' = out_tif s ++ [(window, flood_cls)] →
  mean_gt (class_mean flood_cls KUROSIWO_PW_CLASS) (1 # 2)
  || mean_lt (class_mean flood_cls KUROSIWO_BG_CLASS) (1 # 10) = true →
  tiles s' = tail (tiles s)
  ∧ n_permanent s' = n_permanent s + 1
  ∧ n_flooded s' = n_flooded s.
Proof.
  intros Hv Ho Hw. apply visit_cases in Hv.
  destruct Hv as (tx & ty & t1 & ix & iy & g & Ht & _ & _ & _ & _ & _ & _ & _ & Hv).
  destruct Hv as [(_ & _ & _ & _ & Ho' & _)
                 |(l & adj & bl & cls & d & _ & _ & _ & _ & _ & _ & Hd
                   & _ & _ & Ho' & _ & _ & Hfl & Hpe & Hts)].
  - rewrite Ho' in Ho. apply (f_equal length) in Ho.
    rewrite length_app in Ho. simpl in Ho. lia.
  - rewrite Ho' in Ho. apply app_inv_head in Ho. inversion Ho; subst cls.
    unfold dispose in Hd. rewrite Hw in Hd. inversion Hd; subst d.
    rewrite Ht. auto.
Qed.

End Loop.

End Search.

(** ** The search on a small lattice

    A 5x5-pixel validity square, tiles of 2x2 pixels, the identity
    transform and an oracle that sees flood everywhere. *)

Module SmallLattice.
Import Numpy Blend EdgeHeuristic Window Grid Search.

(** [shapely.contains(outer, inner)] for an axis-aligned rectangle [outer]. *)
Definition contains_rect (outer inner : polygon) : bool :=
  let '(xlo, ylo, xhi, yhi) := bounds outer in
  forallb (λ p : Q * Q,
             Qle_bool xlo p.1 && Qle_bool p.1 xhi
             && Qle_bool ylo p.2 && Qle_bool p.2 yhi) inner.

Definition viable : polygon := [(0, 0); (5, 0); (5, 5); (0, 5)]%Q.

Definition flood_logits : ndarray3 :=
  {| chans := 3; rows := 2; cols := 2;
     at3 := λ k _ _, if k =? 2 then 1%Q else 0%Q |}.

Definition oracle (g : polygon) : list tensor * option unit * option ndarray3 :=
  ([repeat (Num 1) 4; repeat (Num 1) 4], None, Some flood_logits).

Definition count_class (m : class_map) (c : Z) : Z :=
  Z.of_nat (length (List.filter (λ p : Z * Z, cls_at m p.1 p.2 =? c)
                      (list_prod (range 0 (cm_rows m)) (range 0 (cm_cols m))))).

Definition count_classes (m : class_map) : Z * Z * Z :=
  (count_class m 0, count_class m 1, count_class m 2).

Definition built : result (grids (tile_grid polygon) * polygon) :=
  mk_grid arange_box_grid affine_on_grid viable identity 2.

Definition lattices : grids (tile_grid polygon) :=
  match built with
  | Ok (gs, _) => gs
  | Raise _ => let e := TileGrid (0, 0) (λ _ _, []) in Grids e e e e
  end.


Definition visit_small :=
  visit polygon contains_rect unit oracle (Q * Q * Q * Q) bounds
        count_classes 1 0 lattices viable false.


Definition start (tiles0 : list coord) : state polygon (Q * Q * Q * Q) :=
  init_state polygon (Q * Q * Q * Q) tiles0.


(** The first iteration from the frontier [(0, 0)]. *)
Definition after_first_visit : state polygon (Q * Q * Q * Q) :=
  match visit_small (start [(0, 0)]) with
  | Ok s => s
  | Raise _ => start []
  end.

Lemma first_visit :
  step polygon contains_rect unit oracle (Q * Q * Q * Q) bounds
       count_classes 1 0 lattices viable false 3
       (start [(0, 0)]) after_first_visit.
Proof.
  split; [reflexivity|].
  change (visit_small (start [(0, 0)]) = Ok after_first_visit).
  unfold after_first_visit.
  assert (H : match visit_small (start [(0, 0)]) with
              | Ok _ => true
              | Raise _ => false
              end = true) by (vm_compute; reflexivity).
  destruct (visit_small (start [(0, 0)])); [reflexivity|discriminate H].
Defined.


Lemma no_tile_visited_twice_witness :
  NoDup (popped _ _ after_first_visit)
  ∧ (∀ c, c ∈ popped _ _ after_first_visit →
          marked polygon (Q * Q * Q * Q) lattices after_first_visit c)
  ∧ (∀ c, c ∈ popped _ _ after_first_visit → c ∉ tiles _ _ after_first_visit)
  ∧ NoDup (tiles _ _ after_first_visit)
  ∧ length (visit_tiles _ _ after_first_visit)
    = length (popped _ _ after_first_visit).
Proof.
  apply (no_tile_visited_twice polygon contains_rect unit oracle
           (Q * Q * Q * Q) bounds count_classes 1 0 lattices viable false 3
           [(0, 0)] after_first_visit).
  - apply NoDup_singleton.
  - apply rtc_once. exact first_visit.
Defined.




(** *** The lemmas on the loop, on this lattice *)

Lemma cached_neighbours_are_oracle_logits_witness :
  (get_adjacent_logits polygon unit oracle lattices 0 0
     (offset_cache _ _ after_first_visit) []).1.1 =
  {| adj_le := offset_logits polygon unit oracle (grid10 lattices) (0 - 1, 0 + 0);
     adj_ri := offset_logits polygon unit oracle (grid10 lattices) (0 + 0, 0 + 0);
     adj_up := offset_logits polygon unit oracle (grid01 lattices) (0 + 0, 0 - 1);
     adj_do := offset_logits polygon unit oracle (grid01 lattices) (0 + 0, 0 + 0);
     adj_tl := offset_logits polygon unit oracle (grid11 lattices) (0 - 1, 0 - 1);
     adj_tr := offset_logits polygon unit oracle (grid11 lattices) (0 + 0, 0 - 1);
     adj_bl := offset_logits polygon unit oracle (grid11 lattices) (0 - 1, 0 + 0);
     adj_br := offset_logits polygon unit oracle (grid11 lattices) (0 + 0, 0 + 0) |}.
Proof.
  apply (cached_neighbours_are_oracle_logits polygon contains_rect unit oracle
           (Q * Q * Q * Q) bounds count_classes 1 0 lattices viable false 3
           [(0, 0)] after_first_visit 0 0 []).
  apply rtc_once. exact first_visit.
Defined.

Lemma search_bookkeeping_witness :
  map fst (out_tif _ _ after_first_visit)
  = map bounds (fill_tiles _ _ after_first_visit)
  ∧ geom_stats _ _ after_first_visit
    = map (λ w, count_classes w.2) (out_tif _ _ after_first_visit)
  ∧ map fst (s1_tifs _ _ after_first_visit) = []
  ∧ n_visited _ _ after_first_visit
    = n_outside _ _ after_first_visit
      + Z.of_nat (length (fill_tiles _ _ after_first_visit))
  ∧ 0 ≤ n_flooded _ _ after_first_visit
  ∧ 0 ≤ n_permanent _ _ after_first_visit
  ∧ 0 ≤ n_outside _ _ after_first_visit
  ∧ n_flooded _ _ after_first_visit + n_permanent _ _ after_first_visit
    ≤ Z.of_nat (length (fill_tiles _ _ after_first_visit))
  ∧ fill_tiles _ _ after_first_visit `sublist_of` visit_tiles _ _ after_first_visit
  ∧ (length (oracle_calls _ _ after_first_visit)
     ≤ length (visit_tiles _ _ after_first_visit)
       + 8 * length (fill_tiles _ _ after_first_visit))%nat.
Proof.
  apply (search_bookkeeping polygon contains_rect unit oracle
           (Q * Q * Q * Q) bounds count_classes 1 0 lattices viable false 3
           [(0, 0)] after_first_visit).
  apply rtc_once. exact first_visit.
Defined.

Lemma frontier_is_a_queue_witness :
  ∃ tile rest added,
    tiles _ _ (start [(0, 0)]) = tile :: rest
    ∧ popped _ _ after_first_visit = popped _ _ (start [(0, 0)]) ++ [tile]
    ∧ tiles _ _ after_first_visit = rest ++ added
    ∧ NoDup added
    ∧ (n_flooded _ _ after_first_visit = n_flooded _ _ (start [(0, 0)])
       ∧ added = []
       ∨ n_flooded _ _ after_first_visit = n_flooded _ _ (start [(0, 0)]) + 1
         ∧ ∀ t, t ∈ added ↔
                ((t ∉ visited _ _ after_first_visit) ∧ (t ∉ rest)
                 ∧ Z.max 0 (tile.1 - 3) ≤ t.1
                   < Z.min (gshape (grid00 lattices)).1 (tile.1 + 3)
                 ∧ Z.max 0 (tile.2 - 3) ≤ t.2
                   < Z.min (gshape (grid00 lattices)).2 (tile.2 + 3))).
Proof.
  apply (frontier_is_a_queue polygon contains_rect unit oracle
           (Q * Q * Q * Q) bounds count_classes 1 0 lattices viable false
           (start [(0, 0)]) after_first_visit).
  exact (proj2 first_visit).
Defined.

(** The frontier [create_initial_tiles] gives without rivers. *)
Definition seeds : list coord :=
  Seeder.create_initial_tiles [] (gshape (grid00 lattices)).1
                              (gshape (grid00 lattices)).2 500 200.

(** The first iteration from that frontier. *)
Definition after_seed_visit : state polygon (Q * Q * Q * Q) :=
  match visit_small (start seeds) with
  | Ok s => s
  | Raise _ => start []
  end.

Lemma seed_visit :
  step polygon contains_rect unit oracle (Q * Q * Q * Q) bounds
       count_classes 1 0 lattices viable false 3
       (start seeds) after_seed_visit.
Proof.
  split; [reflexivity|].
  change (visit_small (start seeds) = Ok after_seed_visit).
  unfold after_seed_visit.
  assert (H : match visit_small (start seeds) with
              | Ok _ => true
              | Raise _ => false
              end = true) by (vm_compute; reflexivity).
  destruct (visit_small (start seeds)); [reflexivity|discriminate H].
Defined.

Lemma search_stays_in_lattice_witness :
  (∀ t, t ∈ popped _ _ after_seed_visit ++ tiles _ _ after_seed_visit →
        0 ≤ t.1 < (gshape (grid00 lattices)).1
        ∧ 0 ≤ t.2 < (gshape (grid00 lattices)).2)
  ∧ NoDup (popped _ _ after_seed_visit ++ tiles _ _ after_seed_visit)
  ∧ (∀ t, t ∈ visited _ _ after_seed_visit ↔ t ∈ popped _ _ after_seed_visit)
  ∧ visit_tiles _ _ after_seed_visit
    = map (λ t, gcell (grid00 lattices) t.1 t.2) (popped _ _ after_seed_visit)
  ∧ (length (popped _ _ after_seed_visit ++ tiles _ _ after_seed_visit)
     ≤ Z.to_nat (gshape (grid00 lattices)).1
       * Z.to_nat (gshape (grid00 lattices)).2)%nat.
Proof.
  apply (search_stays_in_lattice polygon contains_rect unit oracle
           (Q * Q * Q * Q) bounds count_classes 1 0 lattices viable false 3
           [] 500 200 (λ _ _, 0%Q) 0%Q seeds after_seed_visit).
  - left. reflexivity.
  - apply rtc_once. exact seed_visit.
Defined.


(** An oracle without logits (no elevation tile could be fetched). *)
Definition silent_oracle (g : polygon)
  : list tensor * option unit * option ndarray3 :=
  ([repeat (Num 1) 4; repeat (Num 1) 4], None, None).

Lemma rejected_tile_is_only_counted_witness :
  visit polygon contains_rect unit silent_oracle (Q * Q * Q * Q) bounds
        count_classes 1 0 lattices viable false (start [(0, 0); (1, 1)])
  = Ok {| tiles := [(1, 1)];
          visited := {[ (0, 0) ]} ∪ ∅;
          offset_cache := OffsetCaches ∅ ∅ ∅;
          visit_tiles := [] ++ [gcell (grid00 lattices) 0 0];
          fill_tiles := [];
          geom_stats := [];
          out_tif := [];
          s1_tifs := [];
          n_visited := 0 + 1;
          n_flooded := 0;
          n_permanent := 0;
          n_outside := 0 + 1;
          oracle_calls := [] ++ [gcell (grid00 lattices) 0 0];
          popped := [] ++ [(0, 0)] |}.
Proof.
  apply (rejected_tile_is_only_counted polygon contains_rect unit silent_oracle
           (Q * Q * Q * Q) bounds count_classes 1 0 lattices viable false
           (start [(0, 0); (1, 1)]) 0 0 [(1, 1)] 0 0).
  - reflexivity.
  - reflexivity.
  - reflexivity.
  - vm_compute. reflexivity.
  - right. reflexivity.
Defined.

(** The first iteration when class 0 is the class of permanent water:
    three of the four pixels written are of that class. *)
Definition after_water_visit : state polygon (Q * Q * Q * Q) :=
  match visit polygon contains_rect unit oracle (Q * Q * Q * Q) bounds
              count_classes 0 1 lattices viable false (start [(0, 0)]) with
  | Ok s => s
  | Raise _ => start []
  end.

Definition water_write : (Q * Q * Q * Q) * class_map :=
  match out_tif _ _ after_water_visit with
  | w :: _ => w
  | [] => ((0, 0, 0, 0)%Q, ClassMap 0 0 (λ _ _, 0))
  end.

Lemma water_visit :
  visit polygon contains_rect unit oracle (Q * Q * Q * Q) bounds
        count_classes 0 1 lattices viable false (start [(0, 0)])
  = Ok after_water_visit.
Proof.
  unfold after_water_visit.
  assert (H : match visit polygon contains_rect unit oracle (Q * Q * Q * Q)
                          bounds count_classes 0 1 lattices viable false
                          (start [(0, 0)]) with
              | Ok _ => true
              | Raise _ => false
              end = true) by (vm_compute; reflexivity).
  destruct (visit _ _ _ _ _ _ _ _ _ _ _ _ _); [reflexivity|discriminate H].
Defined.

Lemma water_write_is_written :
  out_tif _ _ after_water_visit
  = out_tif _ _ (start [(0, 0)]) ++ [(water_write.1, water_write.2)].
Proof.
  unfold water_write.
  assert (H : length (out_tif _ _ after_water_visit) = 1%nat)
    by (vm_compute; reflexivity).
  destruct (out_tif _ _ after_water_visit) as [|[w c] [|w' l]];
    try discriminate H. reflexivity.
Defined.

Lemma large_water_is_not_expanded_witness :
  tiles _ _ after_water_visit = tail (tiles _ _ (start [(0, 0)]))
  ∧ n_permanent _ _ after_water_visit = n_permanent _ _ (start [(0, 0)]) + 1
  ∧ n_flooded _ _ after_water_visit = n_flooded _ _ (start [(0, 0)]).
Proof.
  apply (large_water_is_not_expanded polygon contains_rect unit oracle
           (Q * Q * Q * Q) bounds count_classes 0 1 lattices viable false
           (start [(0, 0)]) after_water_visit water_write.1 water_write.2).
  - exact water_visit.
  - exact water_write_is_written.
  - vm_compute. reflexivity.
Defined.

End SmallLattice.

(** ** Post-processing of the class raster *)

Module Postprocess.
Import Window.

(** The pixels of one band, indexed [y, x]. *)
Definition image : Type := Z → Z → Z.

(** What [in_tif.read()], [in_tif.profile] and [in_tif.nodata] give: an
    array of shape [(count, height, width)] and the nodata value, if the
    raster declares one. *)
Record raster : Type := Raster {
  count : Z;
  height : Z;
  width : Z;
  data : Z → image;
  nodata : option Z
}.

(** [np.round]: halves go to the even neighbour. *)
Definition round_half_even (q : Q) : Z :=
  let fl := Qfloor q in
  let r := (q - inject_Z fl)%Q in
  if Qltb r (1 # 2) then fl
  else if Qltb (1 # 2) r then fl + 1
  else if Z.even fl then fl else fl + 1.

(** [shp_np.mean(axis=0)] *)
Definition mean_point (shp_np : list (Q * Q)) : Q * Q :=
  let n := inject_Z (Z.of_nat (length shp_np)) in
  (fold_right Qplus 0%Q (map fst shp_np) / n,
   fold_right Qplus 0%Q (map snd shp_np) / n)%Q.

(** [np.linalg.norm(shp_np[0] - shp_np[-1]) > 2] *)
Definition ends_apart (shp_np : list (Q * Q)) : bool :=
  let a := hd (0, 0)%Q shp_np in
  let b := List.last shp_np (0, 0)%Q in
  Qltb 4 ((a.1 - b.1) * (a.1 - b.1) + (a.2 - b.2) * (a.2 - b.2)).

Definition occurrences (v : Z) (l : list Z) : nat :=
  length (List.filter (Z.eqb v) l).

(** [scipy.stats.mode(values, axis=None)]: the smallest of the most
    frequent values. *)
Definition mode (l : list Z) : Z :=
  fold_left
    (λ best v,
       if (occurrences best l <? occurrences v l)%nat
          || ((occurrences best l =? occurrences v l)%nat && (v <? best))
       then v else best)
    l (hd 0 l).

(** The values of [img[ylo:yhi, xlo:xhi]]. *)
Definition window_values (img : image) (ylo yhi xlo xhi : Z) : list Z :=
  map (λ p : Z * Z, img p.1 p.2) (list_prod (range ylo yhi) (range xlo xhi)).

(** [img[ylo:yhi, xlo:xhi][mask] = v] *)
Definition fill_window (img : image) (ylo yhi xlo xhi : Z)
           (mask : Z → Z → bool) (v : Z) : image :=
  λ y x,
    if (ylo <=? y) && (y <? yhi) && (xlo <=? x) && (x <? xhi)
       && mask (y - ylo) (x - xlo)
    then v else img y x.

(** [img[y, x] = v] *)
Definition set_pixel (img : image) (y x v : Z) : image :=
  λ y' x', if (y' =? y) && (x' =? x) then v else img y' x'.

Section Filters.

(** The library calls of [_postprocess_classes], for an image of shape
    [(h, w)]: [skimage.filters.rank.majority] with the radius-2 disk and a
    mask, [skimage.measure.find_contours] of a boolean image,
    [shapely.Polygon(...).area], [util.rounded_bounds] of the polygon's
    bounds and [skimage.draw.polygon2mask]. *)
Variable rank_majority : Z → Z → image → (Z → Z → bool) → image.
Variable find_contours : Z → Z → (Z → Z → bool) → list (list (Q * Q)).
Variable polygon_area : list (Q * Q) → Q.
Variable rounded_bounds : list (Q * Q) → Z * Z * Z * Z.
Variable polygon2mask : Z * Z → list (Q * Q) → Z → Z → bool.

(** The body of the loop over the contours of one class. *)
Definition replace_small_region (h w : Z) (size_threshold : Q)
           (smoothed : image) (shp_np : list (Q * Q)) : image :=
  if ends_apart shp_np then smoothed
  else if (length shp_np <=? 2)%nat then
    let m := mean_point shp_np in
    let y := round_half_even m.1 in
    let x := round_half_even m.2 in
    let ylo := Z.max 0 (y - 2) in
    let xlo := Z.max 0 (x - 2) in
    let yhi := Z.min h (y + 3) in
    let xhi := Z.min w (x + 3) in
    let majority := mode (window_values smoothed ylo yhi xlo xhi) in
    set_pixel smoothed y x majority
  else if Qltb (polygon_area shp_np) size_threshold then
    let '(ylo, xlo, yhi, xhi) := rounded_bounds shp_np in
    let ylo := Z.max 0 (ylo - 2) in
    let xlo := Z.max 0 (xlo - 2) in
    let yhi := Z.min h (yhi + 3) in
    let xhi := Z.min w (xhi + 3) in
    let shp_mask :=
      polygon2mask (yhi - ylo, xhi - xlo)
                   (map (λ p : Q * Q, (p.1 - inject_Z ylo, p.2 - inject_Z xlo)%Q) shp_np) in
    let majority := mode (window_values smoothed ylo yhi xlo xhi) in
    fill_window smoothed ylo yhi xlo xhi shp_mask majority
  else smoothed.

Definition _postprocess_classes (h w : Z) (class_map : image)
           (mask : Z → Z → bool) (size_threshold : Q) : image :=
  let smoothed := rank_majority h w class_map mask in
  fold_left
    (λ smoothed cls_id,
       fold_left (replace_small_region h w size_threshold)
                 (find_contours h w (λ y x, smoothed y x =? cls_id))
                 smoothed)
    [1; 2] smoothed.

(** [floodmaps == nodata] *)
Definition nan_mask (in_tif : raster) (n : Z) : Z → Z → Z → bool :=
  λ b y x, data in_tif b y x =? n.

(** [postprocess_classes]: the raster read from [in_fpath] to the raster
    written to [out_fpath]. Indexing the one-band result with the mask of
    a raster that has another number of bands raises. *)
Definition postprocess_classes (in_tif : raster) (size_threshold : Q)
  : result raster :=
  match nodata in_tif with
  | None => Raise TypeError
  | Some n =>
      if count in_tif =? 1 then
        let floodmaps :=
          _postprocess_classes (height in_tif) (width in_tif) (data in_tif 0)
            (λ y x, negb (nan_mask in_tif n 0 y x)) size_threshold in
        Ok {| count := 1; height := height in_tif; width := width in_tif;
              data := λ b y x, if nan_mask in_tif n b y x then n else floodmaps y x;
              nodata := Some n |}
      else Raise IndexError
  end.

(** C10. For every one-band class raster with a nodata value, whatever
    the majority filter and the small-region replacement produce,
    [postprocess_classes] returns a raster of the same shape in which every
    pixel that was nodata in the input is nodata, and every other pixel is
    the one the smoothing produced. *)
Theorem nodata_region_unchanged (in_tif : raster) (n : Z) (size_threshold : Q) :
  count in_tif = 1 → nodata in_tif = Some n →
  ∃ out, postprocess_classes in_tif size_threshold = Ok out
    ∧ (count out, height out, width out) = (1, height in_tif, width in_tif)
    ∧ nodata out = Some n
    ∧ (∀ y x, data in_tif 0 y x = n → data out 0 y x = n)
    ∧ (∀ y x, data in_tif 0 y x ≠ n →
              data out 0 y x =
              _postprocess_classes (height in_tif) (width in_tif) (data in_tif 0)
                (λ y x, negb (data in_tif 0 y x =? n)) size_threshold y x).
Proof.
  intros Hc Hn. unfold postprocess_classes. rewrite Hn, Hc. simpl.
  eexists. split; [reflexivity|]. simpl. repeat split.
  - intros y x E. unfold nan_mask. now rewrite E, Z.eqb_refl.
  - intros y x E. unfold nan_mask. apply Z.eqb_neq in E. now rewrite E.
Qed.

(** *** The replacement of small regions writes no new class *)

Lemma choose_elem_of {A} (pick : A → A → A) (l : list A) (a : A) :
  (∀ x y, pick x y = x ∨ pick x y = y) →
  fold_left pick l a = a ∨ fold_left pick l a ∈ l.
Proof.
  intros Hp. revert a. induction l as [|v l IH]; intros a; cbn [fold_left].
  - now left.
  - destruct (IH (pick a v)) as [E|E].
    + rewrite E. destruct (Hp a v) as [-> | ->]; [now left|right; left].
    + right. now right.
Qed.

(** The mode of a sample is one of its values. *)
Lemma mode_elem_of (l : list Z) : l ≠ [] → mode l ∈ l.
Proof.
  intros Hne. unfold mode.
  destruct (choose_elem_of
              (λ best v,
                 if (occurrences best l <? occurrences v l)%nat
                    || ((occurrences best l =? occurrences v l)%nat && (v <? best))
                 then v else best) l (hd 0 l)) as [E|E].
  - intros x y. destruct (_ || _); auto.
  - rewrite E. destruct l as [|a l]; [contradiction|left].
  - exact E.
Qed.

Lemma elem_of_window_values (img : image) (ylo yhi xlo xhi v : Z) :
  v ∈ window_values img ylo yhi xlo xhi ↔
  ∃ y x, ylo ≤ y < yhi ∧ xlo ≤ x < xhi ∧ v = img y x.
Proof.
  unfold window_values. rewrite list_elem_of_fmap. split.
  - intros ([y x] & -> & Hin). apply elem_of_list_prod in Hin.
    rewrite !elem_of_range in Hin. exists y, x. tauto.
  - intros (y & x & Hy & Hx & ->). exists (y, x). split; [reflexivity|].
    apply elem_of_list_prod. rewrite !elem_of_range. tauto.
Qed.

(** Every pixel of [img] inside the [(h, w)] frame holds a value that
    [base] holds inside the frame. *)
Definition drawn_from (h w : Z) (base img : image) : Prop :=
  ∀ y x, 0 ≤ y < h → 0 ≤ x < w →
         ∃ y' x', 0 ≤ y' < h ∧ 0 ≤ x' < w ∧ img y x = base y' x'.

Lemma mode_window_drawn_from (h w : Z) (base img : image) (ylo yhi xlo xhi : Z) :
  drawn_from h w base img →
  0 ≤ ylo → yhi ≤ h → 0 ≤ xlo → xhi ≤ w →
  ylo < yhi → xlo < xhi →
  ∃ y' x', 0 ≤ y' < h ∧ 0 ≤ x' < w
           ∧ mode (window_values img ylo yhi xlo xhi) = base y' x'.
Proof.
  intros Hd ? ? ? ? ? ?.
  assert (Hin : mode (window_values img ylo yhi xlo xhi)
                ∈ window_values img ylo yhi xlo xhi).
  { apply mode_elem_of. intros E.
    assert (Hm : img ylo xlo ∈ window_values img ylo yhi xlo xhi).
    { apply elem_of_window_values. exists ylo, xlo. repeat split; lia. }
    rewrite E in Hm. inversion Hm. }
  apply elem_of_window_values in Hin. destruct Hin as (y & x & Hy & Hx & ->).
  apply Hd; lia.
Qed.

Lemma replace_small_region_drawn_from (h w : Z) (size_threshold : Q)
      (base img : image) (shp_np : list (Q * Q)) :
  drawn_from h w base img →
  drawn_from h w base (replace_small_region h w size_threshold img shp_np).
Proof.
  intros Hd. unfold replace_small_region.
  destruct (ends_apart shp_np); [exact Hd|].
  destruct (length shp_np <=? 2)%nat.
  - cbv zeta. intros y x Hy Hx. unfold set_pixel.
    destruct ((y =? _) && (x =? _)) eqn:B; [|now apply Hd].
    apply andb_true_iff in B. destruct B as [By Bx].
    apply Z.eqb_eq in By, Bx. rewrite <- By, <- Bx.
    apply mode_window_drawn_from; [exact Hd|lia..].
  - destruct (Qltb _ _); [|exact Hd].
    destruct (rounded_bounds shp_np) as [[[ylo xlo] yhi] xhi]. cbv zeta.
    intros y x Hy Hx. unfold fill_window.
    destruct (_ && _) eqn:B; [|now apply Hd].
    rewrite !andb_true_iff in B. destruct B as [[[[B1 B2] B3] B4] _].
    apply Z.leb_le in B1, B3. apply Z.ltb_lt in B2, B4.
    apply mode_window_drawn_from; [exact Hd|lia..].
Qed.

Lemma fold_replace_drawn_from (h w : Z) (size_threshold : Q) (base : image)
      (contours : list (list (Q * Q))) (img : image) :
  drawn_from h w base img →
  drawn_from h w base
    (fold_left (replace_small_region h w size_threshold) contours img).
Proof.
  revert img. induction contours as [|c contours IH]; intros img Hd.
  - exact Hd.
  - cbn [fold_left]. apply IH. now apply replace_small_region_drawn_from.
Qed.

(** X22. Removing small regions writes no class of its own: whatever the
    contours found, every pixel of the result of [_postprocess_classes]
    holds a class that some pixel of the majority-filtered image
    holds. *)
Theorem small_region_removal_keeps_classes
        (h w : Z) (class_map : image) (mask : Z → Z → bool)
        (size_threshold : Q) (y x : Z) :
  0 ≤ y < h → 0 ≤ x < w →
  ∃ y' x', 0 ≤ y' < h ∧ 0 ≤ x' < w
    ∧ _postprocess_classes h w class_map mask size_threshold y x
      = rank_majority h w class_map mask y' x'.
Proof.
  assert (Hd : drawn_from h w (rank_majority h w class_map mask)
                 (_postprocess_classes h w class_map mask size_threshold)).
  { unfold _postprocess_classes. cbv zeta. cbn [fold_left].
    apply fold_replace_drawn_from, fold_replace_drawn_from.
    intros y0 x0 ? ?. exists y0, x0. auto. }
  intros Hy Hx. now apply Hd.
Qed.

End Filters.

(** A 2x2 raster with one nodata pixel and filters that paint every pixel
    with class 2. *)
Definition sample : raster :=
  {| count := 1; height := 2; width := 2;
     data := λ _ y x, if (y =? 0) && (x =? 0) then 255 else 1;
     nodata := Some 255 |}.

Definition paint (h w : Z) (img : image) (mask : Z → Z → bool) : image :=
  λ _ _, 2.

Lemma nodata_region_unchanged_witness :
  ∃ out, postprocess_classes paint (λ _ _ _, []) (λ _, 0%Q) (λ _, (0, 0, 0, 0))
                             (λ _ _ _ _, false) sample 50 = Ok out
    ∧ (count out, height out, width out) = (1, 2, 2)
    ∧ nodata out = Some 255
    ∧ (∀ y x, data sample 0 y x = 255 → data out 0 y x = 255)
    ∧ (∀ y x, data sample 0 y x ≠ 255 →
              data out 0 y x =
              _postprocess_classes paint (λ _ _ _, []) (λ _, 0%Q) (λ _, (0, 0, 0, 0))
                (λ _ _ _ _, false) 2 2 (data sample 0)
                (λ y x, negb (data sample 0 y x =? 255)) 50 y x).
Proof.
  apply (nodata_region_unchanged paint (λ _ _ _, []) (λ _, 0%Q) (λ _, (0, 0, 0, 0))
           (λ _ _ _ _, false) sample 255 50); reflexivity.
Defined.

(** A majority filter that changes nothing and a contour finder that
    reports a single pixel at the corner. *)
Definition keep (h w : Z) (img : image) (mask : Z → Z → bool) : image := img.

Definition corner_contour (h w : Z) (b : Z → Z → bool) : list (list (Q * Q)) :=
  [[(1 # 2, 1 # 2)%Q]].

Lemma small_region_removal_keeps_classes_witness :
  ∃ y' x', 0 ≤ y' < 2 ∧ 0 ≤ x' < 2
    ∧ _postprocess_classes keep corner_contour (λ _, 0%Q) (λ _, (0, 0, 0, 0))
        (λ _ _ _ _, false) 2 2 (data sample 0) (λ _ _, true) 50 0 0
      = keep 2 2 (data sample 0) (λ _ _, true) y' x'.
Proof.
  apply (small_region_removal_keeps_classes keep corner_contour (λ _, 0%Q)
           (λ _, (0, 0, 0, 0)) (λ _ _ _ _, false) 2 2 (data sample 0)
           (λ _ _, true) 50 0 0); lia.
Defined.

End Postprocess.

(** ** The end of [progressively_grow_floodmaps] *)

Module Driver.
Import Search.

(** A call with [n_args] positional arguments of a function declared
    with [n_params] positional parameters, none of them with a default,
    and without [*args]: Python binds the arguments before the body runs
    and raises [TypeError] when their number is not that of the
    parameters. *)
Definition call {A} (n_params n_args : nat) (body : result A) : result A :=
  if (n_args =? n_params)%nat then body else Raise TypeError.

Section Grow.

Variable Geom : Type.
Variable shapely_contains : Geom → Geom → bool.
Variable Dem : Type.
Variable flood_model : Geom → list EdgeHeuristic.tensor * option Dem * option Numpy.ndarray3.
Variable RasterWindow : Type.
Variable window_of : Geom → RasterWindow.
Variable ks_water_stats : class_map → Z * Z * Z.
Variable KUROSIWO_PW_CLASS : Z.
Variable KUROSIWO_BG_CLASS : Z.
Variable tile_grids : Grid.grids (Grid.tile_grid Geom).
Variable viable_footprint : Geom.
Variable export_s1 : bool.
Variable max_tiles : Z.

(** What the body of [postprocess_classes] does with the raw flood map
    on disk. *)
Variable postprocess_body : result unit.

(** The loop of the search on the initial [tiles]. *)
Definition flood_fill (fuel : nat) (tiles0 : list coord)
  : option (result (state Geom RasterWindow)) :=
  search_loop Geom shapely_contains Dem flood_model RasterWindow window_of
              ks_water_stats KUROSIWO_PW_CLASS KUROSIWO_BG_CLASS tile_grids
              viable_footprint export_s1 max_tiles fuel
              (init_state Geom RasterWindow tiles0).

(** The statements after the loop:
    [postprocess_classes(raw_floodmap_path, floodmap_path, floodmap_nodata)],
    a call with three positional arguments of
    [def postprocess_classes(in_fpath, out_fpath, **kwargs)], and the
    [return] of the filled tiles, their statistics and [n_flooded]. *)
Definition finish (s : state Geom RasterWindow)
  : result (list Geom * list (Z * Z * Z) * Z) :=
  _ ← call 2 3 postprocess_body;
  Ok (fill_tiles _ _ s, geom_stats _ _ s, n_flooded _ _ s).

(** [progressively_grow_floodmaps], from the loop on. *)
Definition progressively_grow_floodmaps (fuel : nat) (tiles0 : list coord)
  : option (result (list Geom * list (Z * Z * Z) * Z)) :=
  match flood_fill fuel tiles0 with
  | None => None
  | Some r => Some (s ← r; finish s)
  end.

(** X23. [progressively_grow_floodmaps] returns no value: with a cap
    [max_tiles >= 0] the loop stops, and then either the exception that
    ended the loop leaves the function or, the loop having finished, the
    call of [postprocess_classes] with a third positional argument raises
    [TypeError] before any post-processing is done. *)
Theorem progressively_grow_floodmaps_raises (tiles0 : list coord) :
  0 ≤ max_tiles →
  ∃ e, progressively_grow_floodmaps (Z.to_nat max_tiles) tiles0 = Some (Raise e)
    ∧ (flood_fill (Z.to_nat max_tiles) tiles0 = Some (Raise e)
       ∨ e = TypeError
         ∧ ∃ s, flood_fill (Z.to_nat max_tiles) tiles0 = Some (Ok s)).
Proof.
  intros Hm. unfold progressively_grow_floodmaps, flood_fill.
  destruct (search_loop_enough_fuel Geom shapely_contains Dem flood_model
              RasterWindow window_of ks_water_stats KUROSIWO_PW_CLASS
              KUROSIWO_BG_CLASS tile_grids viable_footprint export_s1 max_tiles
              (Z.to_nat max_tiles) (init_state Geom RasterWindow tiles0))
    as (r & -> & _); [simpl; lia|].
  destruct r as [s|e].
  - exists TypeError. split; [reflexivity|]. right. eauto.
  - exists e. split; [reflexivity|]. now left.
Qed.

End Grow.

Lemma progressively_grow_floodmaps_raises_witness :
  ∃ e, progressively_grow_floodmaps Grid.polygon SmallLattice.contains_rect unit
         SmallLattice.oracle (Q * Q * Q * Q) Grid.bounds
         SmallLattice.count_classes 1 0 SmallLattice.lattices
         SmallLattice.viable false 3 (Ok tt) (Z.to_nat 3) [(0, 0)]
       = Some (Raise e)
    ∧ (flood_fill Grid.polygon SmallLattice.contains_rect unit
         SmallLattice.oracle (Q * Q * Q * Q) Grid.bounds
         SmallLattice.count_classes 1 0 SmallLattice.lattices
         SmallLattice.viable false 3 (Z.to_nat 3) [(0, 0)]
       = Some (Raise e)
       ∨ e = TypeError
         ∧ ∃ s, flood_fill Grid.polygon SmallLattice.contains_rect unit
                  SmallLattice.oracle (Q * Q * Q * Q) Grid.bounds
                  SmallLattice.count_classes 1 0 SmallLattice.lattices
                  SmallLattice.viable false 3 (Z.to_nat 3) [(0, 0)]
                = Some (Ok s)).
Proof.
  apply (progressively_grow_floodmaps_raises Grid.polygon
           SmallLattice.contains_rect unit SmallLattice.oracle (Q * Q * Q * Q)
           Grid.bounds SmallLattice.count_classes 1 0 SmallLattice.lattices
           SmallLattice.viable false 3 (Ok tt) [(0, 0)]).
  lia.
Defined.

End Driver.

(** ** The check of the input rasters *)

Module Inputs.

Section Tifs.

(** Coordinate reference systems and their [==]. *)
Context {Crs : Type} `{EqDecision Crs}.

(** What [check_tifs_match] reads of an opened raster: [transform[0]],
    [transform[4]] and [crs]. *)
Record tif : Type := Tif {
  res_x : Q;
  res_y : Q;
  crs : Crs
}.

(** The default tolerances of [np.allclose]. *)
Definition rtol : Q := 1 # 100000.
Definition atol : Q := 1 # 100000000.

(** [np.isclose(a, b)]: [|a - b| <= atol + rtol * |b|]. *)
Definition isclose (a b : Q) : bool :=
  Qle_bool (Qabs (a - b)) (atol + rtol * Qabs b).

(** [np.allclose((t[0], t[4]), res)] *)
Definition allclose (t : tif) (res : Q * Q) : bool :=
  isclose (res_x t) res.1 && isclose (res_y t) res.2.

(** How [check_tifs_match] ends: it returns, [transforms[0]] raises
    [IndexError], or one of the two assertions fails. *)
Inductive outcome : Set :=
| Returns
| RaisesIndexError
| NotSameResolution
| NotSameCRS.

Definition check_tifs_match (tifs : list tif) : outcome :=
  match tifs with
  | [] => RaisesIndexError
  | t0 :: rest =>
      let res := (res_x t0, res_y t0) in
      if forallb (λ t, allclose t res) rest
      then
        if forallb (λ tif, bool_decide (crs tif = crs t0)) rest
        then Returns
        else NotSameCRS
      else NotSameResolution
  end.

(** The tolerance around a reference value. *)
Definition tolerance (b : Q) : Q := atol + rtol * Qabs b.

Lemma isclose_spec (a b : Q) :
  isclose a b = true ↔ (Qabs (a - b) <= tolerance b)%Q.
Proof. unfold isclose, tolerance. apply Qle_bool_iff. Qed.

Lemma tolerance_nonneg (b : Q) : (0 <= tolerance b)%Q.
Proof.
  unfold tolerance, atol, rtol. pose proof (Qabs_nonneg b). lra.
Qed.

Lemma isclose_refl (b : Q) : isclose b b = true.
Proof.
  apply isclose_spec. pose proof (tolerance_nonneg b).
  apply Qabs_diff_Qle_condition. lra.
Qed.

Lemma close_to_same (a b c : Q) :
  isclose a c = true → isclose b c = true →
  (Qabs (a - b) <= 2 * tolerance c)%Q.
Proof.
  rewrite !isclose_spec. intros Ha Hb.
  apply Qabs_diff_Qle_condition in Ha, Hb. apply Qabs_diff_Qle_condition. lra.
Qed.

(** X24. When [check_tifs_match] returns, there is a first raster, all
    rasters have its CRS, and the pixel sizes of any two of them differ,
    on each axis, by at most twice the tolerance of [np.allclose] at the
    pixel size of the first raster (each raster is compared with the
    first one only). *)
Theorem check_tifs_match_returns (tifs : list tif) :
  check_tifs_match tifs = Returns →
  ∃ t0 rest, tifs = t0 :: rest
    ∧ ∀ t u, t ∈ tifs → u ∈ tifs →
        crs t = crs u
        ∧ (Qabs (res_x t - res_x u) <= 2 * tolerance (res_x t0))%Q
        ∧ (Qabs (res_y t - res_y u) <= 2 * tolerance (res_y t0))%Q.
Proof.
  unfold check_tifs_match. destruct tifs as [|t0 rest]; [discriminate|].
  cbv zeta. destruct (forallb _ rest) eqn:Hres; [|discriminate].
  destruct (forallb _ rest) eqn:Hcrs in |- *; [|discriminate].
  intros _. exists t0, rest. split; [reflexivity|].
  assert (Hall : ∀ t, t ∈ t0 :: rest →
                      crs t = crs t0
                      ∧ isclose (res_x t) (res_x t0) = true
                      ∧ isclose (res_y t) (res_y t0) = true).
  { intros t Ht. apply elem_of_cons in Ht. destruct Ht as [->|Ht].
    - rewrite !isclose_refl. auto.
    - apply list_elem_of_In in Ht.
      rewrite forallb_forall in Hres, Hcrs.
      specialize (Hres t Ht). specialize (Hcrs t Ht).
      apply bool_decide_eq_true in Hcrs. unfold allclose in Hres.
      apply andb_true_iff in Hres. cbn [fst snd] in Hres. tauto. }
  intros t u Ht Hu.
  destruct (Hall t Ht) as (Ct & Xt & Yt). destruct (Hall u Hu) as (Cu & Xu & Yu).
  split; [congruence|]. split; now apply close_to_same.
Qed.

End Tifs.

Lemma check_tifs_match_returns_witness :
  ∃ t0 rest,
    [Tif (1 # 1000) (-1 # 1000) 4326; Tif (1000001 # 1000000000) (-1 # 1000) 4326] = t0 :: rest
    ∧ ∀ t u,
        t ∈ [Tif (1 # 1000) (-1 # 1000) 4326; Tif (1000001 # 1000000000) (-1 # 1000) 4326] →
        u ∈ [Tif (1 # 1000) (-1 # 1000) 4326; Tif (1000001 # 1000000000) (-1 # 1000) 4326] →
        crs t = crs u
        ∧ (Qabs (res_x t - res_x u) <= 2 * tolerance (res_x t0))%Q
        ∧ (Qabs (res_y t - res_y u) <= 2 * tolerance (res_y t0))%Q.
Proof.
  apply (check_tifs_match_returns
           [Tif (1 # 1000) (-1 # 1000) 4326; Tif (1000001 # 1000000000) (-1 # 1000) 4326]).
  vm_compute. reflexivity.
Defined.

End Inputs.

(** ** The download of ERA5-Land ([src/scripts/dl-era5-land.py]) *)

Module Era5Land.
Import Window.

(** *** The month a download covers *)

(** [end_year] and [end_month] of [download_locally]. *)
Definition end_date (year month : Z) : Z * Z :=
  let end_year := year + month / 12 in
  let end_month := month mod 12 + 1 in
  (end_year, end_month).

Definition YEAR_RANGE : list Z := range 2013 2024.
Definition MONTH_RANGE : list Z := range 1 13.

(** The [(year, month)] pairs [main] submits, in the order of the two
    nested loops. *)
Definition submitted (years months : list Z) : list (Z * Z) :=
  list_prod years months.

(** *** The 16-bit encoding *)

(** A pixel of one band of the merged raster: its value, [None] for NaN,
    and whether the area mask covers it (it lies outside
    [SANS_ANTARCTICA]). *)
Record pixel : Type := Pixel {
  value : option Q;
  outside_area : bool
}.

(** [np.nanmin] and [np.nanmax] over a band: NaN for a band of NaN. *)
Definition nan_fold (pick : Q → Q → Q) (band : list pixel) : option Q :=
  fold_left
    (λ acc p,
       match value p with
       | None => acc
       | Some v => Some (match acc with None => v | Some m => pick m v end)
       end)
    band None.

Definition nanmin : list pixel → option Q := nan_fold Qmin.
Definition nanmax : list pixel → option Q := nan_fold Qmax.

(** Division of floats: the quotient by zero is NaN or infinite,
    [None] here. *)
Definition fdiv (a b : Q) : option Q :=
  if Qeq_bool b 0 then None else Some (a / b)%Q.

(** [x.astype(np.int16)]: the fraction is dropped; what a NaN, an
    infinity or a value outside the 16 bits becomes is left open
    ([None]). *)
Definition astype_int16 (x : option Q) : option Z :=
  match x with
  | None => None
  | Some q =>
      let z := if Qle_bool 0 q then Qfloor q else Qceiling q in
      if (-32768 <=? z) && (z <=? 32767) then Some z else None
  end.

Definition NODATA : Z := -32767.

(** What [_reprocess_to_16bit] writes for one band: the integers, the
    scale and the offset. *)
Record encoded : Type := Encoded {
  bands_int : list (option Z);
  scales : option Q;
  offsets : option Q
}.

Definition _reprocess_to_16bit (band : list pixel) : encoded :=
  let offsets := nanmin band in
  let scales :=
    match nanmax band, offsets with
    | Some hi, Some lo => Some ((hi - lo) / inject_Z (2 ^ 14))%Q
    | _, _ => None
    end in
  {| bands_int :=
       map (λ p,
              match value p, outside_area p with
              | Some v, false =>
                  match offsets, scales with
                  | Some o, Some s => astype_int16 (fdiv (v - o) s)
                  | _, _ => None
                  end
              | _, _ => Some NODATA
              end) band;
     scales := scales;
     offsets := offsets |}.

(** *** The months tile the period *)

(** X25. For a month from 1 to 12, the end date [download_locally]
    computes is the first of the following month: the month number stays
    between 1 and 12 and December rolls over to January of the next
    year. *)
Theorem end_date_is_next_month (year month : Z) :
  1 ≤ month ≤ 12 →
  1 ≤ (end_date year month).2 ≤ 12
  ∧ 12 * (end_date year month).1 + (end_date year month).2
    = 12 * year + month + 1.
Proof.
  intros H. unfold end_date. cbn [fst snd].
  destruct (decide (month = 12)) as [->|Hne].
  - change (12 / 12) with 1. change (12 mod 12) with 0. lia.
  - rewrite Z.div_small, Z.mod_small by lia. lia.
Qed.

Lemma end_date_is_next_month_witness :
  1 ≤ (end_date 2013 12).2 ≤ 12
  ∧ 12 * (end_date 2013 12).1 + (end_date 2013 12).2 = 12 * 2013 + 12 + 1.
Proof. apply (end_date_is_next_month 2013 12). lia. Defined.

Lemma months_block (y : Z) :
  map (λ t : Z * Z, end_date t.1 t.2) (map (pair y) MONTH_RANGE)
  = tl (map (pair y) MONTH_RANGE) ++ [(y + 1, 1)].
Proof.
  change MONTH_RANGE with [1; 2; 3; 4; 5; 6; 7; 8; 9; 10; 11; 12].
  cbn [map tl app fst snd]. unfold end_date.
  change (1 / 12) with 0. change (2 / 12) with 0. change (3 / 12) with 0.
  change (4 / 12) with 0. change (5 / 12) with 0. change (6 / 12) with 0.
  change (7 / 12) with 0. change (8 / 12) with 0. change (9 / 12) with 0.
  change (10 / 12) with 0. change (11 / 12) with 0. change (12 / 12) with 1.
  rewrite !Z.add_0_r. reflexivity.
Qed.

Lemma submitted_cons (y : Z) (years : list Z) :
  submitted (y :: years) MONTH_RANGE
  = (y, 1) :: tl (map (pair y) MONTH_RANGE) ++ submitted years MONTH_RANGE.
Proof. reflexivity. Qed.

Lemma submitted_contiguous (n : nat) (y0 : Z) :
  map (λ t : Z * Z, end_date t.1 t.2)
      (submitted (seqZ y0 (Z.of_nat (S n))) MONTH_RANGE)
  = tl (submitted (seqZ y0 (Z.of_nat (S n))) MONTH_RANGE)
    ++ [(y0 + Z.of_nat (S n), 1)].
Proof.
  revert y0. induction n as [|n IH]; intros y0.
  - change (seqZ y0 (Z.of_nat 1)) with [0 + y0]. rewrite Z.add_0_l.
    unfold submitted. cbn [list_prod]. rewrite !app_nil_r.
    rewrite months_block. f_equal.
  - rewrite (seqZ_cons y0) by lia.
    replace (Z.pred (Z.of_nat (S (S n)))) with (Z.of_nat (S n)) by lia.
    unfold submitted at 1. cbn [list_prod]. rewrite map_app, months_block.
    fold (submitted (seqZ (Z.succ y0) (Z.of_nat (S n))) MONTH_RANGE).
    rewrite IH. rewrite (submitted_cons y0). cbn [tl].
    rewrite (seqZ_cons (Z.succ y0)) by lia. rewrite submitted_cons. cbn [tl].
    rewrite <- !app_assoc. cbn [app].
    replace (Z.succ y0 + Z.of_nat (S n)) with (y0 + Z.of_nat (S (S n))) by lia.
    replace (y0 + 1) with (Z.succ y0) by lia.
    rewrite <- !app_assoc. reflexivity.
Qed.

(** X26. The months [main] submits tile the period: over the years
    [range(y0, y1)] and the months 1 to 12, in the order they are
    submitted, every download ends on the date the next one starts on,
    and the last one ends on the first of January of [y1]. *)
Theorem submitted_months_are_contiguous (y0 y1 : Z) :
  y0 < y1 →
  map (λ t : Z * Z, end_date t.1 t.2) (submitted (range y0 y1) MONTH_RANGE)
  = tl (submitted (range y0 y1) MONTH_RANGE) ++ [(y1, 1)].
Proof.
  intros H. unfold range.
  replace (y1 - y0) with (Z.of_nat (S (Z.to_nat (y1 - y0 - 1)))) by lia.
  rewrite submitted_contiguous. repeat f_equal. lia.
Qed.

Lemma submitted_months_are_contiguous_witness :
  map (λ t : Z * Z, end_date t.1 t.2) (submitted YEAR_RANGE MONTH_RANGE)
  = tl (submitted YEAR_RANGE MONTH_RANGE) ++ [(2024, 1)].
Proof. apply (submitted_months_are_contiguous 2013 2024). lia. Defined.

(** *** The range of the encoding *)

Lemma nan_fold_bound (R : Q → Q → Prop) (pick : Q → Q → Q) :
  (∀ a, R a a) → (∀ a b c, R a b → R b c → R a c) →
  (∀ m v, R (pick m v) m ∧ R (pick m v) v) →
  ∀ (band : list pixel) (acc : option Q) (r : Q),
    fold_left
      (λ acc p,
         match value p with
         | None => acc
         | Some v => Some (match acc with None => v | Some m => pick m v end)
         end) band acc = Some r →
    (∀ a, acc = Some a → R r a)
    ∧ ∀ p v, p ∈ band → value p = Some v → R r v.
Proof.
  intros Hrefl Htrans Hpick band.
  induction band as [|p band IH]; intros acc r; cbn [fold_left].
  - intros ->. split; [intros a E; inversion E; apply Hrefl|].
    intros p v Hp. inversion Hp.
  - intros H. apply IH in H. destruct H as [Hacc Hband]. split.
    + intros a ->. destruct (value p) as [v|]; [|now apply Hacc].
      eapply Htrans; [apply Hacc; reflexivity|apply Hpick].
    + intros p' v' Hp' Hv'. apply elem_of_cons in Hp'.
      destruct Hp' as [->|Hp']; [|eapply Hband; eassumption].
      rewrite Hv' in Hacc. destruct acc as [m|].
      * eapply Htrans; [apply Hacc; reflexivity|apply Hpick].
      * apply Hacc. reflexivity.
Qed.

Lemma nanmin_le (band : list pixel) (lo : Q) (p : pixel) (v : Q) :
  nanmin band = Some lo → p ∈ band → value p = Some v → (lo <= v)%Q.
Proof.
  intros H. eapply (nan_fold_bound Qle Qmin) in H.
  - destruct H as [_ H]. apply H.
  - apply Qle_refl.
  - intros a b c. apply Qle_trans.
  - intros m w. split; [apply Q.le_min_l|apply Q.le_min_r].
Qed.

Lemma nanmax_ge (band : list pixel) (hi : Q) (p : pixel) (v : Q) :
  nanmax band = Some hi → p ∈ band → value p = Some v → (v <= hi)%Q.
Proof.
  intros H. eapply (nan_fold_bound (λ a b, b <= a)%Q Qmax) in H.
  - destruct H as [_ H]. apply H.
  - apply Qle_refl.
  - intros a b c Hab Hbc. eapply Qle_trans; eassumption.
  - intros m w. split; [apply Q.le_max_l|apply Q.le_max_r].
Qed.

Lemma lookup_map {A B} (g : A → B) (l : list A) (i : nat) :
  map g l !! i = g <$> (l !! i).
Proof.
  revert i. induction l as [|a l IH]; intros [|i]; cbn; auto.
Qed.

(** The integer stored for a value between the extremes of its band. *)
Lemma quantise_spec (lo hi v : Q) :
  (lo < hi)%Q → (lo <= v <= hi)%Q →
  let scale := ((hi - lo) / inject_Z (2 ^ 14))%Q in
  ∃ q, astype_int16 (fdiv (v - lo) scale) = Some q
    ∧ 0 ≤ q ≤ 2 ^ 14
    ∧ (inject_Z q * scale + lo <= v)%Q
    ∧ (v < inject_Z (q + 1) * scale + lo)%Q
    ∧ ((v == lo)%Q → q = 0)
    ∧ ((v == hi)%Q → q = 2 ^ 14).
Proof.
  intros Hlt [Hlo Hhi] scale.
  assert (Hs : (0 < scale)%Q).
  { unfold scale. apply Qlt_shift_div_l; [reflexivity|]. lra. }
  assert (Hne : ¬ (scale == 0)%Q) by lra.
  unfold fdiv. destruct (Qeq_bool scale 0) eqn:E;
    [apply Qeq_bool_iff in E; contradiction|].
  set (t := ((v - lo) / scale)%Q).
  assert (Et : (t * scale == v - lo)%Q).
  { unfold t. field. exact Hne. }
  assert (Ht0 : (0 <= t)%Q).
  { unfold t. apply Qle_shift_div_l; [exact Hs|]. lra. }
  assert (Ht1 : (t <= inject_Z (2 ^ 14))%Q).
  { unfold t. apply Qle_shift_div_r; [exact Hs|].
    assert (Ehi : (inject_Z (2 ^ 14) * scale == hi - lo)%Q).
    { unfold scale. field. discriminate. }
    rewrite Ehi. lra. }
  cbn [astype_int16]. apply Qle_bool_iff in Ht0 as B. rewrite B.
  pose proof (Qfloor_resp_le _ _ Ht0) as F0. change (Qfloor 0) with 0 in F0.
  pose proof (Qfloor_resp_le _ _ Ht1) as F1. rewrite Qfloor_Z in F1.
  replace (-32768 <=? Qfloor t) with true by (symmetry; apply Z.leb_le; lia).
  replace (Qfloor t <=? 32767) with true
    by (symmetry; apply Z.leb_le; change (2 ^ 14) with 16384 in F1; lia).
  exists (Qfloor t). split; [reflexivity|]. split; [lia|].
  pose proof (Qfloor_le t) as L1. pose proof (Qlt_floor t) as L2.
  pose proof (Qmult_le_compat_r _ _ scale L1 (Qlt_le_weak _ _ Hs)) as M1.
  pose proof (Qmult_lt_compat_r _ _ scale Hs L2) as M2.
  split; [lra|]. split; [lra|]. split.
  - intros Ev. assert (E0 : (t == 0)%Q).
    { unfold t. rewrite Ev. field. exact Hne. }
    rewrite (Qfloor_comp _ _ E0). reflexivity.
  - intros Ev. assert (E1 : (t == inject_Z (2 ^ 14))%Q).
    { unfold t, scale. rewrite Ev. field.
      repeat split; try discriminate; lra. }
    rewrite (Qfloor_comp _ _ E1). apply Qfloor_Z.
Qed.

(** X27. For a band whose smallest value is below its largest,
    [_reprocess_to_16bit] stores the offset and scale
    [min, (max - min) / 2**14] and an integer for every pixel: -32767 for
    a NaN pixel and for a pixel the area mask covers, and for any other
    pixel an integer from 0 to 16384 (0 for the smallest value, 16384 for
    the largest), which is never the nodata value. *)
Theorem reprocess_to_16bit_range (band : list pixel) (lo hi : Q) :
  nanmin band = Some lo → nanmax band = Some hi → (lo < hi)%Q →
  offsets (_reprocess_to_16bit band) = Some lo
  ∧ scales (_reprocess_to_16bit band)
    = Some ((hi - lo) / inject_Z (2 ^ 14))%Q
  ∧ length (bands_int (_reprocess_to_16bit band)) = length band
  ∧ ∀ i p, band !! i = Some p →
      match value p, outside_area p with
      | Some v, false =>
          ∃ q, bands_int (_reprocess_to_16bit band) !! i = Some (Some q)
            ∧ 0 ≤ q ≤ 16384 ∧ q ≠ NODATA
            ∧ ((v == lo)%Q → q = 0) ∧ ((v == hi)%Q → q = 16384)
      | _, _ =>
          bands_int (_reprocess_to_16bit band) !! i = Some (Some NODATA)
      end.
Proof.
  intros Hlo Hhi Hlt. unfold _reprocess_to_16bit. cbv zeta.
  cbn [offsets scales bands_int]. rewrite Hlo, Hhi.
  split; [reflexivity|]. split; [reflexivity|].
  split; [apply length_map|].
  intros i p Hp. rewrite lookup_map, Hp. cbn [fmap option_fmap option_map].
  destruct (value p) as [v|] eqn:Ev; [|reflexivity].
  destruct (outside_area p); [reflexivity|].
  apply list_elem_of_lookup_2 in Hp.
  destruct (quantise_spec lo hi v Hlt) as (q & Eq & Hq & _ & _ & H0 & H1).
  { split; [eapply nanmin_le|eapply nanmax_ge]; eassumption. }
  exists q. rewrite Eq. change (2 ^ 14) with 16384 in *.
  repeat split; auto; try lia. unfold NODATA. lia.
Qed.

(** A band with the values 0, 1 and 3/4, one NaN pixel and one pixel of
    Antarctica. *)
Definition sample_band : list pixel :=
  [Pixel (Some 0%Q) false; Pixel (Some 1%Q) false; Pixel None false;
   Pixel (Some (3 # 4)%Q) false; Pixel (Some (1 # 2)%Q) true].

Lemma reprocess_to_16bit_range_witness :
  offsets (_reprocess_to_16bit sample_band) = Some 0%Q
  ∧ scales (_reprocess_to_16bit sample_band)
    = Some ((1 - 0) / inject_Z (2 ^ 14))%Q
  ∧ length (bands_int (_reprocess_to_16bit sample_band)) = length sample_band
  ∧ ∀ i p, sample_band !! i = Some p →
      match value p, outside_area p with
      | Some v, false =>
          ∃ q, bands_int (_reprocess_to_16bit sample_band) !! i = Some (Some q)
            ∧ 0 ≤ q ≤ 16384 ∧ q ≠ NODATA
            ∧ ((v == 0)%Q → q = 0) ∧ ((v == 1)%Q → q = 16384)
      | _, _ =>
          bands_int (_reprocess_to_16bit sample_band) !! i = Some (Some NODATA)
      end.
Proof.
  apply (reprocess_to_16bit_range sample_band 0 1).
  - reflexivity.
  - reflexivity.
  - reflexivity.
Defined.

End Era5Land.

(** ** Reading the 16-bit rasters back ([src/scripts/calc-norm-param.py]) *)

Module NormParam.
Import Era5Land.

(** [data * scales + offsets] of [get_stats_era5], for one stored
    integer of a band. *)
Definition decode (scales offsets : Q) (data : Z) : Q :=
  (inject_Z data * scales + offsets)%Q.

(** [data == tif.nodata], on the decoded value. *)
Definition nan_mask (nodata : Z) (data : Q) : bool :=
  Qeq_bool data (inject_Z nodata).



(** X29. A pixel that [_reprocess_to_16bit] stored as nodata (a NaN, or
    a pixel the area mask covers) is decoded by [get_stats_era5] before
    it is compared with the nodata value: it becomes
    [min - 32767 * (max - min) / 2**14] and is taken for nodata exactly
    when [32767 * (max - min) = 16384 * (min + 32767)]; in a band with
    any other extremes it counts as data. *)
Theorem stored_nodata_is_decoded_first
        (band : list pixel) (lo hi : Q) (i : nat) (p : pixel) :
  nanmin band = Some lo → nanmax band = Some hi → (lo < hi)%Q →
  band !! i = Some p →
  value p = None ∨ outside_area p = true →
  ∃ s, bands_int (_reprocess_to_16bit band) !! i = Some (Some NODATA)
    ∧ scales (_reprocess_to_16bit band) = Some s
    ∧ offsets (_reprocess_to_16bit band) = Some lo
    ∧ (nan_mask NODATA (decode s lo NODATA) = true
       ↔ (32767 * (hi - lo) == 16384 * (lo + 32767))%Q).
Proof.
  intros Hlo Hhi Hlt Hp Hnd.
  exists ((hi - lo) / inject_Z (2 ^ 14))%Q.
  unfold _reprocess_to_16bit. cbv zeta. cbn [offsets scales bands_int].
  rewrite Hlo, Hhi, lookup_map, Hp. cbn [fmap option_fmap option_map].
  split.
  { destruct Hnd as [-> | ->]; [reflexivity|].
    destruct (value p); reflexivity. }
  split; [reflexivity|]. split; [reflexivity|].
  unfold nan_mask, decode, NODATA. rewrite Qeq_bool_iff.
  set (s := ((hi - lo) / inject_Z (2 ^ 14))%Q).
  assert (Es : (s * 16384 == hi - lo)%Q).
  { unfold s. change (inject_Z (2 ^ 14)) with (16384 # 1)%Q. field. }
  change (inject_Z (-32767)) with (-32767 # 1)%Q.
  split; intros H; lra.
Qed.

Lemma stored_nodata_is_decoded_first_witness :
  ∃ s, bands_int (_reprocess_to_16bit sample_band) !! 2%nat = Some (Some NODATA)
    ∧ scales (_reprocess_to_16bit sample_band) = Some s
    ∧ offsets (_reprocess_to_16bit sample_band) = Some 0%Q
    ∧ (nan_mask NODATA (decode s 0 NODATA) = true
       ↔ (32767 * (1 - 0) == 16384 * (0 + 32767))%Q).
Proof.
  apply (stored_nodata_is_decoded_first sample_band 0 1 2
           (Pixel None false)).
  - reflexivity.
  - reflexivity.
  - reflexivity.
  - reflexivity.
  - left. reflexivity.
Defined.

(** *** The loops of [get_stats_s1_dem] *)

Section S1Dem.

(** The meta files, the rows of their [visit_tiles], the accumulators
    (the sums, sums of squares and counts of every partition), the
    exceptions, and the body of the loop over the tiles, which raises when
    the Sentinel-1 tile holds a NaN. *)
Variable File : Type.
Variable Tile : Type.
Variable Acc : Type.
Variable Err : Type.
Variable visit_tiles : File → list Tile.
Variable add_tile : File → Tile → Acc → Acc + Err.

(** [for i, tile_row in visit_tiles.iterrows(): ...; if i > 50: break] *)
Fixpoint tile_loop (f : File) (i : Z) (tiles : list Tile) (acc : Acc)
  : Acc + Err :=
  match tiles with
  | [] => inl acc
  | t :: rest =>
      match add_tile f t acc with
      | inl acc => if 50 <? i then inl acc else tile_loop f (i + 1) rest acc
      | inr e => inr e
      end
  end.

(** [for j, meta_fpath in enumerate(fpaths): ...; if j > 4: break] *)
Fixpoint file_loop (j : Z) (fpaths : list File) (acc : Acc) : Acc + Err :=
  match fpaths with
  | [] => inl acc
  | f :: rest =>
      match tile_loop f 0 (visit_tiles f) acc with
      | inl acc => if 4 <? j then inl acc else file_loop (j + 1) rest acc
      | inr e => inr e
      end
  end.

Lemma tile_loop_take (f : File) (tiles : list Tile) (i : Z) (acc : Acc) :
  0 ≤ i ≤ 51 →
  tile_loop f i tiles acc = tile_loop f i (take (Z.to_nat (52 - i)) tiles) acc.
Proof.
  revert i acc. induction tiles as [|t tiles IH]; intros i acc Hi.
  - now rewrite take_nil.
  - replace (Z.to_nat (52 - i)) with (S (Z.to_nat (52 - (i + 1)))) by lia.
    cbn [take tile_loop]. destruct (add_tile f t acc) as [acc'|e]; [|reflexivity].
    destruct (50 <? i) eqn:E; [reflexivity|].
    apply Z.ltb_ge in E. apply IH. lia.
Qed.

Lemma file_loop_take (fpaths : list File) (j : Z) (acc : Acc) :
  0 ≤ j ≤ 5 →
  file_loop j fpaths acc = file_loop j (take (Z.to_nat (6 - j)) fpaths) acc.
Proof.
  revert j acc. induction fpaths as [|f fpaths IH]; intros j acc Hj.
  - now rewrite take_nil.
  - replace (Z.to_nat (6 - j)) with (S (Z.to_nat (6 - (j + 1)))) by lia.
    cbn [take file_loop].
    destruct (tile_loop f 0 (visit_tiles f) acc) as [acc'|e]; [|reflexivity].
    destruct (4 <? j) eqn:E; [reflexivity|].
    apply Z.ltb_ge in E. apply IH. lia.
Qed.

(** X30. The statistics of [get_stats_s1_dem] are those of a sample: the
    two [break] statements end the loop over the meta files after the
    sixth file and the loop over the tiles of a file after its 52nd
    tile, so the accumulators (or the exception raised) are what the
    first six files and the first 52 tiles of each of them give,
    whatever comes after. *)
Theorem s1_dem_statistics_use_a_sample
        (fpaths : list File) (f : File) (tiles : list Tile) (acc : Acc) :
  file_loop 0 fpaths acc = file_loop 0 (take 6 fpaths) acc
  ∧ tile_loop f 0 tiles acc = tile_loop f 0 (take 52 tiles) acc.
Proof.
  split.
  - apply (file_loop_take fpaths 0). lia.
  - apply (tile_loop_take f tiles 0). lia.
Qed.

End S1Dem.

End NormParam.
